(** * Crystal Archive: a shallow embedding of the codecs and of the pipeline

    The Python sources under [src/crystal_archive] are embedded as Rocq
    functions, module by module:
    - [codecs/compression.py]  as [Compression],
    - [packer.py]              as [Packer],
    - [codecs/hashing.py]      as [Merkle],
    - [codecs/ecc_ldpc.py]     as [LDPC],
    - [codecs/interleave.py]   as [Interleave],
    - [mapping/voxel_map.py]   as [VoxelMap],
    - [archive/manifest.py]    as [ManifestFile],
    - [archive/pipeline.py]    as [Pipeline].

    Conventions.  A Python [bytes] object is a [list byte]; a numpy array of
    bits is a [list bool]; a Python exception is a constructor of [exn] carried
    by [result]; a [dict] with string keys is a [gmap string _]; a [float]
    that the code computes with is an IEEE 754 binary64 [spec_float].  Library calls
    whose code is not part of the repository (zstandard, lzma, reedsolo, the
    numpy random generators, the json module) are Section variables, together
    with the part of their documented contract that a proof uses. *)

From Stdlib Require Import ZArith QArith Qround List Strings.String Strings.Ascii Strings.Byte.
From Stdlib Require Import DecimalString Floats.SpecFloat.
From Stdlib Require Import Lia.
From stdpp Require Import base gmap strings list.

#[local] Set Warnings "-register-all".
#[local] Open Scope Z_scope.

(** ** Python values shared by the modules *)

Abbreviation bytes := (list byte).

(** The exceptions the embedded functions raise. *)
Inductive exn :=
| ValueError (msg : string)
| KeyError (key : string)
| AttributeError
| TypeError
| IndexError
| ZeroDivisionError
| OverflowError
| UnicodeEncodeError
| UnicodeDecodeError
| OSError
| LibraryError (lib : string).

Inductive result (A : Type) :=
| Ok (a : A)
| Raise (e : exn).
Arguments Ok {A} a.
Arguments Raise {A} e.

Definition bind {A B} (r : result A) (f : A -> result B) : result B :=
  match r with
  | Ok a => f a
  | Raise e => Raise e
  end.

Notation "'let*' x := r 'in' k" := (bind r (fun x => k))
  (at level 10, x pattern, r at level 100, k at level 200).

(** A JSON-representable Python value ([Any] in the type hints of the
    sources).  Finite floats are rationals. *)
Inductive json :=
| JNull
| JBool (b : bool)
| JInt (z : Z)
| JFloat (q : Q)
| JStr (s : string)
| JArr (l : list json)
| JObj (m : gmap string json).

(** Python truth value of a JSON-representable value ([if stored_hash:]). *)
Definition truthy (v : json) : bool :=
  match v with
  | JNull => false
  | JBool b => b
  | JInt z => negb (z =? 0)
  | JFloat q => negb (Qeq_bool q 0)
  | JStr s => negb (String.eqb s EmptyString)
  | JArr l => match l with [] => false | _ => true end
  | JObj m => negb (bool_decide (m = ∅))
  end.

Definition byte_of_Z (z : Z) : byte :=
  match Byte.of_N (Z.to_N (z mod 256)) with
  | Some b => b
  | None => x00
  end.

Definition Z_of_byte (b : byte) : Z := Z.of_N (Byte.to_N b).

#[global] Instance byte_eq_dec : EqDecision byte := Byte.byte_eq_dec.

(** The slices [l[i:i+size]] for [i in range(0, len(l), size)], with
    [size >= 1]; [fuel] bounds the number of slices and [length l] is
    enough. *)
Fixpoint chunks {A} (fuel size : nat) (l : list A) : list (list A) :=
  match fuel, l with
  | S fuel', _ :: _ => firstn size l :: chunks fuel' size (skipn size l)
  | _, _ => []
  end.

(** A Python [str] is kept as its UTF-8 bytes: [encode_utf8] is what
    [s.encode()] returns and [decode_utf8] what [b.decode()] returns, when
    they return.  A file name that is not UTF-8 reaches Python with its
    offending bytes as lone surrogates ([surrogateescape]); it is kept as
    the bytes the file system has. *)
Definition encode_utf8 (s : string) : bytes := list_byte_of_string s.
Definition decode_utf8 (b : bytes) : string := string_of_list_byte b.

(** Well-formed UTF-8 (Unicode, table 3-7), which is what the codec of
    CPython accepts: no overlong form, no surrogate, nothing above
    U+10FFFF. *)
Definition between (lo hi : Z) (b : byte) : bool :=
  (lo <=? Z_of_byte b) && (Z_of_byte b <=? hi).

Fixpoint valid_utf8 (b : bytes) : bool :=
  match b with
  | [] => true
  | b0 :: rest =>
      let z := Z_of_byte b0 in
      if z <=? 127 then valid_utf8 rest
      else if between 194 223 b0 then
        match rest with
        | b1 :: rest' => between 128 191 b1 && valid_utf8 rest'
        | _ => false
        end
      else if between 224 239 b0 then
        match rest with
        | b1 :: b2 :: rest' =>
            between (if z =? 224 then 160 else 128) (if z =? 237 then 159 else 191) b1
            && between 128 191 b2 && valid_utf8 rest'
        | _ => false
        end
      else if between 240 244 b0 then
        match rest with
        | b1 :: b2 :: b3 :: rest' =>
            between (if z =? 240 then 144 else 128) (if z =? 244 then 143 else 191) b1
            && between 128 191 b2 && between 128 191 b3 && valid_utf8 rest'
        | _ => false
        end
      else false
  end.

(** [s.encode("utf-8")]: a [UnicodeEncodeError] on a lone surrogate, that
    is, on a string whose bytes are not UTF-8. *)
Definition str_encode (s : string) : result bytes :=
  if valid_utf8 (encode_utf8 s) then Ok (encode_utf8 s) else Raise UnicodeEncodeError.

(** [b.decode("utf-8")]: a [UnicodeDecodeError] on bytes that are not
    UTF-8. *)
Definition bytes_decode (b : bytes) : result string :=
  if valid_utf8 b then Ok (decode_utf8 b) else Raise UnicodeDecodeError.

(** ** Python floats

    A [float] is an IEEE 754 binary64 number ([spec_float] with a mantissa of
    53 bits and [emax = 1024]); the operations round to nearest, ties to
    even. *)

(** An integer as the exact operand of a float operation. *)
Definition exact_int (z : Z) : spec_float :=
  match z with
  | Z0 => S754_zero false
  | Zpos m => S754_finite false m 0
  | Zneg m => S754_finite true m 0
  end.

(** [float(z)], the conversion of an [int] operand of a float operation:
    the nearest float, or an [OverflowError]. *)
Definition float_of_int (z : Z) : result spec_float :=
  match binary_normalize 53 1024 z 0 false with
  | S754_infinity _ => Raise OverflowError
  | x => Ok x
  end.

(** [a / b] on two [int]s: the float nearest to the quotient. *)
Definition int_true_divide (a b : Z) : result spec_float :=
  if b =? 0 then Raise ZeroDivisionError
  else
    match SFdiv 53 1024 (exact_int a) (exact_int b) with
    | S754_infinity _ => Raise OverflowError
    | x => Ok x
    end.

(** [int(x)]: the float truncated towards zero. *)
Definition int_of_float (x : spec_float) : result Z :=
  match x with
  | S754_zero _ => Ok 0
  | S754_infinity _ => Raise OverflowError
  | S754_nan => Raise (ValueError "cannot convert float NaN to integer")
  | S754_finite s m e =>
      Ok (cond_Zopp s (if 0 <=? e then Z.pos m * 2 ^ e else Z.pos m / 2 ^ (- e)))
  end.

(** ** [hashlib.sha256] (FIPS 180-4) *)

Module SHA256.

Definition w32 (z : Z) : Z := z mod 2 ^ 32.
Definition add32 (a b : Z) : Z := w32 (a + b).
Definition rotr (n x : Z) : Z := Z.lor (Z.shiftr x n) (w32 (Z.shiftl x (32 - n))).
Definition not32 (x : Z) : Z := 2 ^ 32 - 1 - x.

Definition Ch (x y z : Z) : Z := Z.lxor (Z.land x y) (Z.land (not32 x) z).
Definition Maj (x y z : Z) : Z :=
  Z.lxor (Z.lxor (Z.land x y) (Z.land x z)) (Z.land y z).
Definition Sigma0 (x : Z) : Z := Z.lxor (Z.lxor (rotr 2 x) (rotr 13 x)) (rotr 22 x).
Definition Sigma1 (x : Z) : Z := Z.lxor (Z.lxor (rotr 6 x) (rotr 11 x)) (rotr 25 x).
Definition sigma0 (x : Z) : Z := Z.lxor (Z.lxor (rotr 7 x) (rotr 18 x)) (Z.shiftr x 3).
Definition sigma1 (x : Z) : Z := Z.lxor (Z.lxor (rotr 17 x) (rotr 19 x)) (Z.shiftr x 10).

(** The round constants are the first 32 bits of the fractional parts of the
    cube roots of the first 64 primes, and the initial state those of the
    square roots of the first 8. *)
Definition is_prime (n : Z) : bool :=
  (2 <=? n) && forallb (fun d => negb (n mod d =? 0)) (seqZ 2 (n - 2)).

Definition primes : list Z := List.filter is_prime (seqZ 2 310).

Fixpoint cube_root_bits (bits : nat) (n r : Z) : Z :=
  match bits with
  | O => r
  | S b =>
      let c := r + 2 ^ Z.of_nat b in
      if c * c * c <=? n then cube_root_bits b n c else cube_root_bits b n r
  end.

Definition cube_root (n : Z) : Z := cube_root_bits 40 n 0.

Definition K : list Z :=
  Eval vm_compute in map (fun p => w32 (cube_root (p * 2 ^ 96))) primes.

Record state := mkState { sa : Z; sb : Z; sc : Z; sd : Z; se : Z; sf : Z; sg : Z; sh : Z }.

Definition H0 : state :=
  Eval vm_compute in
    match map (fun p => w32 (Z.sqrt (p * 2 ^ 64))) (firstn 8 primes) with
    | [a; b; c; d; e; f; g; h] => mkState a b c d e f g h
    | _ => mkState 0 0 0 0 0 0 0 0
    end.

(** Message padding: a 1 bit, zeros, and the bit length on 64 bits. *)
Definition be_bytes (width : nat) (z : Z) : bytes :=
  map (fun i => byte_of_Z (Z.shiftr z (8 * Z.of_nat (width - 1 - i)))) (seq 0 width).

Definition pad (msg : bytes) : bytes :=
  let len := Z.of_nat (length msg) in
  let zeros := Z.to_nat ((55 - len) mod 64) in
  msg ++ [x80] ++ repeat x00 zeros ++ be_bytes 8 (8 * len).

Fixpoint be_words (b : bytes) : list Z :=
  match b with
  | b0 :: b1 :: b2 :: b3 :: rest =>
      (Z_of_byte b0 * 2 ^ 24 + Z_of_byte b1 * 2 ^ 16 + Z_of_byte b2 * 2 ^ 8 + Z_of_byte b3)
        :: be_words rest
  | _ => []
  end.

(** The message schedule, newest word first: [extend j ws] appends [j]
    words to the sixteen words of the block. *)
Fixpoint extend (j : nat) (ws : list Z) : list Z :=
  match j with
  | O => ws
  | S j' =>
      let w := add32 (add32 (sigma1 (nth 1 ws 0)) (nth 6 ws 0))
                     (add32 (sigma0 (nth 14 ws 0)) (nth 15 ws 0)) in
      extend j' (w :: ws)
  end.

Definition schedule (block : list Z) : list Z := rev (extend 48 (rev block)).

Definition round (s : state) (kw : Z * Z) : state :=
  let '(k, w) := kw in
  let t1 := add32 (add32 (add32 (add32 (sh s) (Sigma1 (se s))) (Ch (se s) (sf s) (sg s))) k) w in
  let t2 := add32 (Sigma0 (sa s)) (Maj (sa s) (sb s) (sc s)) in
  mkState (add32 t1 t2) (sa s) (sb s) (sc s) (add32 (sd s) t1) (se s) (sf s) (sg s).

Definition compress (s : state) (block : list Z) : state :=
  let r := fold_left round (combine K (schedule block)) s in
  mkState (add32 (sa s) (sa r)) (add32 (sb s) (sb r)) (add32 (sc s) (sc r))
          (add32 (sd s) (sd r)) (add32 (se s) (se r)) (add32 (sf s) (sf r))
          (add32 (sg s) (sg r)) (add32 (sh s) (sh r)).

Fixpoint blocks (fuel : nat) (ws : list Z) (s : state) : state :=
  match fuel, ws with
  | S fuel', _ :: _ => blocks fuel' (skipn 16 ws) (compress s (firstn 16 ws))
  | _, _ => s
  end.

Definition digest (msg : bytes) : bytes :=
  let ws := be_words (pad msg) in
  let s := blocks (length ws) ws H0 in
  flat_map (be_bytes 4) [sa s; sb s; sc s; sd s; se s; sf s; sg s; sh s].

End SHA256.

(** [bytes.hex()] and [bytes.fromhex] *)
Module Hex.

Definition digit (n : Z) : ascii :=
  if n <? 10 then ascii_of_nat (Z.to_nat (48 + n)) else ascii_of_nat (Z.to_nat (87 + n)).

Fixpoint hex (b : bytes) : string :=
  match b with
  | [] => EmptyString
  | x :: rest =>
      String (digit (Z_of_byte x / 16)) (String (digit (Z_of_byte x mod 16)) (hex rest))
  end.

(** Value of a hexadecimal digit; [bytes.fromhex] accepts both cases. *)
Definition value (c : ascii) : option Z :=
  let n := Z.of_nat (nat_of_ascii c) in
  if (48 <=? n) && (n <=? 57) then Some (n - 48)
  else if (97 <=? n) && (n <=? 102) then Some (n - 87)
  else if (65 <=? n) && (n <=? 70) then Some (n - 55)
  else None.

(** The ASCII blanks [bytes.fromhex] skips between two bytes. *)
Definition blank (c : ascii) : bool :=
  let n := Z.of_nat (nat_of_ascii c) in ((9 <=? n) && (n <=? 13)) || (n =? 32).

(** [bytes.fromhex]; [None] is its [ValueError]. *)
Fixpoint fromhex (s : string) : option bytes :=
  match s with
  | EmptyString => Some []
  | String c1 rest1 =>
      if blank c1 then fromhex rest1
      else
        match rest1 with
        | EmptyString => None
        | String c2 rest =>
            match value c1, value c2, fromhex rest with
            | Some h, Some l, Some r => Some (byte_of_Z (16 * h + l) :: r)
            | _, _, _ => None
            end
        end
  end.

End Hex.

(** [hashlib.sha256(data).hexdigest()] *)
Definition sha256_hex (data : bytes) : string := Hex.hex (SHA256.digest data).

(** ** [codecs/compression.py] *)

Module Compression.

Section WithCodecs.

(** [zstd.ZstdDecompressor().decompress] and [lzma.decompress]; both
    raise on malformed input. *)
Variable zstd_decompress : bytes -> result bytes.
Variable lzma_decompress : bytes -> result bytes.

(** [decompress_data(data, codec_info)].  [codec_info["codec"]] raises
    [KeyError] when the key is missing; the two comparisons are Python's
    [==] against a string, and the last branch takes every other value. *)
Definition decompress_data (data : bytes) (codec_info : gmap string json) : result bytes :=
  match codec_info !! "codec"%string with
  | None => Raise (KeyError "codec")
  | Some codec =>
      match codec with
      | JStr "zstd" => zstd_decompress data
      | JStr "xz" => lzma_decompress data
      | _ => Ok data
      end
  end.

(** [zstd.ZstdCompressor(level).compress], [lzma.compress(data, preset)] and
    the constant [zstd.ZSTD_VERSION]. *)
Variable zstd_compress : bytes -> Z -> bytes.
Variable lzma_compress : bytes -> Z -> bytes.
Variable ZSTD_VERSION : json.

(** [len(compressed) / len(data) if data else 1.0] *)
Definition ratio (compressed data : bytes) : Q :=
  match data with
  | [] => 1
  | _ => Z.of_nat (length compressed) # Pos.of_nat (length data)
  end.

(** [compress_data(data, codec, level)]: every codec name other than zstd
    and xz stores the data as it is. *)
Definition compress_data (data : bytes) (codec : string) (level : Z)
  : bytes * gmap string json :=
  let '(compressed, info) :=
    if String.eqb codec "zstd"
    then (zstd_compress data level,
          list_to_map [("codec"%string, JStr "zstd"); ("level"%string, JInt level);
                       ("version"%string, ZSTD_VERSION)])
    else if String.eqb codec "xz"
    then (lzma_compress data level,
          list_to_map [("codec"%string, JStr "xz"); ("level"%string, JInt level)])
    else (data, list_to_map [("codec"%string, JStr "none")]) in
  (compressed,
   <["ratio"%string := JFloat (ratio compressed data)]>
     (<["compressed_size"%string := JInt (Z.of_nat (length compressed))]>
        (<["original_size"%string := JInt (Z.of_nat (length data))]> info))).

End WithCodecs.

(** The codec names the module knows. *)
Definition known_codec (c : string) : Prop :=
  c = "zstd"%string \/ c = "xz"%string \/ c = "none"%string.

End Compression.

(** ** [packer.py] *)

Module Packer.

(** One entry of [metadata["files"]]. *)
Record file_info := mkFileInfo { path : string; size : Z; sha256 : string }.

Record metadata := mkMetadata { files : list file_info; total_size : Z }.

(** What [os.walk(folder)] yields, one element per directory in walk order:
    the directory's path relative to [folder] (empty for [folder] itself,
    components joined by a slash) and its [files] in listing order, each with
    the outcome of [filepath.read_bytes()]. *)
Definition listing := list (string * list (string * result bytes)).

Definition magic : bytes := encode_utf8 "CRYSTAL" ++ [x00].
Definition file_marker : bytes := encode_utf8 "FILE" ++ [x00].

(** [sorted(files)]: insertion sort on the file names (the order of the
    bytes of UTF-8 names is the order of their code points). *)
Fixpoint insert_sorted {A} (x : string * A) (l : list (string * A)) : list (string * A) :=
  match l with
  | [] => [x]
  | y :: rest => if String.leb (fst x) (fst y) then x :: l else y :: insert_sorted x rest
  end.

Definition sorted {A} (l : list (string * A)) : list (string * A) :=
  fold_right insert_sorted [] l.

(** [str(filepath.relative_to(folder))] *)
Definition relative_path (root filename : string) : string :=
  match root with
  | EmptyString => filename
  | _ => root ++ "/" ++ filename
  end%string.

(** The files in the order the two nested loops visit them. *)
Definition visited (walk : listing) : list (string * result bytes) :=
  flat_map (fun d => map (fun f => (relative_path (fst d) (fst f), snd f)) (sorted (snd d))) walk.

(** The five [parts.append] of one file, [name] being the encoded path.  A
    [bytes] object is shorter than [2^63], so that [to_bytes(8, "big")] does
    not overflow. *)
Definition packed_record (name data : bytes) : bytes :=
  file_marker ++ name ++ [x00]
    ++ SHA256.be_bytes 8 (Z.of_nat (length data)) ++ data.

(** The record of a file whose path is UTF-8. *)
Definition record (relative_path : string) (data : bytes) : bytes :=
  packed_record (encode_utf8 relative_path) data.

(** The state of the loop: [parts] joined, [metadata], and the paths of the
    warnings printed so far. *)
Record pack_state := mkPack { parts : bytes; meta : metadata; warned : list string }.

(** One iteration of the inner loop: the [except] branch prints a warning and
    continues with the next file; [relative_path.encode("utf-8")] is outside
    the [try], and what it raises ends the function. *)
Definition pack_file (st : pack_state) (f : string * result bytes) : result pack_state :=
  match snd f with
  | Raise _ => Ok (mkPack (parts st) (meta st) (warned st ++ [fst f]))
  | Ok data =>
      let info := mkFileInfo (fst f) (Z.of_nat (length data)) (sha256_hex data) in
      let* name := str_encode (fst f) in
      Ok (mkPack (parts st ++ packed_record name data)
                 (mkMetadata (files (meta st) ++ [info])
                             (total_size (meta st) + Z.of_nat (length data)))
                 (warned st))
  end.

(** [pack_folder_to_bytes(folder)]: [exists] is [folder.exists()]. *)
Definition pack_folder_to_bytes (exists_ : bool) (walk : listing) : result pack_state :=
  if exists_
  then fold_left (fun acc f => let* st := acc in pack_file st f) (visited walk)
                 (Ok (mkPack magic (mkMetadata [] 0) []))
  else Raise (ValueError "Folder does not exist").

(** [blob.find(b"\x00", pos)] on the part of the blob from [pos] on: the
    offset of the first zero byte. *)
Fixpoint find_zero (rest : bytes) : option nat :=
  match rest with
  | [] => None
  | b :: rest' => if Byte.eqb b x00 then Some O else option_map S (find_zero rest')
  end.

(** [int.from_bytes(b, "big")] *)
Definition from_bytes_big (b : bytes) : Z :=
  fold_left (fun acc x => acc * 256 + Z_of_byte x) b 0.

(** The [while] loop of [unpack_bytes_to_folder] on the part of the blob
    that is left: the files it writes, in order.  Every [break] ends the
    loop with what has been written; a file name that does not decode ends
    the function with a [UnicodeDecodeError]. *)
Fixpoint unpack_records (fuel : nat) (rest : bytes) : result (list (string * bytes)) :=
  match fuel with
  | O => Ok []
  | S fuel' =>
      if negb (bool_decide (firstn 5 rest = file_marker)) then Ok []
      else
        let rest := skipn 5 rest in
        match find_zero rest with
        | None => Ok []
        | Some name_end =>
            let* filename := bytes_decode (firstn name_end rest) in
            let rest := skipn (S name_end) rest in
            if (length rest <? 8)%nat then Ok []
            else
              let size := from_bytes_big (firstn 8 rest) in
              let rest := skipn 8 rest in
              if Z.of_nat (length rest) <? size then Ok []
              else
                let* written := unpack_records fuel' (skipn (Z.to_nat size) rest) in
                Ok ((filename, firstn (Z.to_nat size) rest) :: written)
        end
  end.

(** [unpack_bytes_to_folder]: the files written under [output_dir]. *)
Definition unpack_bytes_to_folder (blob : bytes) : result (list (string * bytes)) :=
  if negb (bool_decide (firstn 8 blob = magic)) then Raise (ValueError "Invalid archive format")
  else unpack_records (length blob) (skipn 8 blob).

(** The files of a listing whose read succeeded, with their bytes. *)
Definition readable (fs : list (string * result bytes)) : list (string * bytes) :=
  flat_map (fun f => match snd f with Ok d => [(fst f, d)] | Raise _ => [] end) fs.

Definition unreadable (fs : list (string * result bytes)) : list string :=
  flat_map (fun f => match snd f with Ok _ => [] | Raise _ => [fst f] end) fs.

End Packer.

(** ** [mapping/voxel_map.py] *)

Module VoxelMap.

(** [class VoxelMode(Enum)] with its values. *)
Inductive VoxelMode := MODE_3BIT | MODE_5BIT.

Definition mode_value (m : VoxelMode) : string :=
  match m with MODE_3BIT => "3bit" | MODE_5BIT => "5bit" end.

(** The attributes [__init__] sets.  Angles are degrees and retardances are
    wavelengths; every value the tables hold is a dyadic rational, so the
    floats of the source are exact and are kept as reduced fractions. *)
Record VoxelMapper := mkMapper {
  mode : string;
  bits_per_voxel : Z;
  orientations : Z;
  retardance_levels : Z;
  num_symbols : Z;
  gray_codes : gmap Z Z;
  symbol_table : gmap Z (Q * Q)
}.

(** [_generate_gray_codes] *)
Definition _generate_gray_codes (mode : string) : gmap Z Z :=
  if String.eqb mode "3bit"
  then list_to_map [(0, 0); (1, 1); (2, 3); (3, 2); (4, 6); (5, 7); (6, 5); (7, 4)]
  else foldl (fun gray i => <[i := Z.lxor i (Z.shiftr i 1)]> gray) ∅ (seqZ 0 32).

(** [angles[angle_idx]] and [retardances[retard_idx]] of the two branches of
    [_build_symbol_table]. *)
Definition angles_3bit : list Q := [0#1; 45#1; 90#1; 135#1].
Definition retardances_3bit : list Q := [1#4; 3#4].
Definition angles_5bit : list Q := map (fun i => Qred (inject_Z i * (45#2))) (seqZ 0 8).
Definition retardances_5bit : list Q := [1#4; 1#2; 3#4; 1#1].

Definition table_entry (angles retardances : list Q) (per_row symbol : Z) : Q * Q :=
  (nth (Z.to_nat (symbol mod per_row)) angles (0#1),
   nth (Z.to_nat (symbol / per_row)) retardances (0#1)).

(** [_build_symbol_table]: one [table[symbol] = ...] per iteration. *)
Definition _build_symbol_table (mode : string) : gmap Z (Q * Q) :=
  if String.eqb mode "3bit"
  then foldl (fun table symbol => <[symbol := table_entry angles_3bit retardances_3bit 4 symbol]> table)
             ∅ (seqZ 0 8)
  else foldl (fun table symbol => <[symbol := table_entry angles_5bit retardances_5bit 8 symbol]> table)
             ∅ (seqZ 0 32).

(** [VoxelMapper.__init__(mode)] *)
Definition init (mode : string) : result VoxelMapper :=
  if String.eqb mode "3bit"
  then Ok (mkMapper mode 3 4 2 8 (_generate_gray_codes mode) (_build_symbol_table mode))
  else if String.eqb mode "5bit"
  then Ok (mkMapper mode 5 8 4 32 (_generate_gray_codes mode) (_build_symbol_table mode))
  else Raise (ValueError "Unknown mode").

(** Bits of a numpy [uint8] bit array as integers. *)
Definition bit (b : bool) : Z := if b then 1 else 0.

(** The inner loop of [bits_to_symbols]: [symbol |= bit << (bpv - 1 - j)]. *)
Definition chunk_symbol (bpv : Z) (chunk : list bool) : Z :=
  foldl (fun symbol jb => Z.lor symbol (Z.shiftl (bit (snd jb)) (bpv - 1 - Z.of_nat (fst jb))))
        0 (combine (seq 0 (length chunk)) chunk).

(** [bits_to_symbols]: zero-pad to a multiple of [bits_per_voxel], then one
    symbol per group. *)
Definition bits_to_symbols (m : VoxelMapper) (bits : list bool) : list Z :=
  let bpv := bits_per_voxel m in
  let padding := (bpv - Z.of_nat (length bits) mod bpv) mod bpv in
  let bits := bits ++ repeat false (Z.to_nat padding) in
  map (chunk_symbol bpv) (chunks (length bits) (Z.to_nat bpv) bits).

(** [symbols_to_bits] *)
Definition symbol_bits (bpv symbol : Z) : list bool :=
  map (fun i => Z.testbit symbol (bpv - 1 - i)) (seqZ 0 bpv).

Definition symbols_to_bits (m : VoxelMapper) (symbols : list Z) : list bool :=
  flat_map (symbol_bits (bits_per_voxel m)) symbols.

(** The body of the loop of [symbols_to_voxels]; [self.symbol_table[0]] is a
    dictionary subscript and raises [KeyError] on a table without key 0. *)
Definition voxel_of (m : VoxelMapper) (symbol : Z) : result (Q * Q) :=
  match symbol_table m !! symbol with
  | Some v => Ok v
  | None =>
      match symbol_table m !! 0 with
      | Some v => Ok v
      | None => Raise (KeyError "0")
      end
  end.

Fixpoint voxels_of (m : VoxelMapper) (symbols : list Z) : result (list (Q * Q)) :=
  match symbols with
  | [] => Ok []
  | s :: rest =>
      let* v := voxel_of m s in
      let* vs := voxels_of m rest in
      Ok (v :: vs)
  end.

(** [symbols_to_voxels]: the pair [(angles, retardances)]. *)
Definition symbols_to_voxels (m : VoxelMapper) (symbols : list Z) : result (list Q * list Q) :=
  let* vs := voxels_of m symbols in
  Ok (map fst vs, map snd vs).

(** Neighbourhood of two voxels of the table.  Angles live modulo 180
    degrees; the nearest neighbours of a reference are the references one
    angular step ([180 / orientations]) away at the same retardance, and one
    retardance step ([1 / retardance_levels], or the gap of the 3-bit table)
    away at the same angle. *)
Definition Qabs_diff (a b : Q) : Q := if Qle_bool a b then b - a else a - b.

Definition angle_distance (a b : Q) : Q :=
  let d := Qabs_diff a b in if Qle_bool d (180 - d) then d else 180 - d.

Definition angle_step (m : VoxelMapper) : Q := 180 / inject_Z (orientations m).

Definition retardance_step (m : VoxelMapper) : Q :=
  if String.eqb (mode m) "3bit" then 1#2 else 1#4.

Definition nearest_in_angle (m : VoxelMapper) (s1 s2 : Z) : bool :=
  match symbol_table m !! s1, symbol_table m !! s2 with
  | Some (a1, r1), Some (a2, r2) =>
      Qeq_bool r1 r2 && Qeq_bool (angle_distance a1 a2) (angle_step m)
  | _, _ => false
  end.

Definition nearest_in_retardance (m : VoxelMapper) (s1 s2 : Z) : bool :=
  match symbol_table m !! s1, symbol_table m !! s2 with
  | Some (a1, r1), Some (a2, r2) =>
      Qeq_bool a1 a2 && Qeq_bool (Qabs_diff r1 r2) (retardance_step m)
  | _, _ => false
  end.

(** The symbol whose table entry [symbols_to_voxels] emits for [symbol]:
    itself inside [0, 2^bits_per_voxel), symbol 0 outside. *)
Definition emitted_symbol (m : VoxelMapper) (symbol : Z) : Z :=
  if (0 <=? symbol) && (symbol <? 2 ^ bits_per_voxel m) then symbol else 0.

(** Number of positions at which two bit strings differ. *)
Definition hamming (x y : list bool) : nat :=
  length (filter (fun p => xorb (fst p) (snd p) = true) (combine x y)).

(** [voxels_to_symbols].  The measurements are floats; they are kept as
    rationals, which is exact on the values of the tables (multiples of 22.5
    and of 0.25, so that every difference, the product by 100 and the sum
    are exact in binary floating point), and computed floats are kept
    reduced.  [self.symbol_table.items()] visits the keys in the order
    [_build_symbol_table] inserted them, [0 .. num_symbols - 1]. *)
Definition Qabs_value (x : Q) : Q := if Qle_bool 0 x then x else - x.

Definition Qmin_value (x y : Q) : Q := if Qle_bool x y then x else y.

Definition Qmax_value (x y : Q) : Q := if Qle_bool x y then y else x.

Definition items (m : VoxelMapper) : list (Z * (Q * Q)) :=
  flat_map (fun symbol => match symbol_table m !! symbol with
                          | Some ref => [(symbol, ref)]
                          | None => []
                          end)
           (seqZ 0 (num_symbols m)).

(** [distance] of one iteration of the inner loop. *)
Definition distance (angle retard : Q) (ref : Q * Q) : Q :=
  let angle_diff :=
    Qmin_value (Qmin_value (Qabs_value (angle - fst ref)) (Qabs_value (angle - fst ref + 180)))
               (Qabs_value (angle - fst ref - 180)) in
  let retard_diff := Qabs_value (retard - snd ref) in
  Qred (angle_diff + retard_diff * 100).

(** The inner loop: [best_distance] starts at infinity ([None]) and a
    symbol replaces the best one only when it is strictly closer. *)
Definition closest (m : VoxelMapper) (angle retard : Q) : Z * option Q :=
  foldl (fun best item =>
           let d := distance angle retard (snd item) in
           match snd best with
           | None => (fst item, Some d)
           | Some best_distance =>
               if negb (Qle_bool best_distance d) then (fst item, Some d) else best
           end)
        (0, None) (items m).

(** [reliabilities[i]] of one voxel: [1.0] unless [soft_output]; with an
    infinite distance (an empty table) [max(0.1, 1.0 - inf)] is [0.1]. *)
Definition reliability (soft_output : bool) (best_distance : option Q) : Q :=
  if soft_output
  then match best_distance with
       | Some d => Qmax_value (1 # 10) (Qred (1 - d / 50))
       | None => 1 # 10
       end
  else 1 # 1.

(** The outer loop over [zip(angles, retardances)]: the arrays have the
    length of [angles], and the entries past the end of [retardances] keep
    their initial values 0 and 1.0. *)
Fixpoint voxels_to_symbols (m : VoxelMapper) (angles retardances : list Q)
    (soft_output : bool) : list (Z * Q) :=
  match angles, retardances with
  | [], _ => []
  | _ :: angles', [] => (0, 1 # 1) :: voxels_to_symbols m angles' [] soft_output
  | angle :: angles', retard :: retardances' =>
      let best := closest m angle retard in
      (fst best, reliability soft_output (snd best))
        :: voxels_to_symbols m angles' retardances' soft_output
  end.

End VoxelMap.

(** ** [codecs/interleave.py] *)

Module Interleave.

(** [data[index]] with an integer index array: [IndexError] out of range. *)
Fixpoint take_indices {A} (data : list A) (index : list nat) : result (list A) :=
  match index with
  | [] => Ok []
  | i :: rest =>
      match data !! i with
      | None => Raise IndexError
      | Some x => let* xs := take_indices data rest in Ok (x :: xs)
      end
  end.

Section WithGenerator.

(** [numpy.random.Generator]: the state behind [default_rng(seed)] for a
    seed numpy accepts, and [rng.permutation(n)], which returns the
    permutation drawn and leaves the generator in its next state. *)
Variable generator : Type.
Variable default_rng : Z -> generator.
Variable permutation : generator -> nat -> list nat * generator.

Record Interleaver := mkInterleaver { span : Z; depth : Z; seed : Z; rng : generator }.

(** [np.random.default_rng(seed)] on an integer: numpy's [SeedSequence]
    refuses a negative seed with a [ValueError]. *)
Definition seeded_rng (seed : Z) : result generator :=
  if seed <? 0 then Raise (ValueError "expected non-negative integer")
  else Ok (default_rng seed).

(** [Interleaver.__init__] *)
Definition init (span depth seed : Z) : result Interleaver :=
  let* rng := seeded_rng seed in
  Ok (mkInterleaver span depth seed rng).

(** [block_interleave]: the result and the interleaver after the call (its
    generator has advanced). *)
Definition block_interleave {A} (il : Interleaver) (data : list A)
  : result (list A * list nat) * Interleaver :=
  let '(perm, rng') := permutation (rng il) (length data) in
  (let* interleaved := take_indices data perm in Ok (interleaved, perm),
   mkInterleaver (span il) (depth il) (seed il) rng').

(** [block_deinterleave]: [inv_perm[perm] = arange(len(perm))] writes slot
    [perm[i]] with [i]; [np.empty_like] leaves the other slots arbitrary (zero
    here). *)
Definition inverse_permutation (perm : list nat) : list nat :=
  foldl (fun inv ip => <[snd ip := fst ip]> inv) (repeat O (length perm))
        (combine (seq 0 (length perm)) perm).

Definition block_deinterleave {A} (il : Interleaver) (data : list A) (perm : list nat)
  : result (list A) :=
  take_indices data (inverse_permutation perm).

(** Lines 263-264 of [decode_archive]: the permutation the decoder draws,
    once [Interleaver(...)] on line 256 has accepted the seed. *)
Definition regenerated_permutation (seed : Z) (n : nat) : list nat :=
  fst (permutation (default_rng seed) n).

End WithGenerator.

(** [np.roll(row, shift)] on a one-dimensional array: the element at [i]
    moves to [(i + shift) mod len(row)]. *)
Definition roll {A} (shift : Z) (row : list A) : list A :=
  match length row with
  | O => row
  | S _ =>
      let s := Z.to_nat (shift mod Z.of_nat (length row)) in
      drop (length row - s) row ++ take (length row - s) row
  end.

(** [convolutional_interleave(data)] for [self.depth = rows >= 0]; [zero] is
    the zero of the array's dtype.  The integer division by a zero depth
    raises.  Row [i] of [padded.reshape(rows, cols)] is the slice
    [padded[i * cols : (i + 1) * cols]]. *)
Definition convolutional_interleave {A} (rows : nat) (zero : A) (data : list A)
  : result (list A) :=
  match rows with
  | O => Raise ZeroDivisionError
  | S _ =>
      let n := length data in
      let cols := ((n + rows - 1) / rows)%nat in
      let padded := data ++ repeat zero (rows * cols - n) in
      let interleaved :=
        map (fun i => roll (Z.of_nat i * Z.of_nat (cols / rows))
                           (take cols (drop (i * cols) padded)))
            (seq 0 rows) in
      Ok (take n (concat interleaved))
  end.

(** [convolutional_deinterleave(data)] for [self.depth = rows >= 0].  Row
    [i] of [padded.reshape(-1, rows).T] holds the elements
    [padded[j * rows + i]], and [matrix.T.flatten()] reads the rolled rows
    column by column. *)
Definition convolutional_deinterleave {A} (rows : nat) (zero : A) (data : list A)
  : result (list A) :=
  match rows with
  | O => Raise ZeroDivisionError
  | S _ =>
      let n := length data in
      let cols := ((n + rows - 1) / rows)%nat in
      let padded := data ++ repeat zero (rows * cols - n) in
      let deinterleaved :=
        map (fun i => roll (- (Z.of_nat i * Z.of_nat (cols / rows)))
                           (map (fun j => nth (j * rows + i) padded zero) (seq 0 cols)))
            (seq 0 rows) in
      Ok (take n (flat_map (fun j => map (fun row => nth j row zero) deinterleaved)
                           (seq 0 cols)))
  end.

End Interleave.

(** ** [archive/manifest.py] *)

Module ManifestFile.

Definition VERSION : string := "1.0.0".

(** [_get_instructions] *)
Definition _get_instructions : string := "
Crystal Archive Decoding Instructions
======================================

1. Optical Calibration
   - Use primer targets for focus lock
   - Calibrate polarization angle to 0Â°
   - Set gain using referee pages

2. Symbol Decoding
   - Read voxel orientation (angle) and retardance
   - Use Gray code tables in manifest
   - Apply soft-decision thresholds if available

3. Error Correction
   - Deinterleave using seed from manifest
   - Apply LDPC soft-decision decoding
   - Use Reed-Solomon for erasure recovery

4. Data Recovery
   - Verify Merkle root
   - Decompress using specified codec
   - Verify file SHA-256 hashes

See full specification in docs/SPEC.md
".

(** A [Manifest] object: its [data] attribute.  [__init__] makes it a
    dictionary, [load] stores whatever the file parsed to. *)
Record Manifest := mkManifest { data : json }.

(** [Manifest.__init__]; [created] is [datetime.utcnow().isoformat()]. *)
Definition init (created : string) : Manifest :=
  mkManifest (JObj (list_to_map
    [("version"%string, JStr VERSION);
     ("created"%string, JStr created);
     ("profile"%string, JNull);
     ("encoding"%string, JObj ∅);
     ("integrity"%string, JObj ∅);
     ("files"%string, JArr []);
     ("instructions"%string, JStr _get_instructions)])).

(** [self.data[outer][inner] = value]: [KeyError] without [outer],
    [TypeError] when [self.data] or [self.data[outer]] takes no string key. *)
Definition set_nested (outer inner : string) (value : json) (m : Manifest) : result Manifest :=
  match data m with
  | JObj d =>
      match d !! outer with
      | None => Raise (KeyError outer)
      | Some (JObj o) => Ok (mkManifest (JObj (<[outer := JObj (<[inner := value]> o)]> d)))
      | Some _ => Raise TypeError
      end
  | _ => Raise TypeError
  end.

(** [self.data[key] = value] *)
Definition set_item (key : string) (value : json) (m : Manifest) : result Manifest :=
  match data m with
  | JObj d => Ok (mkManifest (JObj (<[key := value]> d)))
  | _ => Raise TypeError
  end.

(** [set_profile] *)
Definition set_profile (profile : string) (params : json) (m : Manifest) : result Manifest :=
  let* m := set_item "profile" (JStr profile) m in
  set_nested "encoding" "profile_params" params m.

(** [set_compression] *)
Definition set_compression (codec : string) (info : json) (m : Manifest) : result Manifest :=
  set_nested "encoding" "compression"
    (JObj (list_to_map [("codec"%string, JStr codec); ("info"%string, info)])) m.

(** [set_interleaving] *)
Definition set_interleaving (seed span depth : Z) (m : Manifest) : result Manifest :=
  set_nested "encoding" "interleaving"
    (JObj (list_to_map [("seed"%string, JInt seed); ("span"%string, JInt span);
                        ("depth"%string, JInt depth)])) m.

(** [add_file]: [self.data["files"].append(...)] *)
Definition add_file (path : string) (size : Z) (sha256 : string) (m : Manifest) : result Manifest :=
  match data m with
  | JObj d =>
      match d !! "files"%string with
      | None => Raise (KeyError "files")
      | Some (JArr fs) =>
          let entry := JObj (list_to_map [("path"%string, JStr path); ("size"%string, JInt size);
                                          ("sha256"%string, JStr sha256)]) in
          Ok (mkManifest (JObj (<["files"%string := JArr (fs ++ [entry])]> d)))
      | Some _ => Raise AttributeError
      end
  | _ => Raise TypeError
  end.

(** [set_ecc_params] *)
Definition set_ecc_params (ldpc_params rs_params : json) (m : Manifest) : result Manifest :=
  set_nested "encoding" "ecc"
    (JObj (list_to_map [("ldpc"%string, ldpc_params); ("reed_solomon"%string, rs_params)])) m.

(** [params.get(key)] and [params.get(key, default)] *)
Definition get_or (key : string) (default : json) (params : gmap string json) : json :=
  match params !! key with Some v => v | None => default end.

(** [set_voxel_mapping] *)
Definition set_voxel_mapping (mode : string) (params : gmap string json) (m : Manifest)
  : result Manifest :=
  set_nested "encoding" "voxel"
    (JObj (list_to_map
       [("mode"%string, JStr mode);
        ("bits_per_voxel"%string, get_or "bits_per_voxel" JNull params);
        ("orientations"%string, get_or "orientations" JNull params);
        ("retardance_levels"%string, get_or "retardance_levels" JNull params);
        ("gray_codes"%string, get_or "gray_codes" (JObj ∅) params)])) m.

(** [set_geometry] *)
Definition set_geometry (tiles_x tiles_y planes : Z) (m : Manifest) : result Manifest :=
  set_item "geometry"
    (JObj (list_to_map
       [("tiles_x"%string, JInt tiles_x); ("tiles_y"%string, JInt tiles_y);
        ("planes"%string, JInt planes);
        ("total_tiles"%string, JInt (tiles_x * tiles_y * planes))])) m.

(** [set_merkle_root] *)
Definition set_merkle_root (root : string) (m : Manifest) : result Manifest :=
  set_nested "integrity" "merkle_root" (JStr root) m.

(** [set_signature] *)
Definition set_signature (public_key signature : string) (m : Manifest) : result Manifest :=
  set_nested "integrity" "signature"
    (JObj (list_to_map [("algorithm"%string, JStr "Ed25519");
                        ("public_key"%string, JStr public_key);
                        ("signature"%string, JStr signature)])) m.

Section WithJson.

(** The [json] module and the manifest file: [text] is what the file holds,
    [json_dump] what [json.dump(data, f, indent=2)] writes, [json_load] what
    [json.load(f)] returns (or its [JSONDecodeError]), and [json_dumps_sorted]
    is [json.dumps(data, sort_keys=True)]. *)
Variable text : Type.
Variable json_dump : json -> text.
Variable json_load : text -> result json.
Variable json_dumps_sorted : json -> string.

(** [compute_hash]: a shallow copy without the [integrity] key, serialised
    with sorted keys and hashed.  A list has [copy] but a one-argument
    [pop]; other values have no [copy]. *)
Definition compute_hash (m : Manifest) : result string :=
  match data m with
  | JObj d => Ok (sha256_hex (encode_utf8 (json_dumps_sorted (JObj (delete "integrity"%string d)))))
  | JArr _ => Raise TypeError
  | _ => Raise AttributeError
  end.

(** [save]: the manifest after the call (its [integrity] block has gained
    [manifest_hash]) and the text written to the file. *)
Definition save (m : Manifest) : result (Manifest * text) :=
  let* h := compute_hash m in
  let* m' := set_nested "integrity" "manifest_hash" (JStr h) m in
  Ok (m', json_dump (data m')).

(** [data.get("integrity", {}).get("manifest_hash")] *)
Definition stored_manifest_hash (data : json) : result (option json) :=
  match data with
  | JObj d =>
      match d !! "integrity"%string with
      | None => Ok None
      | Some (JObj integrity) => Ok (integrity !! "manifest_hash"%string)
      | Some _ => Raise AttributeError
      end
  | _ => Raise AttributeError
  end.

(** [stored_hash != computed_hash], the right-hand side being a [str]. *)
Definition differs (stored : json) (computed : string) : bool :=
  match stored with
  | JStr s => negb (String.eqb s computed)
  | _ => true
  end.

(** [Manifest.load] on the content of the file. *)
Definition load (file : text) : result Manifest :=
  let* data := json_load file in
  let manifest := mkManifest data in
  let* stored_hash := stored_manifest_hash data in
  match stored_hash with
  | None => Ok manifest
  | Some stored_hash =>
      if truthy stored_hash
      then
        let* computed_hash := compute_hash manifest in
        if differs stored_hash computed_hash
        then Raise (ValueError "Manifest integrity check failed")
        else Ok manifest
      else Ok manifest
  end.

End WithJson.

(** The hash [compute_hash] returns on a manifest whose [data] is the
    dictionary [d]. *)
Definition hash_without_integrity (json_dumps_sorted : json -> string)
    (d : gmap string json) : string :=
  sha256_hex (encode_utf8 (json_dumps_sorted (JObj (delete "integrity"%string d)))).

(** The [data] of a saved manifest, given the dictionary before the save,
    its [integrity] block and the hash. *)
Definition with_manifest_hash (d integrity : gmap string json) (h : string) : gmap string json :=
  <["integrity"%string := JObj (<["manifest_hash"%string := JStr h]> integrity)]> d.

(** A document store for examples: the file holds the JSON document itself,
    and the canonical serialisation of these small manifests is their
    [profile] string. *)
Definition example_dumps_sorted (v : json) : string :=
  match v with
  | JObj m => match m !! "profile"%string with Some (JStr p) => p | _ => EmptyString end
  | _ => EmptyString
  end.

Definition example_data : gmap string json :=
  list_to_map [("version"%string, JStr VERSION); ("profile"%string, JStr "A");
               ("integrity"%string, JObj ∅); ("files"%string, JArr [])].



Definition example_no_hash : gmap string json :=
  <["integrity"%string := JObj {[ "merkle_root"%string := JStr "00" ]}]> example_data.

End ManifestFile.

(** ** [codecs/hashing.py] *)

Module Merkle.

(** [_hash] *)
Definition _hash (data : bytes) : bytes := SHA256.digest data.

(** The attributes of a [MerkleTree].  [fanout] is a number of children, a
    natural. *)
Record MerkleTree := mkTree {
  leaves : list bytes;
  fanout : nat;
  tree : list (list bytes);
  root : bytes
}.

(** The [for] loop inside the [while] of [_build_tree]; [range] refuses a
    zero step. *)
Definition next_level (fanout : nat) (current_level : list bytes) : result (list bytes) :=
  match fanout with
  | O => Raise (ValueError "range() arg 3 must not be zero")
  | S _ =>
      Ok (map (fun group => _hash (concat group))
              (chunks (length current_level) fanout current_level))
  end.

(** The [while len(current_level) > 1] loop: the levels it appends.  [None]
    means the fuel ran out (with fanout 1 the loop never ends). *)
Fixpoint build_levels (fuel fanout : nat) (current_level : list bytes)
  : option (result (list (list bytes))) :=
  if (length current_level <=? 1)%nat then Some (Ok [])
  else
    match fuel with
    | O => None
    | S fuel' =>
        match next_level fanout current_level with
        | Raise e => Some (Raise e)
        | Ok next =>
            match build_levels fuel' fanout next with
            | Some (Ok rest) => Some (Ok (next :: rest))
            | other => other
            end
        end
    end.

(** [_build_tree] *)
Definition _build_tree (fuel : nat) (leaves : list bytes) (fanout : nat)
  : option (result (list (list bytes))) :=
  match leaves with
  | [] => Some (Ok [])
  | _ =>
      let current_level := map _hash leaves in
      match build_levels fuel fanout current_level with
      | Some (Ok rest) => Some (Ok (current_level :: rest))
      | other => other
      end
  end.

(** [MerkleTree.__init__]: [self.tree[-1][0] if self.tree else b""]. *)
Definition init (fuel : nat) (leaves : list bytes) (fanout : nat)
  : option (result MerkleTree) :=
  match _build_tree fuel leaves fanout with
  | None => None
  | Some (Raise e) => Some (Raise e)
  | Some (Ok tree) =>
      match last tree with
      | None => Some (Ok (mkTree leaves fanout tree []))
      | Some [] => Some (Raise IndexError)
      | Some (h :: _) => Some (Ok (mkTree leaves fanout tree h))
      end
  end.

(** [level[i]]: a negative index counts from the end. *)
Definition getitem {A} (level : list A) (i : Z) : result A :=
  let j := if i <? 0 then Z.of_nat (length level) + i else i in
  if j <? 0 then Raise IndexError
  else
    match level !! Z.to_nat j with
    | Some x => Ok x
    | None => Raise IndexError
    end.

(** The inner loop of [get_proof] over the indices [i] of one level. *)
Fixpoint level_proof_from (level : list bytes) (current_index : Z) (indices : list Z)
  : result (list string) :=
  match indices with
  | [] => Ok []
  | i :: later =>
      if i =? current_index then level_proof_from level current_index later
      else
        let* h := getitem level i in
        let* rest := level_proof_from level current_index later in
        Ok (Hex.hex h :: rest)
  end.

(** One level of [get_proof]: [i] goes over
    [range(group_start, min(group_start + fanout, len(level)))]; the index
    is an integer, and [//] rounds down. *)
Definition level_proof (fanout : nat) (level : list bytes) (current_index : Z)
  : result (list string) :=
  let group_start := current_index / Z.of_nat fanout * Z.of_nat fanout in
  let stop := Z.min (group_start + Z.of_nat fanout) (Z.of_nat (length level)) in
  level_proof_from level current_index
    (map (fun d => group_start + Z.of_nat d) (seq 0 (Z.to_nat (stop - group_start)))).

Fixpoint path_proof (fanout : nat) (levels : list (list bytes)) (current_index : Z)
  : result (list string) :=
  match levels with
  | [] => Ok []
  | level :: rest =>
      let* here := level_proof fanout level current_index in
      let* above := path_proof fanout rest (current_index / Z.of_nat fanout) in
      Ok (here ++ above)
  end.

(** [get_proof]: the only guard is [index >= len(self.leaves)], which a
    negative index passes; the integer division by a zero fanout raises at
    the first level visited. *)
Definition get_proof (t : MerkleTree) (index : Z) : result (list string) :=
  if Z.of_nat (length (leaves t)) <=? index then Raise (ValueError "Index out of range")
  else
    match fanout t, removelast (tree t) with
    | O, _ :: _ => Raise ZeroDivisionError
    | _, levels => path_proof (fanout t) levels index
    end.

(** What [get_proof] collects for a natural index: one level, and the
    levels of a path. *)
Definition siblings (fanout : nat) (level : list bytes) (current_index : nat) : list string :=
  let group_start := (current_index / fanout * fanout)%nat in
  flat_map (fun i => if (i =? current_index)%nat then []
                     else match level !! i with Some h => [Hex.hex h] | None => [] end)
           (seq group_start (Nat.min (group_start + fanout) (length level) - group_start)).

Fixpoint proof_levels (fanout : nat) (levels : list (list bytes)) (current_index : nat)
  : list string :=
  match levels with
  | [] => []
  | level :: rest =>
      siblings fanout level current_index ++ proof_levels fanout rest (current_index / fanout)
  end.

(** The inner loop of [verify_proof] over [i in range(fanout)]: it ends
    normally with the group and the unread part of the proof, returns
    [False] on an exhausted proof, or fails in [bytes.fromhex]. *)
Inductive group_outcome :=
| Group (group_hashes : list bytes) (rest : list string)
| ReturnFalse
| Failed (e : exn).

Fixpoint rebuild_group (positions : list nat) (group_start level_len position_in_group : nat)
    (current_hash : bytes) (group_hashes : list bytes) (proof : list string) : group_outcome :=
  match positions with
  | [] => Group group_hashes proof
  | i :: later =>
      if (level_len <=? group_start + i)%nat then Group group_hashes proof
      else if (i =? position_in_group)%nat
      then rebuild_group later group_start level_len position_in_group current_hash
             (group_hashes ++ [current_hash]) proof
      else
        match proof with
        | [] => ReturnFalse
        | p :: proof' =>
            match Hex.fromhex p with
            | None => Failed (ValueError "non-hexadecimal number found in fromhex() arg")
            | Some h =>
                rebuild_group later group_start level_len position_in_group current_hash
                  (group_hashes ++ [h]) proof'
            end
        end
  end.

(** The outer loop of [verify_proof] over the levels below the root; it
    reads only the length of each level.  [Ok None] is an early
    [return False]. *)
Fixpoint verify_levels (fanout : nat) (levels : list (list bytes)) (current_hash : bytes)
    (current_index : nat) (proof : list string) : result (option bytes) :=
  match levels with
  | [] => Ok (Some current_hash)
  | level :: rest =>
      match rebuild_group (seq 0 fanout) (current_index / fanout * fanout) (length level)
              (current_index mod fanout) current_hash [] proof with
      | Group group_hashes proof' =>
          verify_levels fanout rest (_hash (concat group_hashes)) (current_index / fanout) proof'
      | ReturnFalse => Ok None
      | Failed e => Raise e
      end
  end.

(** [verify_proof] *)
Definition verify_proof (t : MerkleTree) (leaf : bytes) (index : nat) (proof : list string)
  : result bool :=
  match fanout t, removelast (tree t) with
  | O, _ :: _ => Raise ZeroDivisionError
  | _, levels =>
      match verify_levels (fanout t) levels (_hash leaf) index proof with
      | Ok (Some current_hash) => Ok (bool_decide (current_hash = root t))
      | Ok None => Ok false
      | Raise e => Raise e
      end
  end.

(** The shape [_build_tree] gives [self.tree = l :: uppers]: every level but
    the last has more than one node and is followed by its [next_level]; the
    last level has one node. *)
Fixpoint linked (fanout : nat) (l : list bytes) (uppers : list (list bytes)) : Prop :=
  match uppers with
  | [] => length l = 1%nat
  | u :: us => (1 < length l)%nat /\ next_level fanout l = Ok u /\ linked fanout u us
  end.

(** Two lists that differ at exactly one position. *)
Definition differ_at (X Y : list bytes) : Prop :=
  exists pre a b suf, X = pre ++ a :: suf /\ Y = pre ++ b :: suf /\ a <> b.

(** A three-leaf tree for examples. *)
Definition example_leaves : list bytes := map encode_utf8 ["a"; "b"; "c"]%string.

Definition example_tree : MerkleTree :=
  match init 3 example_leaves 2 with
  | Some (Ok t) => t
  | _ => mkTree [] 0 [] []
  end.

Definition example_proof : list string :=
  match get_proof example_tree 1 with
  | Ok proof => proof
  | Raise _ => []
  end.

(** The byte strings a run of [verify_proof] hashes, in order: the leaf
    (line 81), then the joined group of every level (line 103), up to an
    early [return] or an error. *)
Fixpoint hashed_levels (fanout : nat) (levels : list (list bytes)) (current_hash : bytes)
    (current_index : nat) (proof : list string) : list bytes :=
  match levels with
  | [] => []
  | level :: rest =>
      match rebuild_group (seq 0 fanout) (current_index / fanout * fanout) (length level)
              (current_index mod fanout) current_hash [] proof with
      | Group group_hashes proof' =>
          concat group_hashes
            :: hashed_levels fanout rest (_hash (concat group_hashes)) (current_index / fanout)
                 proof'
      | _ => []
      end
  end.

Definition hashed (t : MerkleTree) (leaf : bytes) (index : nat) (proof : list string)
  : list bytes :=
  leaf :: hashed_levels (fanout t) (removelast (tree t)) (_hash leaf) index proof.

(** Two different byte strings with one SHA-256 digest. *)
Definition collision (x y : bytes) : bool :=
  negb (bool_decide (x = y)) && bool_decide (_hash x = _hash y).

(** Two runs of [verify_proof] collide when, at one and the same step, they
    hash different byte strings to one digest. *)
Definition run_collides (run1 run2 : list bytes) : bool :=
  existsb (fun step => collision (fst step) (snd step)) (combine run1 run2).

End Merkle.

(** ** [codecs/ecc_ldpc.py] *)

Module LDPC.

#[local] Open Scope nat_scope.

(** Number of ones of a bit vector, and the integer dot product of two bit
    vectors ([np.sum(x * y)]).  The [uint8] products of [H @ codeword] wrap
    modulo 256, which keeps the parity that [% 2] reads. *)
Fixpoint weight (x : list bool) : nat :=
  match x with
  | [] => 0
  | b :: rest => (if b then 1 else 0) + weight rest
  end.

Definition dot (x y : list bool) : nat := weight (zip_with andb x y).

(** [H[:, i]] of a matrix kept as its list of rows. *)
Definition column (H : list (list bool)) (i : nat) : list bool :=
  map (fun row => nth i row false) H.

(** [(H @ codeword) % 2] *)
Definition syndrome (H : list (list bool)) (codeword : list bool) : list bool :=
  map (fun row => Nat.odd (dot row codeword)) H.

(** [np.argmax]: the first index of the largest entry; [None] on an empty
    array, where numpy raises. *)
Fixpoint argmax_from (i best_i best : nat) (l : list nat) : nat :=
  match l with
  | [] => best_i
  | x :: rest =>
      if best <? x then argmax_from (S i) i x rest else argmax_from (S i) best_i best rest
  end.

Definition argmax (l : list nat) : option nat :=
  match l with
  | [] => None
  | x :: rest => Some (argmax_from 1 0 x rest)
  end.

(** [codeword[flip_idx] ^= 1] *)
Definition flip (j : nat) (codeword : list bool) : list bool := alter negb j codeword.

Record SimpleLDPC := mkLDPC { n : nat; k : nat; m : nat; H : list (list bool) }.

Section WithSampler.

(** The legacy numpy generator behind [np.random.seed] and
    [np.random.choice(m, size, replace=False)]: a state, and a draw that
    returns the indices and the next state, or raises when [size] exceeds
    [m]. *)
Variable random_state : Type.
Variable seed : Z -> random_state.
Variable choice : random_state -> nat -> nat -> result (list nat * random_state).

(** The loop of [_generate_parity_matrix]: the index sets of columns
    [0 .. n-1], drawn one after the other. *)
Fixpoint draw_columns (cols : nat) (m : nat) (st : random_state) : result (list (list nat)) :=
  match cols with
  | O => Ok []
  | S cols' =>
      let* drawn := choice st m 3 in
      let* rest := draw_columns cols' m (snd drawn) in
      Ok (fst drawn :: rest)
  end.

(** [_generate_parity_matrix]: [row_weight = self.n * col_weight // self.m]
    divides by [m] before the first draw (and nothing reads [row_weight]);
    then [H[indices, i] = 1] on a zero matrix. *)
Definition _generate_parity_matrix (n m : nat) : result (list (list bool)) :=
  match m with
  | O => Raise ZeroDivisionError
  | S _ =>
      let* columns := draw_columns n m (seed 42) in
      Ok (map (fun r => map (fun indices => bool_decide (r ∈ indices)) columns) (seq 0 m))
  end.

(** [SimpleLDPC.__init__(n, k)]: [np.zeros((n - k, n))] refuses a negative
    dimension.  [self.G] is drawn after [H] and no method reads it. *)
Definition init (n k : nat) : result SimpleLDPC :=
  if n <? k then Raise (ValueError "negative dimensions are not allowed")
  else
    let* H := _generate_parity_matrix n (n - k) in
    Ok (mkLDPC n k (n - k) H).

End WithSampler.

(** [encode] *)
Definition encode (c : SimpleLDPC) (data_bits : list bool) : result (list bool) :=
  if negb (length data_bits =? k c) then Raise (ValueError "Expected k bits")
  else
    let parity := map (fun row => Nat.odd (dot data_bits (take (k c) row))) (H c) in
    Ok (data_bits ++ parity).

(** One round of the loop of [decode_hard] on a word with a non-zero
    syndrome: the word after the flip. *)
Definition flip_step (c : SimpleLDPC) (syn : list bool) (codeword : list bool)
  : result (list bool) :=
  let unsatisfied := map (fun i => dot (column (H c) i) syn) (seq 0 (n c)) in
  match argmax unsatisfied with
  | None => Raise (ValueError "attempt to get argmax of an empty sequence")
  | Some flip_idx =>
      if 0 <? nth flip_idx unsatisfied 0 then Ok (flip flip_idx codeword) else Ok codeword
  end.

Fixpoint decode_loop (c : SimpleLDPC) (max_iter : nat) (codeword : list bool)
  : result (list bool * bool) :=
  match max_iter with
  | O => Ok (take (k c) codeword, false)
  | S iterations =>
      let syn := syndrome (H c) codeword in
      if Nat.eqb (weight syn) 0 then Ok (take (k c) codeword, true)
      else
        let* codeword' := flip_step c syn codeword in
        decode_loop c iterations codeword'
  end.

(** [decode_hard]; [H @ codeword] needs a word of [n] bits. *)
Definition decode_hard (c : SimpleLDPC) (received : list bool) (max_iter : nat)
  : result (list bool * bool) :=
  match max_iter with
  | O => Ok (take (k c) received, false)
  | S _ =>
      if negb (length received =? n c) then Raise (ValueError "matmul: dimension mismatch")
      else decode_loop c max_iter received
  end.

(** What [np.random.choice(m, size, replace=False)] promises: [size]
    different indices below [m] when [size <= m], and a [ValueError]
    otherwise. *)
Definition sampler_contract {random_state : Type}
    (choice : random_state -> nat -> nat -> result (list nat * random_state)) : Prop :=
  forall st m size,
    if size <=? m
    then exists indices st', choice st m size = Ok (indices, st')
                             /\ NoDup indices /\ length indices = size
                             /\ Forall (fun r => r < m) indices
    else exists e, choice st m size = Raise e.

(** A sampler for examples: the state counts the draws and draw number [st]
    takes the indices [st, st+1, ...] modulo [m]. *)
Definition rotating_choice (st m size : nat) : result (list nat * nat) :=
  if m <? size then Raise (ValueError "Cannot take a larger sample than population")
  else Ok (map (fun t => (st + t) mod m) (seq 0 size), S st).

(** A second sampler for examples: every draw takes the first [size]
    indices. *)
Definition first_choice (st : unit) (m size : nat) : result (list nat * unit) :=
  if m <? size then Raise (ValueError "Cannot take a larger sample than population")
  else Ok (seq 0 size, st).

(** The (7, 3) codec the rotating sampler gives, for examples. *)
Definition example_codec : SimpleLDPC :=
  match init nat Z.to_nat rotating_choice 7 3 with
  | Ok c => c
  | Raise _ => mkLDPC 0 0 0 []
  end.

End LDPC.

(** ** [codecs/ecc_rs.py] *)

Module ReedSolomon.

Record ReedSolomonCodec := mkRS { n : nat; k : nat; nsym : nat }.

(** [ReedSolomonCodec.__init__]; the pipeline uses the defaults. *)
Definition init (n k : nat) : ReedSolomonCodec := mkRS n k (n - k).

Definition default : ReedSolomonCodec := init 255 223.

(** [parity[k] ^= shard[k]] over a shard *)
Definition xor_bytes (parity shard : bytes) : bytes :=
  zip_with (fun p x => byte_of_Z (Z.lxor (Z_of_byte p) (Z_of_byte x))) parity shard.

(** [int(num_data_shards * (self.n / self.k - 1))]: the quotient, the
    difference and the product are floats; the division raises on [k = 0]. *)
Definition parity_shard_count (c : ReedSolomonCodec) (num_data_shards : Z) : result Z :=
  let* ratio := int_true_divide (Z.of_nat (n c)) (Z.of_nat (k c)) in
  let* one := float_of_int 1 in
  let* shards := float_of_int num_data_shards in
  int_of_float (SFmul 53 1024 shards (SFsub 53 1024 ratio one)).

(** [create_shards]: the integer division by [shard_size] raises on zero;
    the data shards are the slices of [shard_size] bytes, the last one
    zero-padded; every parity shard is the XOR of the data shards, and a
    negative count gives none. *)
Definition create_shards (c : ReedSolomonCodec) (data : bytes) (shard_size : nat)
  : result (list bytes) :=
  match shard_size with
  | O => Raise ZeroDivisionError
  | S _ =>
      let num_data_shards := Z.of_nat ((length data + shard_size - 1) / shard_size) in
      let* num_parity_shards := parity_shard_count c num_data_shards in
      let data_shards :=
        map (fun shard => shard ++ repeat x00 (shard_size - length shard))
            (chunks (length data) shard_size data) in
      let parity := fold_left xor_bytes data_shards (repeat x00 shard_size) in
      Ok (data_shards ++ repeat parity (Z.to_nat num_parity_shards))
  end.

Section WithReedsolo.

(** [reedsolo.RSCodec(nsym).decode(chunk)[0]] without erasure positions;
    [None] is its [ReedSolomonError]. *)
Variable rs_decode : nat -> bytes -> option bytes.

Fixpoint decode_chunks (nsym : nat) (chunks : list bytes) : option bytes :=
  match chunks with
  | [] => Some []
  | chunk :: rest =>
      match rs_decode nsym chunk with
      | None => None
      | Some decoded =>
          match decode_chunks nsym rest with
          | None => None
          | Some tail => Some (decoded ++ tail)
          end
      end
  end.

(** [decode(encoded_data)] with [errors_pos=None]: [None] when a chunk
    cannot be corrected. *)
Definition decode (c : ReedSolomonCodec) (encoded_data : bytes) : option bytes :=
  decode_chunks (nsym c) (chunks (length encoded_data) (n c) encoded_data).

End WithReedsolo.

Section WithReedsoloEncoder.

(** [reedsolo.RSCodec(nsym).encode(chunk)] *)
Variable rs_encode : nat -> bytes -> bytes.

(** [encode(data)]: the slices of [k] bytes, the last one zero-padded, each
    encoded; [range] refuses a zero step. *)
Definition encode (c : ReedSolomonCodec) (data : bytes) : result bytes :=
  match k c with
  | O => Raise (ValueError "range() arg 3 must not be zero")
  | S _ =>
      Ok (concat (map (fun chunk => rs_encode (nsym c) (chunk ++ repeat x00 (k c - length chunk)))
                      (chunks (length data) (k c) data)))
  end.

End WithReedsoloEncoder.

End ReedSolomon.

(** ** [archive/pipeline.py] *)

Module Pipeline.

Record profile := mkProfile {
  name : string;
  voxel_mode : string;
  ldpc_rate : Q;
  rs_overhead : Q;
  interleave_span : Z;
  interleave_depth : Z;
  compression : string;
  compression_level : Z
}.

Definition PROFILE_A : profile := mkProfile "Conservative" "3bit" (3#4) (1#5) 10000 16 "zstd" 6.
Definition PROFILE_B : profile := mkProfile "Aggressive" "5bit" (83#100) (3#25) 5000 8 "zstd" 9.

(** The profile dictionary as [set_profile] stores it. *)
Definition profile_params (p : profile) : json :=
  JObj (list_to_map
    [("name"%string, JStr (name p)); ("voxel_mode"%string, JStr (voxel_mode p));
     ("ldpc_rate"%string, JFloat (ldpc_rate p)); ("rs_overhead"%string, JFloat (rs_overhead p));
     ("interleave_span"%string, JInt (interleave_span p));
     ("interleave_depth"%string, JInt (interleave_depth p));
     ("compression"%string, JStr (compression p));
     ("compression_level"%string, JInt (compression_level p))]).

(** [np.unpackbits] and [np.packbits], most significant bit first; the last
    group of [packbits] is zero-padded. *)
Definition unpackbits (b : bytes) : list bool :=
  flat_map (fun x => map (fun i => Z.testbit (Z_of_byte x) (7 - i)) (seqZ 0 8)) b.

Definition pad_bits (size : nat) (block : list bool) : list bool :=
  block ++ repeat false (size - length block).

Definition packbits (bits : list bool) : bytes :=
  map (fun group => byte_of_Z (fold_left (fun acc b => 2 * acc + VoxelMap.bit b)
                                         (pad_bits 8 group) 0))
      (chunks (length bits) 8 bits).

(** [mapM] on [result] *)
Fixpoint collect {A B} (f : A -> result B) (l : list A) : result (list B) :=
  match l with
  | [] => Ok []
  | x :: rest => let* y := f x in let* ys := collect f rest in Ok (y :: ys)
  end.

(** Step 4 of [encode_folder] on one shard: blocks of [k] bits, the last
    one zero-padded, each encoded, and the codewords concatenated. *)
Definition encode_shard (ldpc : LDPC.SimpleLDPC) (shard : bytes) : result (list bool) :=
  let shard_bits := unpackbits shard in
  let blocks := map (pad_bits (LDPC.k ldpc))
                    (chunks (length shard_bits) (LDPC.k ldpc) shard_bits) in
  let* encoded_blocks := collect (LDPC.encode ldpc) blocks in
  Ok (concat encoded_blocks).

(** One tile file: the three lists of [tile_data]. *)
Record tile := mkTile { symbols : list Z; angles : list Q; retardances : list Q }.

(** Step 7: tile [g] holds the slice [256 g : 256 g + 256] of the three
    arrays, and plane [p] the tiles [64 p .. 64 p + 63]. *)
Definition make_tiles (symbols : list Z) (angles retardances : list Q) : list (list tile) :=
  let voxels := combine symbols (combine angles retardances) in
  let tiles :=
    map (fun group => mkTile (map fst group) (map (fun v => fst (snd v)) group)
                             (map (fun v => snd (snd v)) group))
        (chunks (length voxels) 256 voxels) in
  chunks (length tiles) 64 tiles.

(** [f"{idx:03d}"] and [f"{idx:04d}"]: the decimal digits of [idx], with
    zeros in front up to [width] characters. *)
Fixpoint zeros (count : nat) : string :=
  match count with
  | O => EmptyString
  | S count' => String "0" (zeros count')
  end.

Definition zero_padded (width idx : nat) : string :=
  let digits := NilEmpty.string_of_uint (Nat.to_uint idx) in
  (zeros (width - String.length digits) ++ digits)%string.

(** [sorted(directory.glob(pattern))], where entry [idx] of [entries] was
    written under the name [prefix], [idx] zero-padded, [suffix]: the
    entries in the order of their names. *)
Definition sorted_glob {A} (prefix : string) (width : nat) (suffix : string)
    (entries : list A) : list A :=
  map snd (Packer.sorted
             (imap (fun idx entry => ((prefix ++ zero_padded width idx ++ suffix)%string, entry))
                   entries)).

(** The two loops of step 1 of [decode_archive]: the tile files
    [plane_###/tile_####.json] in the order they are read. *)
Definition read_tiles (planes : list (list tile)) : list tile :=
  flat_map (fun plane => sorted_glob "tile_" 4 ".json" plane)
           (sorted_glob "plane_" 3 EmptyString planes).

(** The libraries the pipeline calls, and the clock. *)
Record libraries := mkLibraries {
  zstd_compress : bytes -> Z -> bytes;
  zstd_decompress : bytes -> result bytes;
  lzma_compress : bytes -> Z -> bytes;
  lzma_decompress : bytes -> result bytes;
  ZSTD_VERSION : json;
  random_state : Type;
  np_random_seed : Z -> random_state;
  np_random_choice : random_state -> nat -> nat -> result (list nat * random_state);
  generator : Type;
  default_rng : Z -> generator;
  permutation : generator -> nat -> list nat * generator;
  rs_decode : nat -> bytes -> option bytes;
  text : Type;
  json_dump : json -> text;
  json_load : text -> result json;
  json_dumps_sorted : json -> string;
  utcnow : string
}.

(** What [encode_folder] leaves under [output_dir]: the tile files by plane
    (plane [p] is the directory [plane_###] of [p], its tile [t] the file
    [tile_####.json] of [t]), and [manifest.json]. *)
Record archive (text : Type) := mkArchive {
  voxels : list (list tile);
  manifest_file : text
}.
Arguments mkArchive {text} voxels manifest_file.
Arguments voxels {text} a.
Arguments manifest_file {text} a.

Section WithLibraries.

Variable lib : libraries.

(** [SimpleLDPC(n=1024, k=int(1024 * profile_params["ldpc_rate"]))] *)
Definition make_ldpc (p : profile) : result LDPC.SimpleLDPC :=
  LDPC.init (random_state lib) (np_random_seed lib) (np_random_choice lib)
            1024 (Z.to_nat (Qfloor (1024 * ldpc_rate p))).

(** Steps 1 to 3 of [encode_folder]: pack, compress, shard. *)
Definition encode_shards (p : profile) (folder_exists : bool) (walk : Packer.listing)
  : result (Packer.metadata * gmap string json * list bytes) :=
  let* packed := Packer.pack_folder_to_bytes folder_exists walk in
  let '(compressed, codec_info) :=
    Compression.compress_data (zstd_compress lib) (lzma_compress lib) (ZSTD_VERSION lib)
      (Packer.parts packed) (compression p) (compression_level p) in
  let* shards := ReedSolomon.create_shards ReedSolomon.default compressed 4096 in
  Ok (Packer.meta packed, codec_info, shards).

(** Step 4 and the concatenation of step 5: [all_bits]. *)
Definition encode_all_bits (ldpc : LDPC.SimpleLDPC) (shards : list bytes) : result (list bool) :=
  let* encoded_shards := collect (encode_shard ldpc) shards in
  Ok (concat encoded_shards).

(** Steps 5 and 6: interleave with the seed, then map to symbols. *)
Definition encode_symbols (p : profile) (seed : Z) (all_bits : list bool)
  : result (VoxelMap.VoxelMapper * list Z) :=
  let* interleaver :=
    Interleave.init (generator lib) (default_rng lib) (interleave_span p) (interleave_depth p)
                    seed in
  let* interleaved :=
    fst (Interleave.block_interleave (generator lib) (permutation lib) interleaver all_bits) in
  let* voxel_mapper := VoxelMap.init (voxel_mode p) in
  Ok (voxel_mapper, VoxelMap.bits_to_symbols voxel_mapper (fst interleaved)).

(** Step 8 up to [set_merkle_root]: the manifest before it is saved. *)
Definition fill_manifest (profile_name : string) (p : profile) (seed : Z)
    (ldpc : LDPC.SimpleLDPC) (voxel_mapper : VoxelMap.VoxelMapper) (n_planes : Z)
    (codec_info : gmap string json) (file_metadata : Packer.metadata) (merkle_root : string)
  : result ManifestFile.Manifest :=
  let manifest := ManifestFile.init (utcnow lib) in
  let* manifest := ManifestFile.set_profile profile_name (profile_params p) manifest in
  let* manifest :=
    ManifestFile.set_compression (compression p) (JObj codec_info) manifest in
  let* manifest :=
    ManifestFile.set_ecc_params
      (JObj (list_to_map [("n"%string, JInt (Z.of_nat (LDPC.n ldpc)));
                          ("k"%string, JInt (Z.of_nat (LDPC.k ldpc)));
                          ("rate"%string, JFloat (3#4))]))
      (JObj (list_to_map
               [("n"%string, JInt (Z.of_nat (ReedSolomon.n ReedSolomon.default)));
                ("k"%string, JInt (Z.of_nat (ReedSolomon.k ReedSolomon.default)));
                ("overhead"%string, JFloat (rs_overhead p))]))
      manifest in
  let* manifest :=
    ManifestFile.set_voxel_mapping (voxel_mode p)
      (list_to_map
         [("bits_per_voxel"%string, JInt (VoxelMap.bits_per_voxel voxel_mapper));
          ("orientations"%string, JInt (VoxelMap.orientations voxel_mapper));
          ("retardance_levels"%string, JInt (VoxelMap.retardance_levels voxel_mapper))])
      manifest in
  let* manifest :=
    ManifestFile.set_interleaving seed (interleave_span p) (interleave_depth p) manifest in
  let* manifest := ManifestFile.set_geometry 8 8 n_planes manifest in
  let* manifest :=
    fold_left (fun acc file_info =>
                 let* manifest := acc in
                 ManifestFile.add_file (Packer.path file_info) (Packer.size file_info)
                                       (Packer.sha256 file_info) manifest)
              (Packer.files file_metadata) (Ok manifest) in
  ManifestFile.set_merkle_root merkle_root manifest.

(** Step 8: the Merkle tree over the shards, the manifest and its file. *)
Definition encode_manifest (profile_name : string) (p : profile) (seed : Z)
    (ldpc : LDPC.SimpleLDPC) (voxel_mapper : VoxelMap.VoxelMapper) (n_planes : Z)
    (codec_info : gmap string json) (file_metadata : Packer.metadata) (shards : list bytes)
  : option (result (ManifestFile.Manifest * text lib)) :=
  match Merkle.init (length shards) shards 2 with
  | None => None
  | Some (Raise e) => Some (Raise e)
  | Some (Ok merkle_tree) =>
      Some (
        let* manifest :=
          fill_manifest profile_name p seed ldpc voxel_mapper n_planes codec_info
            file_metadata (Hex.hex (Merkle.root merkle_tree)) in
        ManifestFile.save (text lib) (json_dump lib) (json_dumps_sorted lib) manifest)
  end.

(** [encode_folder(folder, output_dir, profile, seed)]: every profile name
    but "A" selects profile B.  [None] only if the Merkle construction does
    not end. *)
Definition encode_folder (folder_exists : bool) (walk : Packer.listing)
    (profile_name : string) (seed : Z) : option (result (archive (text lib))) :=
  let p := if String.eqb profile_name "A" then PROFILE_A else PROFILE_B in
  match encode_shards p folder_exists walk with
  | Raise e => Some (Raise e)
  | Ok (file_metadata, codec_info, shards) =>
      match (let* ldpc := make_ldpc p in
             let* all_bits := encode_all_bits ldpc shards in
             let* mapped := encode_symbols p seed all_bits in
             let* vox := VoxelMap.symbols_to_voxels (fst mapped) (snd mapped) in
             Ok (ldpc, fst mapped, make_tiles (snd mapped) (fst vox) (snd vox))) with
      | Raise e => Some (Raise e)
      | Ok (ldpc, voxel_mapper, planes) =>
          match encode_manifest profile_name p seed ldpc voxel_mapper
                  (Z.of_nat (length planes)) codec_info file_metadata shards with
          | None => None
          | Some (Raise e) => Some (Raise e)
          | Some (Ok saved) => Some (Ok (mkArchive planes (snd saved)))
          end
      end
  end.

(** Dictionary subscripts and the conversions [decode_archive] relies on. *)
Definition subscript (key : string) (v : json) : result json :=
  match v with
  | JObj d => match d !! key with Some x => Ok x | None => Raise (KeyError key) end
  | _ => Raise TypeError
  end.

Definition as_nat (v : json) : result nat :=
  match v with
  | JInt z => if z <? 0 then Raise (ValueError "negative dimensions are not allowed")
              else Ok (Z.to_nat z)
  | _ => Raise TypeError
  end.

Definition as_seed (v : json) : result Z :=
  match v with
  | JInt z => Ok z
  | _ => Raise TypeError
  end.

(** Steps 1 and 2 of [decode_archive]: the tiles in the sorted order of
    their file names, and the bits of their stored symbols. *)
Definition read_bits_interleaved (voxel_mode : json) (a : archive (text lib))
  : result (list bool) :=
  let all_symbols := flat_map symbols (read_tiles (voxels a)) in
  let* voxel_mapper :=
    match voxel_mode with
    | JStr s => VoxelMap.init s
    | _ => Raise (ValueError "Unknown mode")
    end in
  Ok (VoxelMap.symbols_to_bits voxel_mapper all_symbols).

(** Step 3: the permutation is drawn again from the seed, for the length of
    [bits_interleaved]. *)
Definition deinterleave_bits (seed : Z) (bits_interleaved : list bool) : result (list bool) :=
  let* interleaver := Interleave.init (generator lib) (default_rng lib) 0 0 seed in
  let perm :=
    Interleave.regenerated_permutation (generator lib) (default_rng lib) (permutation lib)
      seed (length bits_interleaved) in
  Interleave.block_deinterleave (generator lib) interleaver bits_interleaved perm.

(** Step 4 and the conversion to bytes: blocks of [n] bits, the last one
    zero-padded, hard-decoded; the success flags are dropped. *)
Definition ldpc_decode_bytes (ldpc : LDPC.SimpleLDPC) (bits_encoded : list bool)
  : result bytes :=
  let blocks := map (pad_bits (LDPC.n ldpc))
                    (chunks (length bits_encoded) (LDPC.n ldpc) bits_encoded) in
  let* decoded_bits := collect (fun block => let* r := LDPC.decode_hard ldpc block 50 in
                                             Ok (fst r)) blocks in
  Ok (packbits (concat decoded_bits)).

(** Steps 5 to 7: Reed-Solomon decode, then the codec information is read
    from the manifest, then decompress and unpack.  The per-file hash
    comparison that follows only prints warnings. *)
Definition recover_files (encoding : json) (decoded_bytes : bytes)
  : result (list (string * bytes)) :=
  match ReedSolomon.decode (rs_decode lib) ReedSolomon.default decoded_bytes with
  | None => Raise (ValueError "Reed-Solomon decoding failed - too many errors")
  | Some recovered =>
      let* compression := subscript "compression" encoding in
      let* codec_info := subscript "info" compression in
      let* info := match codec_info with JObj d => Ok d | _ => Raise TypeError end in
      let* decompressed :=
        Compression.decompress_data (zstd_decompress lib) (lzma_decompress lib) recovered info in
      Packer.unpack_bytes_to_folder decompressed
  end.

(** Steps 3 to 7, from the parameters once they are read. *)
Definition decode_bits (encoding ldpc_params : json) (seed : Z) (bits_interleaved : list bool)
  : result (list (string * bytes)) :=
  let* bits_encoded := deinterleave_bits seed bits_interleaved in
  let* n_json := subscript "n" ldpc_params in
  let* k_json := subscript "k" ldpc_params in
  let* n := as_nat n_json in
  let* k := as_nat k_json in
  let* ldpc :=
    LDPC.init (random_state lib) (np_random_seed lib) (np_random_choice lib) n k in
  let* decoded_bytes := ldpc_decode_bytes ldpc bits_encoded in
  recover_files encoding decoded_bytes.

(** [decode_archive(voxel_dir, output_dir)]: the files written.  The
    parameters come from the manifest alone. *)
Definition decode_archive (a : archive (text lib)) : result (list (string * bytes)) :=
  let* manifest :=
    ManifestFile.load (text lib) (json_load lib) (json_dumps_sorted lib) (manifest_file a) in
  let* encoding := subscript "encoding" (ManifestFile.data manifest) in
  let* _ := subscript "profile_params" encoding in
  let* ecc := subscript "ecc" encoding in
  let* ldpc_params := subscript "ldpc" ecc in
  let* voxel := subscript "voxel" encoding in
  let* voxel_mode := subscript "mode" voxel in
  let* interleave_params := subscript "interleaving" encoding in
  let* bits_interleaved := read_bits_interleaved voxel_mode a in
  let* _ := subscript "span" interleave_params in
  let* _ := subscript "depth" interleave_params in
  let* seed_json := subscript "seed" interleave_params in
  let* seed := as_seed seed_json in
  decode_bits encoding ldpc_params seed bits_interleaved.

End WithLibraries.

(** The folder of the end-to-end scenario, its packed blob and metadata,
    and the shard its compressed blob gives when it fits one shard. *)
Definition example_folder : Packer.listing :=
  [(EmptyString, [("a.txt"%string, Ok (encode_utf8 "Hello World"));
                  ("b.txt"%string, Ok (encode_utf8 "Test content"))])].

Definition example_packed : Packer.pack_state :=
  Eval vm_compute in
    match Packer.pack_folder_to_bytes true example_folder with
    | Ok st => st
    | Raise _ => Packer.mkPack [] (Packer.mkMetadata [] 0) []
    end.

Definition example_compressed (lib : libraries) : bytes :=
  zstd_compress lib (Packer.parts example_packed) 6.

Definition example_shard (lib : libraries) : bytes :=
  example_compressed lib ++ repeat x00 (4096 - length (example_compressed lib)).

(** [codec_info] of the scenario, as [compress_data] returns it. *)
Definition example_codec_info (lib : libraries) : gmap string json :=
  snd (Compression.compress_data (zstd_compress lib) (lzma_compress lib) (ZSTD_VERSION lib)
         (Packer.parts example_packed) "zstd" 6).

(** An instance for examples: no compression, reversal as the only
    permutation, the sampler of the first indices, a Reed-Solomon decoder
    that drops the parity bytes, and the document store of the manifest
    examples. *)
Definition example_libraries : libraries :=
  mkLibraries (fun data _ => data) Ok (fun data _ => data) Ok JNull
              unit (fun _ => tt) LDPC.first_choice
              nat Z.to_nat (fun g n => (reverse (seq 0 n), S g))
              (fun nsym chunk => Some (firstn (length chunk - nsym) chunk))
              json (fun v => v) Ok ManifestFile.example_dumps_sorted
              "2026-01-01T00:00:00".

(** [decode_archive] on what [encode_folder] wrote. *)
Definition encode_then_decode (lib : libraries) (folder_exists : bool) (walk : Packer.listing)
    (profile_name : string) (seed : Z) : option (result (list (string * bytes))) :=
  match encode_folder lib folder_exists walk profile_name seed with
  | None => None
  | Some (Raise e) => Some (Raise e)
  | Some (Ok a) => Some (decode_archive lib a)
  end.

End Pipeline.

(** * Part II: properties *)

(** ** SHA-256 test vectors *)

Example sha256_abc :
  sha256_hex (encode_utf8 "abc")
  = "ba7816bf8f01cfea414140de5dae2223b00361a396177a9cb410ff61f20015ad"%string.
Proof. vm_compute. reflexivity. Qed.

Example sha256_empty :
  sha256_hex []
  = "e3b0c44298fc1c149afbf4c8996fb92427ae41e4649b934ca495991b7852b855"%string.
Proof. vm_compute. reflexivity. Qed.

(** *** Properties of [decompress_data] *)

Lemma decompress_data_other zstd xz data info c :
  info !! "codec"%string = Some (JStr c) ->
  c <> "zstd"%string -> c <> "xz"%string ->
  Compression.decompress_data zstd xz data info = Ok data.
Proof.
  intros Hc Hz Hx. unfold Compression.decompress_data. rewrite Hc.
  destruct (decide (c = "zstd"%string)) as [->|_]; [congruence|].
  destruct (decide (c = "xz"%string)) as [->|_]; [congruence|].
  repeat (match goal with
          | |- context [match ?s with EmptyString => _ | String _ _ => _ end] =>
              destruct s; try reflexivity
          | |- context [match ?a with Ascii _ _ _ _ _ _ _ _ => _ end] =>
              destruct a
          | |- context [if ?b then _ else _] => destruct b; try reflexivity
          end); try congruence.
Qed.

(** C6, as stated, fails: with [codec_info = {"codec": "brotli"}] no
    decompressor is called and no error is raised, whatever the two
    libraries would do. *)
Lemma decompress_unknown_codec_no_error :
  ~ (forall zstd xz : bytes -> result bytes,
        exists e, Compression.decompress_data zstd xz (encode_utf8 "abc")
                    {[ "codec"%string := JStr "brotli" ]} = Raise e).
Proof.
  intros H.
  destruct (H (fun _ => Raise (LibraryError "zstd")) (fun _ => Raise (LibraryError "lzma")))
    as [e He].
  vm_compute in He. discriminate He.
Qed.

(** C6, amended: when [codec_info["codec"]] names an unknown codec (neither
    zstd, xz nor none), [decompress_data] returns its input unchanged, as it
    does for none; it raises nothing. *)
Theorem decompress_unknown_codec_returns_input zstd xz data info c :
  info !! "codec"%string = Some (JStr c) ->
  ~ Compression.known_codec c ->
  Compression.decompress_data zstd xz data info = Ok data.
Proof.
  intros Hc Hk. apply decompress_data_other with (c := c); [exact Hc | |];
    intros ->; apply Hk; unfold Compression.known_codec; tauto.
Qed.

Lemma decompress_unknown_codec_witness :
  Compression.decompress_data (fun _ => Raise (LibraryError "zstd"))
      (fun _ => Raise (LibraryError "lzma")) (encode_utf8 "abc")
      {[ "codec"%string := JStr "brotli" ]}
  = Ok (encode_utf8 "abc").
Proof.
  apply (decompress_unknown_codec_returns_input _ _ _ _ "brotli").
  - reflexivity.
  - unfold Compression.known_codec. intros [H|[H|H]]; discriminate H.
Defined.

(** ** The packer *)

Lemma pack_file_readable (st : Packer.pack_state) (p : string) (d : bytes) :
  valid_utf8 (encode_utf8 p) = true ->
  Packer.pack_file st (p, Ok d)
  = Ok (Packer.mkPack (Packer.parts st ++ Packer.record p d)
          (Packer.mkMetadata
             (Packer.files (Packer.meta st)
                ++ [Packer.mkFileInfo p (Z.of_nat (length d)) (sha256_hex d)])
             (Packer.total_size (Packer.meta st) + Z.of_nat (length d)))
          (Packer.warned st)).
Proof.
  intros Hp. unfold Packer.pack_file, str_encode. cbn [snd fst]. rewrite Hp. reflexivity.
Qed.

Lemma pack_file_fold fs st :
  Forall (fun f => valid_utf8 (encode_utf8 (fst f)) = true) (Packer.readable fs) ->
  fold_left (fun acc f => let* st := acc in Packer.pack_file st f) fs (Ok st)
  = Ok (Packer.mkPack
      (Packer.parts st ++ flat_map (fun f => Packer.record (fst f) (snd f)) (Packer.readable fs))
      (Packer.mkMetadata
         (Packer.files (Packer.meta st)
            ++ map (fun f => Packer.mkFileInfo (fst f) (Z.of_nat (length (snd f)))
                               (sha256_hex (snd f))) (Packer.readable fs))
         (Packer.total_size (Packer.meta st)
            + fold_right Z.add 0 (map (fun f => Z.of_nat (length (snd f))) (Packer.readable fs))))
      (Packer.warned st ++ Packer.unreadable fs)).
Proof.
  revert st. induction fs as [|[p r] fs IH]; intros [ps [fl ts] w] Hnames.
  - cbn. rewrite !app_nil_r, Z.add_0_r. reflexivity.
  - cbn [fold_left bind]. destruct r as [d|e].
    + unfold Packer.readable in Hnames. cbn [flat_map snd fst app] in Hnames.
      inversion Hnames as [|? ? Hp Hrest]; subst. cbn [fst] in Hp.
      rewrite (pack_file_readable _ p d Hp), (IH _ Hrest).
      unfold Packer.readable, Packer.unreadable.
      cbn [snd fst flat_map app map fold_right Packer.parts Packer.meta Packer.files
           Packer.total_size Packer.warned].
      rewrite <- ?app_assoc. cbn [app]. rewrite ?Z.add_assoc. reflexivity.
    + change (Packer.pack_file (Packer.mkPack ps (Packer.mkMetadata fl ts) w) (p, Raise e))
        with (Ok (Packer.mkPack ps (Packer.mkMetadata fl ts) (w ++ [p]))).
      rewrite (IH _ Hnames).
      unfold Packer.readable, Packer.unreadable.
      cbn [snd fst flat_map app map fold_right Packer.parts Packer.meta Packer.files
           Packer.total_size Packer.warned].
      rewrite <- ?app_assoc. reflexivity.
Qed.

Lemma readable_names (fs : list (string * result bytes)) (P : string -> Prop) :
  Forall (fun f => P (fst f)) fs -> Forall (fun f => P (fst f)) (Packer.readable fs).
Proof.
  intros Hfs. unfold Packer.readable. apply Forall_flat_map.
  eapply Forall_impl; [exact Hfs|]. intros [p [d|e]] Hp; cbn [snd fst] in *.
  - constructor; [exact Hp | constructor].
  - constructor.
Qed.

(** C7, as stated, fails: in a folder holding a readable [a.txt] and an
    unreadable [b.txt], [pack_folder_to_bytes] returns normally; [b.txt] is
    in neither the blob nor the metadata, only in a printed warning. *)
Lemma pack_unreadable_file_is_skipped :
  Packer.pack_folder_to_bytes true
    [(EmptyString, [("a.txt"%string, Ok (encode_utf8 "Hello World"));
                    ("b.txt"%string, Raise OSError)])]
  = Ok (Packer.mkPack
          (Packer.magic ++ Packer.record "a.txt" (encode_utf8 "Hello World"))
          (Packer.mkMetadata
             [Packer.mkFileInfo "a.txt" 11
                "a591a6d40bf420404a011733cfb7b190d62c65bf0bcda32b57b277d9ad9f146e"]
             11)
          ["b.txt"%string]).
Proof. vm_compute. reflexivity. Qed.

(** C7, amended: [pack_folder_to_bytes] on an existing folder whose file
    names are UTF-8 returns normally, whatever files cannot be read.  A file
    whose read fails gets a warning and is left out of the blob and of the
    metadata; the blob and the metadata are those of the readable files, in
    visiting order. *)
Theorem pack_skips_unreadable_files (walk : Packer.listing) :
  Forall (fun f => valid_utf8 (encode_utf8 (fst f)) = true) (Packer.visited walk) ->
  Packer.pack_folder_to_bytes true walk
  = Ok (Packer.mkPack
          (Packer.magic
             ++ flat_map (fun f => Packer.record (fst f) (snd f))
                         (Packer.readable (Packer.visited walk)))
          (Packer.mkMetadata
             (map (fun f => Packer.mkFileInfo (fst f) (Z.of_nat (length (snd f)))
                              (sha256_hex (snd f)))
                  (Packer.readable (Packer.visited walk)))
             (fold_right Z.add 0
                (map (fun f => Z.of_nat (length (snd f)))
                     (Packer.readable (Packer.visited walk)))))
          (Packer.unreadable (Packer.visited walk))).
Proof.
  intros Hnames. unfold Packer.pack_folder_to_bytes.
  rewrite pack_file_fold; [reflexivity|].
  apply (readable_names _ (fun p => valid_utf8 (encode_utf8 p) = true)), Hnames.
Qed.

Lemma pack_skips_unreadable_files_witness :
  Packer.pack_folder_to_bytes true
    [(EmptyString, [("b.txt"%string, Raise OSError);
                    ("a.txt"%string, Ok (encode_utf8 "Hello World"))])]
  = Ok (Packer.mkPack
          (Packer.magic ++ (Packer.record "a.txt" (encode_utf8 "Hello World") ++ []))
          (Packer.mkMetadata
             [Packer.mkFileInfo "a.txt" (Z.of_nat (length (encode_utf8 "Hello World")))
                (sha256_hex (encode_utf8 "Hello World"))]
             (Z.of_nat (length (encode_utf8 "Hello World")) + 0))
          ["b.txt"%string]).
Proof.
  apply (pack_skips_unreadable_files
           [(EmptyString, [("b.txt"%string, Raise OSError);
                           ("a.txt"%string, Ok (encode_utf8 "Hello World"))])]).
  repeat constructor.
Defined.

(** ** The voxel mapper *)

Lemma lookup_foldl_insert {V} (f : Z -> V) (l : list Z) (t : gmap Z V) (k : Z) :
  foldl (fun table s => <[s := f s]> table) t l !! k
  = if bool_decide (k ∈ l) then Some (f k) else t !! k.
Proof.
  revert t. induction l as [|s l IH]; intros t; cbn [foldl].
  - rewrite bool_decide_eq_false_2; [reflexivity | apply not_elem_of_nil].
  - rewrite IH. destruct (decide (k ∈ l)) as [Hin|Hnin].
    + rewrite !bool_decide_eq_true_2; [reflexivity | by right | exact Hin].
    + rewrite (bool_decide_eq_false_2 (k ∈ l)) by exact Hnin.
      destruct (decide (s = k)) as [->|Hne].
      * rewrite lookup_insert_eq, bool_decide_eq_true_2; [reflexivity | by left].
      * rewrite lookup_insert_ne by exact Hne.
        rewrite bool_decide_eq_false_2; [reflexivity|].
        intros [->| ?]%elem_of_cons; tauto.
Qed.

(** The symbol table holds exactly the symbols of the mode. *)
Lemma symbol_table_lookup (vm : VoxelMap.VoxelMode) :
  exists m, VoxelMap.init (VoxelMap.mode_value vm) = Ok m
    /\ forall s, (0 <= s < 2 ^ VoxelMap.bits_per_voxel m -> is_Some (VoxelMap.symbol_table m !! s))
              /\ (~ 0 <= s < 2 ^ VoxelMap.bits_per_voxel m -> VoxelMap.symbol_table m !! s = None).
Proof.
  destruct vm; eexists; (split; [reflexivity|]); intros s;
    cbn [VoxelMap.symbol_table VoxelMap.bits_per_voxel];
    unfold VoxelMap._build_symbol_table; cbn [VoxelMap.mode_value String.eqb Ascii.eqb Bool.eqb];
    rewrite lookup_foldl_insert; split; intros Hs.
  - rewrite bool_decide_eq_true_2; [eauto | apply elem_of_seqZ; lia].
  - rewrite bool_decide_eq_false_2; [apply lookup_empty | rewrite elem_of_seqZ; lia].
  - rewrite bool_decide_eq_true_2; [eauto | apply elem_of_seqZ; lia].
  - rewrite bool_decide_eq_false_2; [apply lookup_empty | rewrite elem_of_seqZ; lia].
Qed.

Lemma voxel_of_emitted (vm : VoxelMap.VoxelMode) :
  exists m, VoxelMap.init (VoxelMap.mode_value vm) = Ok m
    /\ forall s, exists v, VoxelMap.symbol_table m !! VoxelMap.emitted_symbol m s = Some v
                        /\ VoxelMap.voxel_of m s = Ok v.
Proof.
  destruct (symbol_table_lookup vm) as (m & Hinit & Htab).
  exists m. split; [exact Hinit|]. intros s.
  unfold VoxelMap.emitted_symbol, VoxelMap.voxel_of.
  destruct ((0 <=? s) && (s <? 2 ^ VoxelMap.bits_per_voxel m)) eqn:Hr.
  - apply andb_true_iff in Hr as [H1%Z.leb_le H2%Z.ltb_lt].
    destruct (proj1 (Htab s) (conj H1 H2)) as [v Hv]. exists v. rewrite Hv. tauto.
  - assert (Hout : ~ 0 <= s < 2 ^ VoxelMap.bits_per_voxel m).
    { intros [H1 H2]. apply Z.leb_le in H1. apply Z.ltb_lt in H2.
      rewrite H1, H2 in Hr. discriminate Hr. }
    rewrite (proj2 (Htab s) Hout).
    assert (H0 : 0 <= 0 < 2 ^ VoxelMap.bits_per_voxel m).
    { destruct vm; injection Hinit as <-; cbn; lia. }
    destruct (proj1 (Htab 0) H0) as [v Hv]. exists v. rewrite Hv. tauto.
Qed.

Lemma voxels_of_total (vm : VoxelMap.VoxelMode) (symbols : list Z) :
  exists m vs,
    VoxelMap.init (VoxelMap.mode_value vm) = Ok m
    /\ VoxelMap.voxels_of m symbols = Ok vs
    /\ Forall2 (fun s v => VoxelMap.symbol_table m !! VoxelMap.emitted_symbol m s = Some v)
               symbols vs.
Proof.
  destruct (voxel_of_emitted vm) as (m & Hinit & Hv).
  exists m. induction symbols as [|s symbols IH].
  - exists []. repeat split; [exact Hinit | constructor].
  - destruct IH as (vs & _ & Hvs & Hall). destruct (Hv s) as (v & Hlook & Hvox).
    exists (v :: vs). repeat split; [exact Hinit | | constructor; assumption].
    cbn [VoxelMap.voxels_of]. rewrite Hvox. cbn [bind]. rewrite Hvs. reflexivity.
Qed.

(** C10: for both modes [symbols_to_voxels] returns normally on every array
    of integers, with one voxel per symbol: the table entry of the symbol
    itself when it lies in [0, 2^b), and the entry of symbol 0 otherwise. *)
Theorem symbols_to_voxels_total (vm : VoxelMap.VoxelMode) (symbols : list Z) :
  exists m vs,
    VoxelMap.init (VoxelMap.mode_value vm) = Ok m
    /\ VoxelMap.symbols_to_voxels m symbols = Ok (map fst vs, map snd vs)
    /\ Forall2 (fun s v => VoxelMap.symbol_table m !! VoxelMap.emitted_symbol m s = Some v)
               symbols vs.
Proof.
  destruct (voxels_of_total vm symbols) as (m & vs & Hinit & Hvs & Hall).
  exists m, vs. repeat split; [exact Hinit | | exact Hall].
  unfold VoxelMap.symbols_to_voxels. rewrite Hvs. reflexivity.
Qed.

(** Out-of-range symbols on both sides of the range, in both modes. *)
Example symbols_to_voxels_out_of_range :
  (exists m, VoxelMap.init "3bit" = Ok m
     /\ VoxelMap.symbols_to_voxels m [8; 5; -1; 255]
        = Ok ([0#1; 45#1; 0#1; 0#1], [1#4; 3#4; 1#4; 1#4]))
  /\ (exists m, VoxelMap.init "5bit" = Ok m
     /\ VoxelMap.symbols_to_voxels m [32; 9]
        = Ok ([0#1; 45#2], [1#4; 1#2])).
Proof. split; eexists; (split; [reflexivity|]); vm_compute; reflexivity. Qed.

(** C4 on the code.  The bits of a symbol are its binary digits
    ([bits_to_symbols] and [symbols_to_bits]), and [symbols_to_voxels] reads
    [symbol_table] without going through [gray_codes].  In the 3-bit mode
    symbols 1 and 2 sit at 45 and 90 degrees with the same retardance, and
    their bits 001 and 010 differ twice; in the 5-bit mode symbols 8 and 16
    sit at the same angle one retardance step apart, and differ twice.  Sent
    through [gray_codes], the retardance neighbours 0 and 4 of the 3-bit mode
    would still differ twice (000 and 110). *)
Theorem neighbour_symbols_differ_in_two_bits :
  (exists m, VoxelMap.init "3bit" = Ok m
     /\ VoxelMap.nearest_in_angle m 1 2 = true
     /\ VoxelMap.hamming (VoxelMap.symbols_to_bits m [1]) (VoxelMap.symbols_to_bits m [2]) = 2%nat
     /\ VoxelMap.bits_to_symbols m [false; false; true] = [1]
     /\ VoxelMap.bits_to_symbols m [false; true; false] = [2]
     /\ VoxelMap.nearest_in_retardance m 0 4 = true
     /\ (VoxelMap.gray_codes m !! 0, VoxelMap.gray_codes m !! 4) = (Some 0, Some 6))
  /\ (exists m, VoxelMap.init "5bit" = Ok m
     /\ VoxelMap.nearest_in_retardance m 8 16 = true
     /\ VoxelMap.hamming (VoxelMap.symbols_to_bits m [8]) (VoxelMap.symbols_to_bits m [16]) = 2%nat
     /\ VoxelMap.nearest_in_angle m 1 2 = true
     /\ VoxelMap.hamming (VoxelMap.symbols_to_bits m [1]) (VoxelMap.symbols_to_bits m [2]) = 2%nat).
Proof.
  split; eexists; (split; [reflexivity|]); vm_compute; repeat split; reflexivity.
Qed.

(** ** The interleaver *)

Lemma take_indices_in_range {A} (data : list A) (index : list nat) :
  Forall (fun i => (i < length data)%nat) index ->
  exists xs, Interleave.take_indices data index = Ok xs /\ length xs = length index.
Proof.
  induction 1 as [|i index Hi _ IH].
  - exists []. split; reflexivity.
  - destruct IH as (xs & Hxs & Hlen).
    destruct (lookup_lt_is_Some_2 data i Hi) as [a Ha].
    exists (a :: xs). cbn [Interleave.take_indices]. rewrite Ha, Hxs. cbn [bind].
    split; [reflexivity | cbn; congruence].
Qed.

Lemma permutation_in_range (perm : list nat) (n : nat) :
  Permutation perm (seq 0 n) -> Forall (fun i => (i < n)%nat) perm.
Proof.
  intros Hp. apply Forall_forall. intros i Hi.
  apply list_elem_of_In, (Permutation_in _ Hp), in_seq in Hi. lia.
Qed.

Lemma seeded_rng_accepts {generator : Type} (default_rng : Z -> generator) (seed : Z) :
  (0 <= seed)%Z ->
  Interleave.seeded_rng generator default_rng seed = Ok (default_rng seed).
Proof.
  intros Hs. unfold Interleave.seeded_rng. destruct (Z.ltb_spec seed 0); [lia | reflexivity].
Qed.

Lemma interleaver_init_accepts {generator : Type} (default_rng : Z -> generator)
    (span depth seed : Z) :
  (0 <= seed)%Z ->
  Interleave.init generator default_rng span depth seed
  = Ok (Interleave.mkInterleaver generator span depth seed (default_rng seed)).
Proof.
  intros Hs. unfold Interleave.init. rewrite seeded_rng_accepts by exact Hs. reflexivity.
Qed.

Lemma interleaver_init_refuses {generator : Type} (default_rng : Z -> generator)
    (span depth seed : Z) :
  (seed < 0)%Z ->
  Interleave.init generator default_rng span depth seed
  = Raise (ValueError "expected non-negative integer").
Proof.
  intros Hs. unfold Interleave.init, Interleave.seeded_rng.
  destruct (Z.ltb_spec seed 0); [reflexivity | lia].
Qed.

(** C9: two runs of numpy (the process that encodes and the process that
    decodes, say) are two generators, [default_rng1]/[permutation1] and
    [default_rng2]/[permutation2]; that they are reproducible is the
    hypothesis that a generator seeded with [s >= 0] makes the same first
    draw of [permutation(n)] in both.  Then for every seed and length [N]:
    a non-negative seed constructs both [Interleaver]s, whatever their span
    and depth; their first [block_interleave] on inputs of length [N]
    (whatever the inputs hold) returns one and the same permutation; and it
    is the permutation [decode_archive] regenerates from [default_rng(seed)]
    for that length.  A negative seed constructs neither: [default_rng]
    raises a [ValueError] in [__init__]. *)
Theorem block_interleave_permutation_deterministic
    (generator1 generator2 : Type)
    (default_rng1 : Z -> generator1) (default_rng2 : Z -> generator2)
    (permutation1 : generator1 -> nat -> list nat * generator1)
    (permutation2 : generator2 -> nat -> list nat * generator2)
    (A B : Type) (seed span1 depth1 span2 depth2 : Z)
    (x : list A) (y : list B) (N : nat) :
  (forall g n, Permutation (fst (permutation1 g n)) (seq 0 n)) ->
  (forall s n, (0 <= s)%Z ->
     fst (permutation2 (default_rng2 s) n) = fst (permutation1 (default_rng1 s) n)) ->
  length x = N -> length y = N ->
  ((0 <= seed)%Z ->
   exists il1 il2 ix iy perm,
     Interleave.init generator1 default_rng1 span1 depth1 seed = Ok il1
     /\ Interleave.init generator2 default_rng2 span2 depth2 seed = Ok il2
     /\ fst (Interleave.block_interleave generator1 permutation1 il1 x) = Ok (ix, perm)
     /\ fst (Interleave.block_interleave generator2 permutation2 il2 y) = Ok (iy, perm)
     /\ perm = Interleave.regenerated_permutation generator2 default_rng2 permutation2 seed N)
  /\ ((seed < 0)%Z ->
      Interleave.init generator1 default_rng1 span1 depth1 seed
      = Raise (ValueError "expected non-negative integer")
      /\ Interleave.init generator2 default_rng2 span2 depth2 seed
         = Raise (ValueError "expected non-negative integer")).
Proof.
  intros Hperm Hrepro Hx Hy. split.
  - intros Hs. rewrite !interleaver_init_accepts by exact Hs.
    pose proof (permutation_in_range _ _ (Hperm (default_rng1 seed) N)) as Hr.
    pose proof (Hrepro seed N Hs) as Heq.
    exists (Interleave.mkInterleaver generator1 span1 depth1 seed (default_rng1 seed)),
           (Interleave.mkInterleaver generator2 span2 depth2 seed (default_rng2 seed)).
    unfold Interleave.block_interleave, Interleave.regenerated_permutation.
    cbn [Interleave.rng]. rewrite Hx, Hy.
    destruct (permutation1 (default_rng1 seed) N) as [perm g1].
    destruct (permutation2 (default_rng2 seed) N) as [perm2 g2].
    cbn [fst] in *. subst perm2.
    destruct (take_indices_in_range x perm) as (ix & Hix & _); [rewrite Hx; exact Hr|].
    destruct (take_indices_in_range y perm) as (iy & Hiy & _); [rewrite Hy; exact Hr|].
    exists ix, iy, perm. rewrite Hix, Hiy. cbn [bind]. repeat split; reflexivity.
  - intros Hs. rewrite !interleaver_init_refuses by exact Hs. split; reflexivity.
Qed.

(** Two generators for the witness: the state of the first counts the
    draws, the second has no state, and every draw of both is the reversal
    of [range(n)]. *)
Lemma block_interleave_permutation_witness :
  exists il1 il2 ix iy perm,
    Interleave.init nat (fun seed => Z.to_nat seed) 10000 16 42 = Ok il1
    /\ Interleave.init unit (fun _ => tt) 5000 8 42 = Ok il2
    /\ fst (Interleave.block_interleave nat (fun g n => (rev (seq 0 n), S g)) il1
              [true; false; true]) = Ok (ix, perm)
    /\ fst (Interleave.block_interleave unit (fun g n => (rev (seq 0 n), g)) il2
              [x00; x01; x02]) = Ok (iy, perm)
    /\ perm = Interleave.regenerated_permutation unit (fun _ => tt)
                (fun g n => (rev (seq 0 n), g)) 42 3.
Proof.
  apply (block_interleave_permutation_deterministic nat unit
           (fun seed => Z.to_nat seed) (fun _ => tt)
           (fun g n => (rev (seq 0 n), S g)) (fun g n => (rev (seq 0 n), g))
           bool byte 42 10000 16 5000 8 [true; false; true] [x00; x01; x02] 3).
  - intros g n. cbn [fst]. symmetry. apply Permutation_rev.
  - intros s n _. reflexivity.
  - reflexivity.
  - reflexivity.
  - lia.
Defined.

(** ** The manifest *)

Lemma sha256_hex_nonempty (x : bytes) : sha256_hex x <> EmptyString.
Proof.
  unfold sha256_hex, SHA256.digest.
  cbn [flat_map SHA256.be_bytes seq map app Hex.hex]. discriminate.
Qed.

Lemma truthy_hash (x : bytes) : truthy (JStr (sha256_hex x)) = true.
Proof.
  cbn [truthy]. destruct (String.eqb_spec (sha256_hex x) EmptyString) as [H|H].
  - destruct (sha256_hex_nonempty x H).
  - reflexivity.
Qed.

Lemma compute_hash_dict dumps (d : gmap string json) :
  ManifestFile.compute_hash dumps (ManifestFile.mkManifest (JObj d))
  = Ok (ManifestFile.hash_without_integrity dumps d).
Proof. reflexivity. Qed.

Lemma hash_with_manifest_hash dumps (d integ : gmap string json) (h : string) :
  ManifestFile.hash_without_integrity dumps (ManifestFile.with_manifest_hash d integ h)
  = ManifestFile.hash_without_integrity dumps d.
Proof.
  unfold ManifestFile.hash_without_integrity, ManifestFile.with_manifest_hash.
  rewrite delete_insert_eq. reflexivity.
Qed.

Lemma save_dict {text} (dump : json -> text) dumps (d integ : gmap string json) :
  d !! "integrity"%string = Some (JObj integ) ->
  ManifestFile.save text dump dumps (ManifestFile.mkManifest (JObj d))
  = let saved := ManifestFile.with_manifest_hash d integ
                   (ManifestFile.hash_without_integrity dumps d) in
    Ok (ManifestFile.mkManifest (JObj saved), dump (JObj saved)).
Proof.
  intros Hi. unfold ManifestFile.save. rewrite compute_hash_dict. cbn [bind].
  unfold ManifestFile.set_nested. cbn [ManifestFile.data]. rewrite Hi. reflexivity.
Qed.

Lemma load_saved {text} (load_ : text -> result json) dumps (d integ : gmap string json)
    (file : text) :
  let saved := ManifestFile.with_manifest_hash d integ
                 (ManifestFile.hash_without_integrity dumps d) in
  load_ file = Ok (JObj saved) ->
  ManifestFile.load text load_ dumps file = Ok (ManifestFile.mkManifest (JObj saved)).
Proof.
  intros saved Hl. unfold ManifestFile.load. rewrite Hl. cbn [bind].
  subst saved. set (h := ManifestFile.hash_without_integrity dumps d).
  assert (H1 : ManifestFile.with_manifest_hash d integ h !! "integrity"%string
               = Some (JObj (<["manifest_hash"%string := JStr h]> integ)))
    by apply lookup_insert_eq.
  unfold ManifestFile.stored_manifest_hash. rewrite H1. cbn [bind].
  rewrite lookup_insert_eq.
  assert (H2 : truthy (JStr h) = true) by apply truthy_hash.
  rewrite H2, compute_hash_dict, hash_with_manifest_hash. cbn [bind].
  fold h. unfold ManifestFile.differs. rewrite String.eqb_refl. reflexivity.
Qed.




(** C8: when the parsed manifest is a dictionary without an [integrity]
    block, or with an [integrity] block that has no [manifest_hash], [load]
    returns the manifest; nothing is hashed or compared, whatever the
    serialiser would give. *)
Theorem load_without_manifest_hash
    (text : Type) (json_load : text -> result json) (json_dumps_sorted : json -> string)
    (file : text) (d : gmap string json) :
  json_load file = Ok (JObj d) ->
  (d !! "integrity"%string = None
   \/ exists integrity, d !! "integrity"%string = Some (JObj integrity)
                     /\ integrity !! "manifest_hash"%string = None) ->
  ManifestFile.load text json_load json_dumps_sorted file
  = Ok (ManifestFile.mkManifest (JObj d)).
Proof.
  intros Hl Hno. unfold ManifestFile.load. rewrite Hl. cbn [bind].
  unfold ManifestFile.stored_manifest_hash.
  destruct Hno as [Hnone | (integrity & Hi & Hh)].
  - rewrite Hnone. reflexivity.
  - rewrite Hi. cbn [bind]. rewrite Hh. reflexivity.
Qed.

Lemma load_without_manifest_hash_witness :
  ManifestFile.load json Ok ManifestFile.example_dumps_sorted
    (JObj ManifestFile.example_no_hash)
  = Ok (ManifestFile.mkManifest (JObj ManifestFile.example_no_hash)).
Proof.
  apply (load_without_manifest_hash json Ok ManifestFile.example_dumps_sorted).
  - reflexivity.
  - right. exists {[ "merkle_root"%string := JStr "00" ]}. split; vm_compute; reflexivity.
Defined.

(** A [manifest_hash] that is present but false in Python's sense (here
    [null]) skips the check as well, also on content that does not hash to
    it; a non-dictionary [integrity] makes [load] fail on [.get]. *)
Example load_falsy_or_malformed_integrity :
  ManifestFile.load json Ok ManifestFile.example_dumps_sorted
    (JObj (<["integrity"%string := JObj {[ "manifest_hash"%string := JNull ]}]>
             ManifestFile.example_data))
  = Ok (ManifestFile.mkManifest
          (JObj (<["integrity"%string := JObj {[ "manifest_hash"%string := JNull ]}]>
                   ManifestFile.example_data)))
  /\ ManifestFile.load json Ok ManifestFile.example_dumps_sorted
       (JObj (<["integrity"%string := JInt 5]> ManifestFile.example_data))
     = Raise AttributeError.
Proof. split; vm_compute; reflexivity. Qed.

(** ** The Merkle tree *)

#[local] Open Scope nat_scope.

Example merkle_five_leaves_fanout_three :
  exists t proof,
    Merkle.init 5 (map encode_utf8 ["a"; "b"; "c"; "d"; "e"]%string) 3 = Some (Ok t)
    /\ length (Merkle.tree t) = 3%nat
    /\ Merkle.get_proof t 3 = Ok proof
    /\ length proof = 2%nat
    /\ Merkle.verify_proof t (encode_utf8 "d") 3 proof = Ok true
    /\ Merkle.verify_proof t (encode_utf8 "x") 3 proof = Ok false.
Proof.
  eexists. eexists.
  split; [vm_compute; reflexivity|].
  split; [reflexivity|].
  split; [vm_compute; reflexivity|].
  split; [reflexivity|].
  split; vm_compute; reflexivity.
Qed.

Lemma fromhex_hex_byte (x : byte) (rest : string) :
  Hex.fromhex (String (Hex.digit (Z_of_byte x / 16))
                 (String (Hex.digit (Z_of_byte x mod 16)) rest))
  = match Hex.fromhex rest with Some r => Some (x :: r) | None => None end.
Proof. destruct x; reflexivity. Qed.

Lemma fromhex_hex (b : bytes) : Hex.fromhex (Hex.hex b) = Some b.
Proof.
  induction b as [|x b IH]; [reflexivity|].
  cbn [Hex.hex]. rewrite fromhex_hex_byte, IH. reflexivity.
Qed.

Lemma chunks_lookup {A} (size : nat) (g fuel : nat) (l : list A) :
  (0 < size)%nat -> (length l <= fuel)%nat -> (g * size < length l)%nat ->
  chunks fuel size l !! g = Some (firstn size (skipn (g * size) l)).
Proof.
  intros Hs. revert fuel l. induction g as [|g IH]; intros fuel l Hfuel Hg.
  - destruct fuel as [|fuel]; [lia|]. destruct l as [|x l]; [cbn in Hg; lia|]. reflexivity.
  - destruct fuel as [|fuel]; [lia|]. destruct l as [|x l]; [cbn in Hg; lia|].
    cbn [chunks lookup list_lookup]. rewrite IH.
    + rewrite skipn_skipn. replace (S g * size)%nat with (g * size + size)%nat by lia.
      reflexivity.
    + rewrite length_skipn. cbn [length] in *. lia.
    + rewrite length_skipn. cbn [length] in *. lia.
Qed.

Lemma chunks_length_half {A} (size fuel : nat) (l : list A) :
  (2 <= size)%nat -> (length (chunks fuel size l) <= (length l + 1) / 2)%nat.
Proof.
  intros Hs. revert l. induction fuel as [|fuel IH]; intros l.
  - cbn. lia.
  - destruct l as [|x l]; [cbn; lia|].
    cbn [chunks length]. specialize (IH (skipn size (x :: l))).
    rewrite length_skipn in IH. cbn [length] in IH.
    destruct (Nat.le_gt_cases size (S (length l))) as [Hle|Hgt].
    + assert (H2 : ((S (length l) - size + 1) / 2 <= (S (length l) - 2 + 1) / 2)%nat)
        by (apply Nat.Div0.div_le_mono; lia).
      assert (H3 : (S (length l) + 1 = (S (length l) - 2 + 1) + 1 * 2)%nat) by lia.
      rewrite H3, Nat.div_add by lia. lia.
    + replace (S (length l) - size)%nat with 0%nat in IH by lia.
      cbn in IH.
      assert (1 <= (S (length l) + 1) / 2)%nat by (apply Nat.div_le_lower_bound; lia).
      lia.
Qed.

Lemma chunks_nonempty {A} (size fuel : nat) (l : list A) :
  (0 < fuel)%nat -> l <> [] -> chunks fuel size l <> [].
Proof. destruct fuel; [lia|]. destruct l; [congruence|]. discriminate. Qed.

(** The siblings collected at one level are the group without the node of
    the path. *)
Lemma siblings_flat_map (level : list bytes) (t n gs : nat) :
  (gs + n <= length level)%nat ->
  flat_map (fun i => if (i =? t)%nat then []
                     else match level !! i with Some h => [Hex.hex h] | None => [] end)
           (seq gs n)
  = map Hex.hex (if (t <? gs)%nat then firstn n (skipn gs level)
                 else firstn (t - gs) (firstn n (skipn gs level))
                        ++ skipn (S (t - gs)) (firstn n (skipn gs level))).
Proof.
  revert gs. induction n as [|n IH]; intros gs Hlen.
  - cbn [seq flat_map]. rewrite firstn_O.
    destruct (t <? gs)%nat; [reflexivity|]. rewrite firstn_nil, skipn_nil. reflexivity.
  - destruct (lookup_lt_is_Some_2 level gs ltac:(lia)) as [x Hx].
    assert (Hsk : skipn gs level = x :: skipn (S gs) level).
    { apply drop_S. exact Hx. }
    cbn [seq flat_map]. rewrite IH by lia. rewrite Hsk. cbn [firstn]. rewrite Hx.
    destruct (Nat.ltb_spec t gs) as [Hlt|Hge].
    + destruct (Nat.eqb_spec gs t) as [?|_]; [lia|].
      destruct (Nat.ltb_spec t (S gs)) as [_|?]; [|lia]. reflexivity.
    + destruct (Nat.eqb_spec gs t) as [->|Hne].
      * destruct (Nat.ltb_spec t (S t)) as [_|?]; [|lia].
        rewrite Nat.sub_diag. reflexivity.
      * destruct (Nat.ltb_spec t (S gs)) as [?|_]; [lia|].
        replace (t - gs)%nat with (S (t - S gs)) by lia. reflexivity.
Qed.

Lemma siblings_spec (fanout : nat) (level : list bytes) (ci : nat) :
  (0 < fanout)%nat -> (ci < length level)%nat ->
  let G := firstn fanout (skipn (ci / fanout * fanout) level) in
  Merkle.siblings fanout level ci
  = map Hex.hex (firstn (ci mod fanout) G ++ skipn (S (ci mod fanout)) G)
    /\ G !! (ci mod fanout) = level !! ci
    /\ length G = Nat.min fanout (length level - ci / fanout * fanout).
Proof.
  intros Hf Hci G.
  pose proof (Nat.div_mod_eq ci fanout) as Hdm.
  pose proof (Nat.mod_upper_bound ci fanout ltac:(lia)) as Hmod.
  assert (Hgs : (ci / fanout * fanout = ci - ci mod fanout)%nat) by lia.
  repeat split.
  - unfold Merkle.siblings.
    rewrite siblings_flat_map by lia.
    destruct (Nat.ltb_spec ci (ci / fanout * fanout)) as [?|_]; [lia|].
    replace (ci - ci / fanout * fanout)%nat with (ci mod fanout) by lia.
    assert (HG : firstn (Nat.min (ci / fanout * fanout + fanout) (length level)
                         - ci / fanout * fanout)
                        (skipn (ci / fanout * fanout) level) = G).
    { unfold G. destruct (Nat.le_gt_cases (ci / fanout * fanout + fanout) (length level)).
      - f_equal. lia.
      - rewrite !firstn_all2 by (rewrite length_skipn; lia). reflexivity. }
    rewrite HG. reflexivity.
  - unfold G. rewrite lookup_take_lt by lia. rewrite lookup_drop. f_equal. lia.
  - unfold G. rewrite length_firstn, length_skipn. reflexivity.
Qed.

(** The inner loop of [verify_proof] rebuilds the group from any list of
    sibling hashes of the right length, the running hash going to its
    position. *)
Lemma rebuild_group_general (fanout gs len pos : nat) (c : bytes) (rest : list string) :
  let n := Nat.min fanout (len - gs) in
  (pos < n)%nat ->
  forall (m k : nat) (acc sibs : list bytes),
    (k + m = fanout)%nat -> (k <= n)%nat ->
    (if (k <=? pos)%nat then length sibs + k + 1 = n else length sibs + k = n)%nat ->
    Merkle.rebuild_group (seq k m) gs len pos c acc (map Hex.hex sibs ++ rest)
    = Merkle.Group
        (acc ++ (if (k <=? pos)%nat then firstn (pos - k) sibs ++ c :: skipn (pos - k) sibs else sibs))
        rest.
Proof.
  intros n Hpos. induction m as [|m IH]; intros k acc sibs Hkm Hkn HS.
  - cbn [seq Merkle.rebuild_group].
    destruct (Nat.leb_spec k pos) as [?|_]; [lia|].
    destruct sibs; [|cbn in HS; lia]. cbn [map app]. rewrite app_nil_r. reflexivity.
  - cbn [seq Merkle.rebuild_group].
    destruct (Nat.leb_spec len (gs + k)) as [Hbreak|Hin].
    + destruct (Nat.leb_spec k pos) as [?|_]; [lia|].
      destruct sibs; [|cbn in HS; lia]. cbn [map app]. rewrite app_nil_r. reflexivity.
    + destruct (Nat.eqb_spec k pos) as [->|Hne].
      * rewrite Nat.leb_refl in *. rewrite IH; [|lia|lia|].
        -- destruct (Nat.leb_spec (S pos) pos) as [?|_]; [lia|].
           rewrite Nat.sub_diag. cbn [firstn skipn app]. rewrite <- app_assoc. reflexivity.
        -- destruct (Nat.leb_spec (S pos) pos) as [?|_]; lia.
      * destruct sibs as [|s sibs].
        { cbn [length] in HS. destruct (Nat.leb_spec k pos); lia. }
        cbn [map app]. rewrite fromhex_hex. rewrite IH; [|lia|lia|].
        -- rewrite <- app_assoc. cbn [app].
           destruct (Nat.leb_spec k pos) as [Hle|Hgt].
           ++ destruct (Nat.leb_spec (S k) pos) as [_|?]; [|lia].
              replace (pos - k)%nat with (S (pos - S k)) by lia. reflexivity.
           ++ destruct (Nat.leb_spec (S k) pos) as [?|_]; [lia|]. reflexivity.
        -- cbn [length] in HS.
           destruct (Nat.leb_spec k pos); destruct (Nat.leb_spec (S k) pos); lia.
Qed.

Lemma rebuild_group_spec (fanout gs len pos : nat) (c : bytes) (sibs : list bytes)
    (rest : list string) :
  (pos < Nat.min fanout (len - gs))%nat ->
  (length sibs + 1 = Nat.min fanout (len - gs))%nat ->
  Merkle.rebuild_group (seq 0 fanout) gs len pos c [] (map Hex.hex sibs ++ rest)
  = Merkle.Group (firstn pos sibs ++ c :: skipn pos sibs) rest.
Proof.
  intros Hpos HS.
  rewrite (rebuild_group_general fanout gs len pos c rest Hpos fanout 0 [] sibs); [|lia|lia|].
  - cbn [Nat.leb app]. rewrite Nat.sub_0_r. reflexivity.
  - cbn [Nat.leb]. lia.
Qed.

Lemma differ_at_concat (X Y : list bytes) : Merkle.differ_at X Y -> concat X <> concat Y.
Proof.
  intros (pre & a & b & suf & -> & -> & Hab) Heq.
  rewrite !concat_app in Heq. cbn [concat] in Heq.
  apply app_inv_head, app_inv_tail in Heq. contradiction.
Qed.

Lemma differ_at_insert (l : list bytes) (j : nat) (a b : bytes) :
  l !! j = Some a -> a <> b -> Merkle.differ_at l (<[j := b]> l).
Proof.
  intros Hj Hab. exists (take j l), a, b, (drop (S j) l). repeat split.
  - symmetry. apply take_drop_middle. exact Hj.
  - apply insert_take_drop. apply lookup_lt_Some in Hj. exact Hj.
  - exact Hab.
Qed.

Lemma differ_at_take_drop (X Y : list bytes) (pos : nat) (c : bytes) :
  Merkle.differ_at X Y ->
  Merkle.differ_at (take pos X ++ c :: drop pos X) (take pos Y ++ c :: drop pos Y).
Proof.
  intros (pre & a & b & suf & -> & -> & Hab).
  destruct (Nat.le_gt_cases pos (length pre)) as [Hle|Hgt].
  - exists (take pos pre ++ c :: drop pos pre), a, b, suf.
    rewrite !take_app_le, !drop_app_le by exact Hle.
    repeat split; [| | exact Hab]; rewrite <- ?app_assoc; cbn [app]; reflexivity.
  - exists pre, a, b, (take (pos - S (length pre)) suf ++ c :: drop (pos - S (length pre)) suf).
    rewrite !take_app_ge, !drop_app_ge by lia.
    replace (pos - length pre) with (S (pos - S (length pre))) by lia.
    cbn [take drop].
    repeat split; [| | exact Hab]; rewrite <- ?app_assoc; cbn [app]; reflexivity.
Qed.

Lemma take_drop_remove {A} (G : list A) (pos : nat) (c : A) :
  pos < length G ->
  length (take pos G ++ drop (S pos) G) + 1 = length G
  /\ take pos (take pos G ++ drop (S pos) G) ++ c :: drop pos (take pos G ++ drop (S pos) G)
     = take pos G ++ c :: drop (S pos) G.
Proof.
  intros Hpos.
  assert (Hlen : length (take pos G) = pos) by (rewrite length_take; lia).
  split.
  - rewrite length_app, length_drop, Hlen. lia.
  - rewrite take_app_length', drop_app_length' by (symmetry; exact Hlen). reflexivity.
Qed.

(** One level of the tree, seen from a node [c] at index [ci]. *)
Lemma level_step (f : nat) (l u : list bytes) (ci : nat) (c : bytes) :
  Merkle.next_level f l = Ok u -> l !! ci = Some c ->
  let G := take f (drop (ci / f * f) l) in
  let pos := ci mod f in
  u !! (ci / f) = Some (Merkle._hash (concat G))
  /\ G !! pos = Some c
  /\ pos < length G
  /\ Merkle.siblings f l ci = map Hex.hex (take pos G ++ drop (S pos) G)
  /\ forall c' sibs rest,
       length sibs + 1 = length G ->
       Merkle.rebuild_group (seq 0 f) (ci / f * f) (length l) pos c' [] (map Hex.hex sibs ++ rest)
       = Merkle.Group (take pos sibs ++ c' :: drop pos sibs) rest.
Proof.
  intros Hnext Hc G pos.
  destruct f as [|f']; [discriminate Hnext|]. set (f := S f') in *.
  assert (Hf : 0 < f) by (unfold f; lia).
  pose proof (lookup_lt_Some _ _ _ Hc) as Hci.
  destruct (siblings_spec f l ci Hf Hci) as (Hsib & HG & HlenG). fold G in Hsib, HG, HlenG.
  fold pos in Hsib, HG.
  pose proof (Nat.mod_upper_bound ci f ltac:(lia)) as Hmod. fold pos in Hmod.
  pose proof (Nat.div_mod_eq ci f) as Hdm. fold pos in Hdm.
  assert (Hpos : pos < length G).
  { rewrite HlenG. lia. }
  repeat split.
  - unfold Merkle.next_level in Hnext. fold f in Hnext. injection Hnext as <-.
    rewrite list_lookup_fmap, chunks_lookup by lia. reflexivity.
  - rewrite HG. exact Hc.
  - exact Hpos.
  - exact Hsib.
  - intros c' sibs rest Hs. apply rebuild_group_spec; rewrite <- HlenG; lia.
Qed.

Lemma linked_last (f : nat) (us : list (list bytes)) (l : list bytes) :
  Merkle.linked f l us -> exists top, last (l :: us) = Some [top].
Proof.
  revert l. induction us as [|u us IH]; intros l Hl.
  - cbn in Hl. destruct l as [|top [|? ?]]; try discriminate Hl. exists top. reflexivity.
  - destruct Hl as (_ & _ & Hu). destruct (IH u Hu) as [top Htop]. exists top.
    rewrite last_cons_cons. exact Htop.
Qed.

(** A proof produced by [get_proof] makes [verify_proof] climb to the root. *)
Lemma verify_levels_honest (f : nat) (us : list (list bytes)) :
  forall (l : list bytes) (ci : nat) (c : bytes) (rest : list string) (top : bytes),
    Merkle.linked f l us -> l !! ci = Some c -> last (l :: us) = Some [top] ->
    Merkle.verify_levels f (removelast (l :: us)) c ci
      (Merkle.proof_levels f (removelast (l :: us)) ci ++ rest)
    = Ok (Some top).
Proof.
  induction us as [|u us IH]; intros l ci c rest top Hl Hc Htop.
  - cbn in Hl. destruct l as [|x [|? ?]]; try discriminate Hl.
    cbn in Htop. injection Htop as <-.
    destruct ci as [|ci]; [|discriminate Hc]. cbn in Hc. injection Hc as <-. reflexivity.
  - destruct Hl as (Hlen & Hnext & Hu).
    destruct (level_step f l u ci c Hnext Hc) as (Hup & HG & Hpos & Hsib & Hreb).
    set (G := take f (drop (ci / f * f) l)) in *. set (pos := ci mod f) in *.
    change (removelast (l :: u :: us)) with (l :: removelast (u :: us)).
    cbn [Merkle.verify_levels Merkle.proof_levels]. rewrite Hsib, <- app_assoc.
    destruct (take_drop_remove G pos c Hpos) as (Hlen' & Hre).
    rewrite (Hreb c _ _ Hlen'), Hre, (take_drop_middle G pos c HG).
    apply IH; [exact Hu | exact Hup |]. rewrite last_cons_cons in Htop. exact Htop.
Qed.

Lemma collision_true (x y : bytes) :
  x <> y -> Merkle._hash x = Merkle._hash y -> Merkle.collision x y = true.
Proof.
  intros Hne Heq. unfold Merkle.collision.
  rewrite bool_decide_false by exact Hne. rewrite bool_decide_true by exact Heq. reflexivity.
Qed.

Lemma collision_same (x : bytes) : Merkle.collision x x = false.
Proof. unfold Merkle.collision. rewrite bool_decide_true by reflexivity. reflexivity. Qed.

Lemma run_collides_cons (x y : bytes) (xs ys : list bytes) :
  Merkle.run_collides (x :: xs) (y :: ys)
  = Merkle.collision x y || Merkle.run_collides xs ys.
Proof. reflexivity. Qed.

(** A running hash that differs from the node of the tree keeps differing up
    to the root, or the two runs hash different inputs to one digest on the
    way. *)
Lemma verify_levels_diverge (f : nat) (us : list (list bytes)) :
  forall (l : list bytes) (ci : nat) (c c' : bytes) (rest : list string) (top : bytes),
    Merkle.linked f l us -> l !! ci = Some c -> last (l :: us) = Some [top] ->
    c' <> c ->
    (exists h', Merkle.verify_levels f (removelast (l :: us)) c' ci
                  (Merkle.proof_levels f (removelast (l :: us)) ci ++ rest) = Ok (Some h')
                /\ h' <> top)
    \/ Merkle.run_collides
         (Merkle.hashed_levels f (removelast (l :: us)) c ci
            (Merkle.proof_levels f (removelast (l :: us)) ci ++ rest))
         (Merkle.hashed_levels f (removelast (l :: us)) c' ci
            (Merkle.proof_levels f (removelast (l :: us)) ci ++ rest)) = true.
Proof.
  induction us as [|u us IH]; intros l ci c c' rest top Hl Hc Htop Hne.
  - left. exists c'. split; [reflexivity|].
    cbn in Hl. destruct l as [|x [|? ?]]; try discriminate Hl.
    cbn in Htop. injection Htop as <-.
    destruct ci as [|ci]; [|discriminate Hc]. cbn in Hc. injection Hc as <-. exact Hne.
  - destruct Hl as (Hlen & Hnext & Hu).
    destruct (level_step f l u ci c Hnext Hc) as (Hup & HG & Hpos & Hsib & Hreb).
    set (G := take f (drop (ci / f * f) l)) in *. set (pos := ci mod f) in *.
    change (removelast (l :: u :: us)) with (l :: removelast (u :: us)).
    cbn [Merkle.verify_levels Merkle.hashed_levels Merkle.proof_levels].
    rewrite Hsib, <- app_assoc.
    destruct (take_drop_remove G pos c' Hpos) as (Hlen' & Hre).
    destruct (take_drop_remove G pos c Hpos) as (_ & Hrec).
    rewrite (Hreb c' _ _ Hlen'), Hre, (Hreb c _ _ Hlen'), Hrec.
    rewrite (take_drop_middle G pos c HG). rewrite run_collides_cons.
    assert (Hdiff : concat G <> concat (take pos G ++ c' :: drop (S pos) G)).
    { intros Heq. symmetry in Heq. revert Heq.
      apply differ_at_concat. exists (take pos G), c', c, (drop (S pos) G).
      repeat split; [|exact Hne]. symmetry. apply take_drop_middle. exact HG. }
    destruct (decide (Merkle._hash (concat (take pos G ++ c' :: drop (S pos) G))
                      = Merkle._hash (concat G))) as [Heq|Hneq].
    + right. rewrite collision_true by (exact Hdiff || (symmetry; exact Heq)). reflexivity.
    + destruct (IH u (ci / f) (Merkle._hash (concat G))
                  (Merkle._hash (concat (take pos G ++ c' :: drop (S pos) G))) rest top
                  Hu Hup) as [Hleft|Hright];
        [rewrite last_cons_cons in Htop; exact Htop | exact Hneq | left; exact Hleft |].
      right. rewrite Hright. apply orb_true_r.
Qed.

(** A proof in which one hash has been replaced stops leading to the root,
    or the two runs hash different inputs to one digest on the way. *)
Lemma verify_levels_tampered (f : nat) (us : list (list bytes)) :
  forall (l : list bytes) (ci : nat) (c : bytes) (rest : list string) (top : bytes)
         (j : nat) (h' : bytes),
    Merkle.linked f l us -> l !! ci = Some c -> last (l :: us) = Some [top] ->
    j < length (Merkle.proof_levels f (removelast (l :: us)) ci) ->
    Merkle.proof_levels f (removelast (l :: us)) ci !! j <> Some (Hex.hex h') ->
    (exists h'', Merkle.verify_levels f (removelast (l :: us)) c ci
                   (<[j := Hex.hex h']> (Merkle.proof_levels f (removelast (l :: us)) ci) ++ rest)
                 = Ok (Some h'')
                 /\ h'' <> top)
    \/ Merkle.run_collides
         (Merkle.hashed_levels f (removelast (l :: us)) c ci
            (Merkle.proof_levels f (removelast (l :: us)) ci ++ rest))
         (Merkle.hashed_levels f (removelast (l :: us)) c ci
            (<[j := Hex.hex h']> (Merkle.proof_levels f (removelast (l :: us)) ci) ++ rest))
       = true.
Proof.
  induction us as [|u us IH]; intros l ci c rest top j h' Hl Hc Htop Hj Hne.
  - cbn in Hj. lia.
  - destruct Hl as (Hlen & Hnext & Hu).
    destruct (level_step f l u ci c Hnext Hc) as (Hup & HG & Hpos & Hsib & Hreb).
    set (G := take f (drop (ci / f * f) l)) in *. set (pos := ci mod f) in *.
    rewrite last_cons_cons in Htop.
    change (removelast (l :: u :: us)) with (l :: removelast (u :: us)) in *.
    cbn [Merkle.verify_levels Merkle.hashed_levels Merkle.proof_levels] in *.
    rewrite Hsib in *.
    set (H := take pos G ++ drop (S pos) G) in *.
    destruct (take_drop_remove G pos c Hpos) as (HlenH & Hre). fold H in HlenH, Hre.
    rewrite (take_drop_middle G pos c HG) in Hre.
    rewrite <- (app_assoc (map Hex.hex H)), (Hreb c _ _ HlenH), Hre.
    destruct (Nat.lt_ge_cases j (length (map Hex.hex H))) as [Hin|Hout].
    + rewrite insert_app_l by exact Hin.
      rewrite lookup_app_l in Hne by exact Hin.
      rewrite length_map in Hin.
      destruct (lookup_lt_is_Some_2 H j Hin) as [hj Hhj].
      assert (Hhne : hj <> h').
      { intros ->. apply Hne. rewrite list_lookup_fmap, Hhj. reflexivity. }
      change (map Hex.hex H) with (Hex.hex <$> H).
      rewrite <- list_fmap_insert, <- app_assoc.
      change (Hex.hex <$> <[j:=h']> H) with (map Hex.hex (<[j:=h']> H)).
      rewrite Hreb by (rewrite length_insert; exact HlenH).
      pose proof (differ_at_take_drop H (<[j:=h']> H) pos c
                    (differ_at_insert H j hj h' Hhj Hhne)) as Hd.
      rewrite Hre in Hd. apply differ_at_concat in Hd.
      set (G' := take pos (<[j:=h']> H) ++ c :: drop pos (<[j:=h']> H)) in *.
      rewrite run_collides_cons.
      destruct (decide (Merkle._hash (concat G') = Merkle._hash (concat G))) as [Heq|Hneq].
      * right. rewrite collision_true by (exact Hd || (symmetry; exact Heq)). reflexivity.
      * destruct (verify_levels_diverge f us u (ci / f) (Merkle._hash (concat G))
                    (Merkle._hash (concat G')) rest top Hu Hup Htop Hneq) as [Hleft|Hright];
          [left; exact Hleft|].
        right. rewrite Hright. apply orb_true_r.
    + rewrite length_app in Hj.
      rewrite insert_app_r_alt by exact Hout.
      rewrite lookup_app_r in Hne by exact Hout.
      rewrite <- app_assoc, (Hreb c _ _ HlenH), Hre.
      rewrite run_collides_cons, collision_same. cbn [orb].
      apply IH; [exact Hu | exact Hup | exact Htop | lia | exact Hne].
Qed.

Lemma build_levels_linked (f fuel : nat) :
  forall (l : list bytes) (us : list (list bytes)),
    Merkle.build_levels fuel f l = Some (Ok us) -> l <> [] -> Merkle.linked f l us.
Proof.
  induction fuel as [|fuel IH]; intros l us Hb Hl; cbn [Merkle.build_levels] in Hb;
    destruct (Nat.leb_spec (length l) 1) as [Hle|Hgt].
  - injection Hb as <-. cbn. destruct l; [congruence | cbn [length] in *; lia].
  - discriminate Hb.
  - injection Hb as <-. cbn. destruct l; [congruence | cbn [length] in *; lia].
  - destruct (Merkle.next_level f l) as [next|e] eqn:Hnext; [|discriminate Hb].
    destruct (Merkle.build_levels fuel f next) as [[rest|e]|] eqn:Hrest; try discriminate Hb.
    injection Hb as <-. cbn [Merkle.linked]. repeat split; [exact Hgt | exact Hnext |].
    apply IH; [exact Hrest|].
    unfold Merkle.next_level in Hnext. destruct f; [discriminate Hnext|].
    injection Hnext as <-. intros Hnil. apply map_eq_nil in Hnil.
    revert Hnil. apply chunks_nonempty; [lia | exact Hl].
Qed.

Lemma init_linked (fuel f : nat) (leaves : list bytes) (t : Merkle.MerkleTree) :
  Merkle.init fuel leaves f = Some (Ok t) -> leaves <> [] ->
  exists us top,
    t = Merkle.mkTree leaves f (map Merkle._hash leaves :: us) top
    /\ Merkle.linked f (map Merkle._hash leaves) us
    /\ last (map Merkle._hash leaves :: us) = Some [top].
Proof.
  intros Hinit Hne. unfold Merkle.init, Merkle._build_tree in Hinit.
  destruct leaves as [|x leaves]; [congruence|].
  destruct (Merkle.build_levels fuel f (map Merkle._hash (x :: leaves))) as [[us|e]|] eqn:Hb;
    try discriminate Hinit.
  pose proof (build_levels_linked f fuel _ us Hb ltac:(discriminate)) as Hlinked.
  destruct (linked_last f us _ Hlinked) as [top Htop].
  rewrite Htop in Hinit. injection Hinit as <-.
  exists us, top. repeat split; [exact Hlinked | exact Htop].
Qed.

Lemma linked_fanout_zero (us : list (list bytes)) (l : list bytes) :
  Merkle.linked 0 l us -> us = [].
Proof. destruct us as [|u us]; [reflexivity|]. intros (_ & Hnext & _). discriminate Hnext. Qed.

(** With a fanout of two or more the construction ends, on any non-empty
    list of leaves, within [length leaves] rounds. *)
Lemma build_levels_total (f : nat) :
  2 <= f ->
  forall (fuel : nat) (l : list bytes),
    length l <= fuel -> exists us, Merkle.build_levels fuel f l = Some (Ok us).
Proof.
  intros Hf. induction fuel as [|fuel IH]; intros l Hfuel; cbn [Merkle.build_levels];
    destruct (Nat.leb_spec (length l) 1) as [Hle|Hgt]; try (eexists; reflexivity); [lia|].
  unfold Merkle.next_level. destruct f as [|f']; [lia|].
  pose proof (chunks_length_half (S f') (length l) l Hf) as Hhalf.
  assert (Hdiv : (length l + 1) / 2 < length l) by (apply Nat.Div0.div_lt_upper_bound; lia).
  destruct (IH (map (fun group => Merkle._hash (concat group)) (chunks (length l) (S f') l)))
    as [us Hus]; [rewrite length_map; lia|].
  rewrite Hus. eexists; reflexivity.
Qed.

Lemma merkle_init_total (f : nat) (leaves : list bytes) :
  2 <= f -> leaves <> [] ->
  exists t, Merkle.init (length leaves) leaves f = Some (Ok t).
Proof.
  intros Hf Hne. unfold Merkle.init, Merkle._build_tree.
  destruct leaves as [|x leaves]; [congruence|].
  destruct (build_levels_total f Hf (length (x :: leaves)) (map Merkle._hash (x :: leaves)))
    as [us Hus]; [rewrite length_map; lia|].
  rewrite Hus.
  pose proof (build_levels_linked f _ _ us Hus ltac:(discriminate)) as Hlinked.
  destruct (linked_last f us _ Hlinked) as [top Htop].
  rewrite Htop. eexists; reflexivity.
Qed.

(** [get_proof] at a natural index. *)
Lemma getitem_nat {A} (level : list A) (i : nat) (x : A) :
  level !! i = Some x -> Merkle.getitem level (Z.of_nat i) = Ok x.
Proof.
  intros Hx. unfold Merkle.getitem.
  assert (Hi : (Z.of_nat i <? 0)%Z = false) by (apply Z.ltb_ge; lia).
  rewrite Hi. cbv zeta. rewrite Hi, Nat2Z.id, Hx. reflexivity.
Qed.

Lemma level_proof_from_nat (level : list bytes) (ci : nat) :
  forall n start,
    (0 < n -> start + n <= length level) ->
    Merkle.level_proof_from level (Z.of_nat ci) (map Z.of_nat (seq start n))
    = Ok (flat_map (fun i => if (i =? ci)%nat then []
                             else match level !! i with Some h => [Hex.hex h] | None => [] end)
                   (seq start n)).
Proof.
  induction n as [|n IH]; intros start Hlen; [reflexivity|].
  cbn [seq map Merkle.level_proof_from flat_map]. rewrite IH by lia.
  destruct (Nat.eqb_spec start ci) as [->|Hne].
  - rewrite Z.eqb_refl. reflexivity.
  - destruct (Z.eqb_spec (Z.of_nat start) (Z.of_nat ci)) as [?|_]; [lia|].
    destruct (lookup_lt_is_Some_2 level start ltac:(lia)) as [h Hh].
    rewrite (getitem_nat level start h Hh), Hh. reflexivity.
Qed.

Lemma level_proof_nat (f : nat) (level : list bytes) (ci : nat) :
  Merkle.level_proof f level (Z.of_nat ci) = Ok (Merkle.siblings f level ci).
Proof.
  unfold Merkle.level_proof, Merkle.siblings.
  rewrite <- Nat2Z.inj_div, <- Nat2Z.inj_mul.
  set (gs := ci / f * f).
  rewrite <- Nat2Z.inj_add, <- Nat2Z.inj_min.
  replace (Z.to_nat (Z.of_nat (Nat.min (gs + f) (length level)) - Z.of_nat gs))
    with (Nat.min (gs + f) (length level) - gs) by lia.
  set (n := Nat.min (gs + f) (length level) - gs).
  rewrite <- (level_proof_from_nat level ci n gs) by (unfold n; lia). f_equal.
  replace (seq gs n) with (seq (gs + 0) n) by (f_equal; lia).
  rewrite <- (fmap_add_seq gs 0 n).
  change (Nat.add gs <$> seq 0 n) with (map (Nat.add gs) (seq 0 n)).
  rewrite map_map. apply map_ext. intros d. lia.
Qed.

Lemma path_proof_nat (f : nat) (levels : list (list bytes)) :
  forall ci, Merkle.path_proof f levels (Z.of_nat ci) = Ok (Merkle.proof_levels f levels ci).
Proof.
  induction levels as [|level rest IH]; intros ci; [reflexivity|].
  cbn [Merkle.path_proof Merkle.proof_levels].
  rewrite level_proof_nat, <- Nat2Z.inj_div, IH. reflexivity.
Qed.

Lemma get_proof_nat (t : Merkle.MerkleTree) (i : nat) :
  i < length (Merkle.leaves t) ->
  Merkle.get_proof t (Z.of_nat i)
  = match Merkle.fanout t, removelast (Merkle.tree t) with
    | O, _ :: _ => Raise ZeroDivisionError
    | _, levels => Ok (Merkle.proof_levels (Merkle.fanout t) levels i)
    end.
Proof.
  intros Hi. unfold Merkle.get_proof.
  destruct (Z.leb_spec (Z.of_nat (length (Merkle.leaves t))) (Z.of_nat i)) as [?|_]; [lia|].
  destruct (Merkle.fanout t); [destruct (removelast (Merkle.tree t))|];
    rewrite ?path_proof_nat; reflexivity.
Qed.

(** C5: in a Merkle tree built over a non-empty list of leaves, the proof
    [get_proof] returns for a leaf index verifies with that leaf.  With any
    other leaf in its place, or with any one hash of the proof replaced by a
    different hash, [verify_proof] returns [False], provided the changed
    run does not hash, at one of its steps, a byte string that differs from
    the one the unchanged run hashes at that step and has the same SHA-256
    digest (the decidable [run_collides] over the inputs of the two runs). *)
Theorem merkle_proof_verifies_and_detects_changes
    (fuel f : nat) (leaves : list bytes) (t : Merkle.MerkleTree) (i : nat) (leaf : bytes) :
  Merkle.init fuel leaves f = Some (Ok t) ->
  leaves !! i = Some leaf ->
  exists proof,
    Merkle.get_proof t (Z.of_nat i) = Ok proof
    /\ Merkle.verify_proof t leaf i proof = Ok true
    /\ (forall leaf', leaf' <> leaf ->
          Merkle.run_collides (Merkle.hashed t leaf i proof) (Merkle.hashed t leaf' i proof)
          = false ->
          Merkle.verify_proof t leaf' i proof = Ok false)
    /\ (forall j h', j < length proof -> proof !! j <> Some (Hex.hex h') ->
          Merkle.run_collides (Merkle.hashed t leaf i proof)
            (Merkle.hashed t leaf i (<[j := Hex.hex h']> proof))
          = false ->
          Merkle.verify_proof t leaf i (<[j := Hex.hex h']> proof) = Ok false).
Proof.
  intros Hinit Hleaf.
  assert (Hne : leaves <> []) by (intros ->; discriminate Hleaf).
  destruct (init_linked fuel f leaves t Hinit Hne) as (us & top & -> & Hlinked & Htop).
  set (l := map Merkle._hash leaves) in *.
  assert (Hc : l !! i = Some (Merkle._hash leaf)).
  { unfold l. change (map Merkle._hash leaves) with (Merkle._hash <$> leaves).
    rewrite list_lookup_fmap, Hleaf. reflexivity. }
  pose proof (lookup_lt_Some _ _ _ Hleaf) as Hi.
  assert (Hlevels : match f, removelast (l :: us) with
                    | O, _ :: _ => False
                    | _, _ => True
                    end).
  { destruct f; [|exact I]. rewrite (linked_fanout_zero us l Hlinked). exact I. }
  exists (Merkle.proof_levels f (removelast (l :: us)) i).
  rewrite get_proof_nat by exact Hi.
  unfold Merkle.verify_proof, Merkle.hashed.
  cbn [Merkle.leaves Merkle.fanout Merkle.tree Merkle.root].
  repeat split.
  - destruct f; [|reflexivity].
    destruct (removelast (l :: us)); [reflexivity | destruct Hlevels].
  - assert (Hv := verify_levels_honest f us l i (Merkle._hash leaf) [] top Hlinked Hc Htop).
    rewrite app_nil_r in Hv.
    destruct f; [destruct (removelast (l :: us)); [|destruct Hlevels]|];
      rewrite Hv, bool_decide_eq_true_2; reflexivity.
  - intros leaf' Hleaf' Hrun. rewrite run_collides_cons in Hrun.
    apply orb_false_elim in Hrun as [Hfirst Hrest].
    assert (Hneq : Merkle._hash leaf' <> Merkle._hash leaf).
    { intros Heq. rewrite collision_true in Hfirst; [discriminate Hfirst | |].
      - intros E. apply Hleaf'. symmetry. exact E.
      - symmetry. exact Heq. }
    destruct (verify_levels_diverge f us l i (Merkle._hash leaf) (Merkle._hash leaf') [] top
                Hlinked Hc Htop Hneq) as [(h' & Hv & Hh')|Hcol].
    + rewrite app_nil_r in Hv.
      destruct f; [destruct (removelast (l :: us)); [|destruct Hlevels]|];
        rewrite Hv, bool_decide_eq_false_2; (reflexivity || exact Hh').
    + rewrite app_nil_r in Hcol. rewrite Hcol in Hrest. discriminate Hrest.
  - intros j h' Hj Hjne Hrun. rewrite run_collides_cons in Hrun.
    apply orb_false_elim in Hrun as [_ Hrest].
    destruct (verify_levels_tampered f us l i (Merkle._hash leaf) [] top j h'
                Hlinked Hc Htop Hj Hjne) as [(h'' & Hv & Hh'')|Hcol].
    + rewrite app_nil_r in Hv.
      destruct f; [destruct (removelast (l :: us)); [|destruct Hlevels]|];
        rewrite Hv, bool_decide_eq_false_2; (reflexivity || exact Hh'').
    + rewrite !app_nil_r in Hcol. rewrite Hcol in Hrest. discriminate Hrest.
Qed.

(** On the three-leaf example tree: the proof of leaf 1 verifies with the
    leaf; with the leaf "B" in place of "b", and with the second hash of
    the proof replaced by the hash of the empty string, no two inputs of
    the runs collide and [verify_proof] returns [False]. *)
Lemma merkle_proof_witness :
  Merkle.get_proof Merkle.example_tree 1 = Ok Merkle.example_proof
  /\ Merkle.verify_proof Merkle.example_tree (encode_utf8 "b") 1 Merkle.example_proof = Ok true
  /\ Merkle.verify_proof Merkle.example_tree (encode_utf8 "B") 1 Merkle.example_proof = Ok false
  /\ Merkle.verify_proof Merkle.example_tree (encode_utf8 "b") 1
       (<[1%nat := Hex.hex (Merkle._hash [])]> Merkle.example_proof) = Ok false.
Proof.
  destruct (merkle_proof_verifies_and_detects_changes 3 2 Merkle.example_leaves
              Merkle.example_tree 1 (encode_utf8 "b"))
    as (proof & Hproof & Hverify & Hleaf & Hhash).
  - vm_compute. reflexivity.
  - reflexivity.
  - assert (Hp : proof = Merkle.example_proof).
    { assert (He : Merkle.get_proof Merkle.example_tree (Z.of_nat 1) = Ok Merkle.example_proof)
        by (vm_compute; reflexivity).
      rewrite He in Hproof. injection Hproof as <-. reflexivity. }
    subst proof. split; [vm_compute; reflexivity|]. split; [exact Hverify|]. split.
    + apply Hleaf; [discriminate | vm_compute; reflexivity].
    + apply Hhash; [vm_compute; lia | vm_compute; discriminate | vm_compute; reflexivity].
Defined.

(** On the example tree the changed leaf and the changed proof are rejected
    outright; [bytes.fromhex] reads both letter cases of a digit. *)
Example merkle_example_rejections :
  Merkle.get_proof Merkle.example_tree 1 = Ok Merkle.example_proof
  /\ length Merkle.example_proof = 2%nat
  /\ Merkle.verify_proof Merkle.example_tree (encode_utf8 "b") 1 Merkle.example_proof = Ok true
  /\ Merkle.verify_proof Merkle.example_tree (encode_utf8 "B") 1 Merkle.example_proof = Ok false
  /\ Merkle.verify_proof Merkle.example_tree (encode_utf8 "b") 1
       (<[1%nat := Hex.hex (Merkle._hash [])]> Merkle.example_proof) = Ok false
  /\ Merkle.verify_proof Merkle.example_tree (encode_utf8 "b") 1 (take 1 Merkle.example_proof)
     = Ok false
  /\ Hex.fromhex "AB0f" = Hex.fromhex "ab0F".
Proof.
  do 6 (split; [vm_compute; reflexivity|]). vm_compute. reflexivity.
Qed.

#[local] Open Scope Z_scope.

(** ** The LDPC codec *)

#[local] Open Scope nat_scope.

(** With the rotating sampler: a codec whose encoder output fails the
    decoder's own parity checks, and what [decode_hard] then returns. *)
Example encode_leaves_syndrome :
  exists c,
    LDPC.init nat Z.to_nat LDPC.rotating_choice 5 1 = Ok c
    /\ LDPC.encode c [true] = Ok [true; true; false; true; true]
    /\ LDPC.syndrome (LDPC.H c) [true; true; false; true; true] = [true; false; true; false]
    /\ LDPC.decode_hard c [true; true; false; true; true] 50 = Ok ([true], false).
Proof.
  eexists. split; [vm_compute; reflexivity|].
  do 2 (split; [vm_compute; reflexivity|]). vm_compute. reflexivity.
Qed.

Lemma dot_cons (a b : bool) (x y : list bool) :
  LDPC.dot (a :: x) (b :: y) = (if a && b then 1 else 0) + LDPC.dot x y.
Proof. reflexivity. Qed.

Lemma dot_le_l (x y : list bool) : LDPC.dot x y <= LDPC.weight x.
Proof.
  revert y. induction x as [|a x IH]; intros [|b y]; cbn [LDPC.weight]; try (cbn; lia).
  rewrite dot_cons. specialize (IH y). destruct a, b; cbn [andb]; lia.
Qed.

Lemma dot_le_r (x y : list bool) : LDPC.dot x y <= LDPC.weight y.
Proof.
  revert y. induction x as [|a x IH]; intros [|b y]; cbn [LDPC.weight]; try (cbn; lia).
  rewrite dot_cons. specialize (IH y). destruct a, b; cbn [andb]; lia.
Qed.

Lemma dot_self (x : list bool) : LDPC.dot x x = LDPC.weight x.
Proof.
  induction x as [|a x IH]; [reflexivity|].
  rewrite dot_cons. cbn [LDPC.weight]. rewrite IH. destruct a; reflexivity.
Qed.

(** Two vectors of one weight whose product has that weight are equal. *)
Lemma dot_full_eq (x y : list bool) :
  length x = length y -> LDPC.weight x = LDPC.weight y -> LDPC.dot x y = LDPC.weight x ->
  x = y.
Proof.
  revert y. induction x as [|a x IH]; intros [|b y] Hlen Hw Hd; try discriminate Hlen;
    [reflexivity|].
  rewrite dot_cons in Hd. cbn [LDPC.weight] in Hw, Hd. injection Hlen as Hlen.
  pose proof (dot_le_l x y). pose proof (dot_le_r x y).
  destruct a, b; cbn [andb] in Hd; try lia; f_equal; apply IH; lia.
Qed.

Lemma dot_flip (row w : list bool) (j : nat) :
  j < length w ->
  Nat.odd (LDPC.dot row (LDPC.flip j w)) = xorb (Nat.odd (LDPC.dot row w)) (nth j row false).
Proof.
  unfold LDPC.flip. revert w j. induction row as [|a row IH]; intros w j Hj.
  - destruct j; cbn; reflexivity.
  - destruct w as [|x w]; [cbn in Hj; lia|]. destruct j as [|j].
    + cbn [alter list_alter nth]. rewrite !dot_cons, !Nat.odd_add.
      destruct a, x; cbn; destruct (Nat.odd (LDPC.dot row w)); reflexivity.
    + cbn [alter list_alter nth]. rewrite !dot_cons, !Nat.odd_add.
      rewrite (IH w j) by (cbn in Hj; lia).
      destruct (a && x), (Nat.odd (LDPC.dot row w)), (nth j row false); reflexivity.
Qed.

Lemma weight_map_zero {A} (f : A -> bool) (l : list A) :
  LDPC.weight (map f l) = 0 -> forall x, x ∈ l -> f x = false.
Proof.
  induction l as [|a l IH]; intros Hw x Hx; [inversion Hx|].
  cbn [map LDPC.weight] in Hw.
  apply elem_of_cons in Hx as [->|Hx].
  - destruct (f a); [lia | reflexivity].
  - apply IH; [lia | exact Hx].
Qed.

(** After one flip of a word that passes every check, the syndrome is the
    column of the flipped bit. *)
Lemma syndrome_flip (H : list (list bool)) (w : list bool) (j : nat) :
  j < length w -> LDPC.weight (LDPC.syndrome H w) = 0 ->
  LDPC.syndrome H (LDPC.flip j w) = LDPC.column H j.
Proof.
  intros Hj Hw. unfold LDPC.syndrome, LDPC.column. apply map_ext_in. intros row Hrow.
  rewrite dot_flip by exact Hj.
  rewrite (weight_map_zero _ H Hw row); [reflexivity|]. apply list_elem_of_In. exact Hrow.
Qed.

Lemma flip_flip (j : nat) (w : list bool) : LDPC.flip j (LDPC.flip j w) = w.
Proof.
  unfold LDPC.flip. revert j. induction w as [|x w IH]; intros [|j]; cbn; try reflexivity.
  - rewrite negb_involutive. reflexivity.
  - f_equal. apply IH.
Qed.

Lemma length_flip (j : nat) (w : list bool) : length (LDPC.flip j w) = length w.
Proof. unfold LDPC.flip. apply length_alter. Qed.

(** [np.argmax] returns the first position of the largest value. *)
Lemma argmax_from_keep (rest : list nat) (i bi b : nat) :
  Forall (fun x => x <= b) rest -> LDPC.argmax_from i bi b rest = bi.
Proof.
  revert i. induction rest as [|x rest IH]; intros i Hall; [reflexivity|].
  inversion Hall as [|? ? Hx Hrest]; subst. cbn [LDPC.argmax_from].
  destruct (Nat.ltb_spec b x); [lia|]. apply IH. exact Hrest.
Qed.

Lemma argmax_from_first (pre post : list nat) (v : nat) :
  Forall (fun x => x < v) pre -> Forall (fun x => x <= v) post ->
  forall i bi b, b < v ->
    LDPC.argmax_from i bi b (pre ++ v :: post) = i + length pre.
Proof.
  intros Hpre Hpost. induction Hpre as [|x pre Hx Hpre IH]; intros i bi b Hb.
  - cbn [app LDPC.argmax_from length]. destruct (Nat.ltb_spec b v); [|lia].
    rewrite argmax_from_keep by exact Hpost. lia.
  - cbn [app LDPC.argmax_from length]. destruct (Nat.ltb_spec b x).
    + rewrite IH by exact Hx. lia.
    + rewrite IH by exact Hb. lia.
Qed.

Lemma argmax_first_max (pre post : list nat) (v : nat) :
  Forall (fun x => x < v) pre -> Forall (fun x => x <= v) post ->
  LDPC.argmax (pre ++ v :: post) = Some (length pre).
Proof.
  intros Hpre Hpost. destruct pre as [|x pre].
  - cbn. rewrite argmax_from_keep by exact Hpost. reflexivity.
  - inversion Hpre as [|? ? Hx Hpre']; subst. cbn [app LDPC.argmax length].
    rewrite (argmax_from_first pre post v Hpre' Hpost 1 0 x Hx). reflexivity.
Qed.

Lemma generate_parity_matrix_pos {random_state : Type} (seed : Z -> random_state)
    (choice : random_state -> nat -> nat -> result (list nat * random_state)) (n m : nat) :
  0 < m ->
  LDPC._generate_parity_matrix random_state seed choice n m
  = (let* columns := LDPC.draw_columns random_state choice n m (seed 42%Z) in
     Ok (map (fun r => map (fun indices => bool_decide (r ∈ indices)) columns) (seq 0 m))).
Proof.
  intros Hm. destruct m as [|m']; [lia | reflexivity].
Qed.

Section LDPCFromSampler.

Context {random_state : Type} (seed : Z -> random_state)
        (choice : random_state -> nat -> nat -> result (list nat * random_state))
        (Hchoice : LDPC.sampler_contract choice).

Lemma draw_columns_spec (cols m : nat) :
  forall st cs,
    LDPC.draw_columns random_state choice cols m st = Ok cs ->
    length cs = cols
    /\ Forall (fun idx => NoDup idx /\ length idx = 3 /\ Forall (fun r => r < m) idx) cs.
Proof.
  induction cols as [|cols IH]; intros st cs Hd; cbn [LDPC.draw_columns] in Hd.
  - injection Hd as <-. split; [reflexivity | constructor].
  - pose proof (Hchoice st m 3) as Hc.
    destruct (3 <=? m).
    + destruct Hc as (idx & st' & Hc & Hnd & Hlen & Hlt). rewrite Hc in Hd. cbn [bind fst snd] in Hd.
      destruct (LDPC.draw_columns random_state choice cols m st') as [rest|e] eqn:Hrest;
        [|discriminate Hd].
      cbn [bind] in Hd. injection Hd as <-. destruct (IH st' rest Hrest) as (Hl & Hall).
      split; [cbn; lia | constructor; [tauto | exact Hall]].
    + destruct Hc as (e & Hc). rewrite Hc in Hd. discriminate Hd.
Qed.

(** What [__init__] establishes: the dimensions, and a parity-check matrix
    given by one set of three row indices per column. *)
Lemma init_spec (n k : nat) (c : LDPC.SimpleLDPC) :
  LDPC.init random_state seed choice n k = Ok c ->
  k <= n
  /\ exists cs,
       c = LDPC.mkLDPC n k (n - k)
             (map (fun r => map (fun idx => bool_decide (r ∈ idx)) cs) (seq 0 (n - k)))
       /\ length cs = n
       /\ Forall (fun idx => NoDup idx /\ length idx = 3 /\ Forall (fun r => r < n - k) idx) cs.
Proof.
  unfold LDPC.init, LDPC._generate_parity_matrix. intros Hinit.
  destruct (Nat.ltb_spec n k) as [?|Hle]; [discriminate Hinit|].
  destruct (n - k) as [|m'] eqn:Hm; [discriminate Hinit|].
  destruct (LDPC.draw_columns random_state choice n (S m') (seed 42)) as [cs|e] eqn:Hd;
    [|discriminate Hinit].
  cbn [bind] in Hinit. injection Hinit as <-.
  destruct (draw_columns_spec n (S m') _ cs Hd) as (Hlen & Hall).
  split; [exact Hle|]. exists cs. auto.
Qed.

End LDPCFromSampler.

Lemma column_of_index_sets (cs : list (list nat)) (m i : nat) (idx : list nat) :
  cs !! i = Some idx ->
  LDPC.column (map (fun r => map (fun idx => bool_decide (r ∈ idx)) cs) (seq 0 m)) i
  = map (fun r => bool_decide (r ∈ idx)) (seq 0 m).
Proof.
  intros Hi. unfold LDPC.column. rewrite map_map. apply map_ext. intros r.
  rewrite nth_lookup. change (map ?f cs) with (f <$> cs).
  rewrite list_lookup_fmap, Hi. reflexivity.
Qed.

Lemma weight_indicator (P : nat -> Prop) `{!forall x, Decision (P x)} (xs : list nat) :
  LDPC.weight (map (fun r => bool_decide (P r)) xs) = length (filter P xs).
Proof.
  induction xs as [|a xs IH]; [reflexivity|].
  cbn [map LDPC.weight]. rewrite IH. case_bool_decide.
  - rewrite filter_cons_True by assumption. reflexivity.
  - rewrite filter_cons_False by assumption. reflexivity.
Qed.

Lemma weight_index_set (idx : list nat) (m : nat) :
  NoDup idx -> Forall (fun r => r < m) idx ->
  LDPC.weight (map (fun r => bool_decide (r ∈ idx)) (seq 0 m)) = length idx.
Proof.
  intros Hnd Hlt. rewrite (weight_indicator (fun r => r ∈ idx)).
  apply Permutation_length, NoDup_Permutation.
  - apply NoDup_filter, NoDup_seq.
  - exact Hnd.
  - intros x. rewrite list_elem_of_filter, elem_of_seq. split; [tauto|].
    intros Hx. split; [exact Hx|]. rewrite Forall_forall in Hlt. specialize (Hlt x Hx). lia.
Qed.

Lemma decode_loop_codeword (c : LDPC.SimpleLDPC) (w : list bool) (iterations : nat) :
  LDPC.weight (LDPC.syndrome (LDPC.H c) w) = 0 ->
  LDPC.decode_loop c (S iterations) w = Ok (take (LDPC.k c) w, true).
Proof. intros Hw. cbn [LDPC.decode_loop]. rewrite Hw. reflexivity. Qed.

(** Bit flipping undoes a single flipped bit of a word that passes every
    check, when every column has three ones and no earlier column equals the
    column of the flipped bit. *)
Lemma decode_loop_single_flip (n k : nat) (cs : list (list nat)) (w : list bool)
    (j iterations : nat) :
  let H := map (fun r => map (fun idx => bool_decide (r ∈ idx)) cs) (seq 0 (n - k)) in
  let c := LDPC.mkLDPC n k (n - k) H in
  length cs = n ->
  Forall (fun idx => NoDup idx /\ length idx = 3 /\ Forall (fun r => r < n - k) idx) cs ->
  length w = n ->
  LDPC.weight (LDPC.syndrome H w) = 0 ->
  j < n ->
  (forall i, i < j -> LDPC.column H i <> LDPC.column H j) ->
  LDPC.decode_loop c (S (S iterations)) (LDPC.flip j w) = Ok (take k w, true).
Proof.
  intros H c Hcs Hall Hw Hsyn Hj Hdistinct.
  assert (Hweight : forall i, i < n -> LDPC.weight (LDPC.column H i) = 3).
  { intros i Hi. destruct (lookup_lt_is_Some_2 cs i ltac:(lia)) as [idx Hidx].
    unfold H. rewrite (column_of_index_sets cs (n - k) i idx Hidx).
    rewrite Forall_forall in Hall.
    destruct (Hall idx (list_elem_of_lookup_2 _ _ _ Hidx)) as (Hnd & Hlen & Hlt).
    rewrite weight_index_set by assumption. exact Hlen. }
  assert (Hlencol : forall i, length (LDPC.column H i) = length H).
  { intros i. unfold LDPC.column. apply length_map. }
  change (LDPC.decode_loop c (S (S iterations)) (LDPC.flip j w))
    with (let syn := LDPC.syndrome (LDPC.H c) (LDPC.flip j w) in
          if Nat.eqb (LDPC.weight syn) 0 then Ok (take (LDPC.k c) (LDPC.flip j w), true)
          else bind (LDPC.flip_step c syn (LDPC.flip j w))
                    (fun codeword' => LDPC.decode_loop c (S iterations) codeword')).
  cbn [LDPC.H LDPC.k c]. cbv zeta.
  rewrite (syndrome_flip H w j) by (rewrite ?Hw; assumption).
  rewrite (Hweight j Hj). cbn [Nat.eqb].
  unfold LDPC.flip_step. cbn [LDPC.H LDPC.n c].
  assert (Hsplit : seq 0 n = seq 0 j ++ j :: seq (S j) (n - S j)).
  { replace n with (j + S (n - S j)) at 1 by lia. rewrite seq_app. reflexivity. }
  rewrite Hsplit, map_app. cbn [map].
  set (pre := map (fun i => LDPC.dot (LDPC.column H i) (LDPC.column H j)) (seq 0 j)).
  set (post := map (fun i => LDPC.dot (LDPC.column H i) (LDPC.column H j)) (seq (S j) (n - S j))).
  rewrite dot_self, (Hweight j Hj).
  assert (Hlenpre : length pre = j) by (unfold pre; rewrite length_map, length_seq; reflexivity).
  assert (Hpre : Forall (fun x => x < 3) pre).
  { unfold pre. apply Forall_map, Forall_forall. intros i Hi.
    apply list_elem_of_In, in_seq in Hi.
    pose proof (dot_le_r (LDPC.column H i) (LDPC.column H j)) as Hle.
    rewrite (Hweight j Hj) in Hle.
    destruct (Nat.eq_dec (LDPC.dot (LDPC.column H i) (LDPC.column H j)) 3) as [Heq|Hneq];
      [|cbn beta; lia].
    exfalso. apply (Hdistinct i ltac:(lia)). apply dot_full_eq.
    - rewrite !Hlencol. reflexivity.
    - rewrite !Hweight by lia. reflexivity.
    - rewrite Hweight by lia. exact Heq. }
  assert (Hpost : Forall (fun x => x <= 3) post).
  { unfold post. apply Forall_map, Forall_forall. intros i _. cbn beta.
    rewrite <- (Hweight j Hj). apply dot_le_r. }
  rewrite (argmax_first_max pre post 3 Hpre Hpost), Hlenpre.
  rewrite <- Hlenpre at 1. rewrite nth_middle. cbn [Nat.ltb Nat.leb bind].
  rewrite flip_flip. apply (decode_loop_codeword c w iterations). exact Hsyn.
Qed.

Lemma encode_total (c : LDPC.SimpleLDPC) (b : list bool) :
  length b = LDPC.k c ->
  LDPC.encode c b
  = Ok (b ++ map (fun row => Nat.odd (LDPC.dot b (take (LDPC.k c) row))) (LDPC.H c)).
Proof. intros Hb. unfold LDPC.encode. rewrite Hb, Nat.eqb_refl. reflexivity. Qed.

(** C2, amended: for an LDPC codec built by [__init__] and a bit vector [b]
    of length [k] whose codeword [encode(b)] passes every parity check of
    [H], [decode_hard(encode(b))] returns [(b, True)]; and with bit [j] of
    the codeword flipped, [decode_hard] returns [(b, True)] as well when no
    column of [H] before column [j] equals it.  Two rounds suffice; the
    default is fifty. *)
Theorem decode_hard_recovers_checked_codewords
    (random_state : Type) (seed : Z -> random_state)
    (choice : random_state -> nat -> nat -> result (list nat * random_state))
    (n k : nat) (c : LDPC.SimpleLDPC) (b w : list bool) (j max_iter : nat) :
  LDPC.sampler_contract choice ->
  LDPC.init random_state seed choice n k = Ok c ->
  length b = k ->
  LDPC.encode c b = Ok w ->
  LDPC.weight (LDPC.syndrome (LDPC.H c) w) = 0 ->
  j < n ->
  (forall i, i < j -> LDPC.column (LDPC.H c) i <> LDPC.column (LDPC.H c) j) ->
  2 <= max_iter ->
  LDPC.decode_hard c w max_iter = Ok (b, true)
  /\ LDPC.decode_hard c (LDPC.flip j w) max_iter = Ok (b, true).
Proof.
  intros Hchoice Hinit Hb Henc Hsyn Hj Hdistinct Hiter.
  destruct (init_spec seed choice Hchoice n k c Hinit) as (Hkn & cs & -> & Hcs & Hall).
  cbn [LDPC.H LDPC.k LDPC.n] in *.
  rewrite encode_total in Henc by exact Hb. cbn [LDPC.H LDPC.k] in Henc.
  injection Henc as <-.
  set (H := map (fun r => map (fun idx => bool_decide (r ∈ idx)) cs) (seq 0 (n - k))) in *.
  set (parity := map (fun row => Nat.odd (LDPC.dot b (take k row))) H) in *.
  assert (Hlen : length (b ++ parity) = n).
  { unfold parity, H. rewrite length_app, !length_map, length_seq. lia. }
  assert (Htake : take k (b ++ parity) = b) by (apply take_app_length'; symmetry; exact Hb).
  destruct max_iter as [|[|iterations]]; [lia | lia |].
  unfold LDPC.decode_hard. cbn [LDPC.n LDPC.k].
  rewrite length_flip, Hlen, Nat.eqb_refl. cbn [negb].
  split.
  - rewrite decode_loop_codeword by exact Hsyn. cbn [LDPC.k]. rewrite Htake. reflexivity.
  - pose proof (decode_loop_single_flip n k cs (b ++ parity) j iterations Hcs Hall Hlen Hsyn Hj
                  Hdistinct) as Hflip.
    cbv zeta in Hflip. fold H in Hflip. rewrite Hflip, Htake. reflexivity.
Qed.

Lemma rotating_choice_contract : LDPC.sampler_contract LDPC.rotating_choice.
Proof.
  intros st m size. unfold LDPC.rotating_choice.
  destruct (Nat.leb_spec size m) as [Hle|Hgt].
  - destruct (Nat.ltb_spec m size) as [?|_]; [lia|].
    eexists _, _. split; [reflexivity|]. repeat split.
    + change (map ?f ?l) with (f <$> l). apply NoDup_fmap_2_strong; [|apply NoDup_seq].
      intros x y Hx Hy Heq. apply elem_of_seq in Hx, Hy.
      pose proof (Nat.div_mod_eq (st + x) m) as Ex.
      pose proof (Nat.div_mod_eq (st + y) m) as Ey.
      rewrite Heq in Ex.
      assert (Hq : (st + x) / m = (st + y) / m) by nia. rewrite Hq in Ex. lia.
    + rewrite length_map, length_seq. reflexivity.
    + apply Forall_map, Forall_forall. intros t Ht. apply list_elem_of_In, in_seq in Ht.
      apply Nat.mod_upper_bound. lia.
  - destruct (Nat.ltb_spec m size) as [_|?]; [|lia]. eexists. reflexivity.
Qed.

Lemma decode_hard_witness :
  LDPC.decode_hard LDPC.example_codec [true; true; false; false; true; true; false] 50
  = Ok ([true; true; false], true)
  /\ LDPC.decode_hard LDPC.example_codec
       (LDPC.flip 1 [true; true; false; false; true; true; false]) 50
     = Ok ([true; true; false], true).
Proof.
  apply (decode_hard_recovers_checked_codewords nat Z.to_nat LDPC.rotating_choice 7 3
           LDPC.example_codec [true; true; false] [true; true; false; false; true; true; false]
           1 50).
  - exact rotating_choice_contract.
  - vm_compute. reflexivity.
  - reflexivity.
  - vm_compute. reflexivity.
  - vm_compute. reflexivity.
  - lia.
  - intros i Hi. assert (i = 0) as -> by lia. vm_compute. discriminate.
  - lia.
Defined.

(** Three different indices below three are all of them. *)
Lemma full_index_set (idx : list nat) (r : nat) :
  NoDup idx -> length idx = 3 -> Forall (fun x => x < 3) idx -> r < 3 ->
  bool_decide (r ∈ idx) = true.
Proof.
  intros Hnd Hlen Hlt Hr.
  pose proof (weight_index_set idx 3 Hnd Hlt) as Hw. rewrite Hlen in Hw.
  cbn [seq map LDPC.weight] in Hw.
  destruct r as [|[|[|r]]]; [| | |lia];
    destruct (bool_decide (0 ∈ idx)), (bool_decide (1 ∈ idx)), (bool_decide (2 ∈ idx));
    cbn in Hw; try lia; reflexivity.
Qed.

(** With three parity bits every column holds all three checks, whatever the
    sampler draws: the (4, 1) codec has the all-ones matrix. *)
Lemma init_four_one (random_state : Type) (seed : Z -> random_state)
    (choice : random_state -> nat -> nat -> result (list nat * random_state))
    (c : LDPC.SimpleLDPC) :
  LDPC.sampler_contract choice ->
  LDPC.init random_state seed choice 4 1 = Ok c ->
  c = LDPC.mkLDPC 4 1 3 (repeat (repeat true 4) 3).
Proof.
  intros Hchoice Hinit.
  destruct (init_spec seed choice Hchoice 4 1 c Hinit) as (_ & cs & -> & Hcs & Hall).
  f_equal.
  destruct cs as [|c0 [|c1 [|c2 [|c3 [|? ?]]]]]; try discriminate Hcs.
  repeat match goal with
         | Hf : Forall _ (_ :: _) |- _ =>
             let Hx := fresh "Hx" in
             apply Forall_cons in Hf as [Hx Hf]; destruct Hx as (? & ? & ?)
         end.
  cbn [Nat.sub seq map repeat].
  rewrite !full_index_set by (assumption || lia). reflexivity.
Qed.

(** In the (4, 1) codec the codeword of [0] with bit 1 flipped is decoded by
    flipping bit 0 instead: [decode_hard] reports success on the wrong
    word. *)
Lemma decode_hard_four_one (random_state : Type) (seed : Z -> random_state)
    (choice : random_state -> nat -> nat -> result (list nat * random_state))
    (c : LDPC.SimpleLDPC) :
  LDPC.sampler_contract choice ->
  LDPC.init random_state seed choice 4 1 = Ok c ->
  LDPC.encode c [false] = Ok [false; false; false; false]
  /\ LDPC.decode_hard c [false; false; false; false] 50 = Ok ([false], true)
  /\ LDPC.decode_hard c (LDPC.flip 1 [false; false; false; false]) 50 = Ok ([true], true).
Proof.
  intros Hchoice Hinit. rewrite (init_four_one _ seed choice c Hchoice Hinit).
  repeat split; vm_compute; reflexivity.
Qed.

(** C2, as stated, fails: for the parameters (4, 1) and [b = [0]], no
    generator that honours the contract of [np.random.choice] gives a codec
    that decodes the codeword with bit 1 flipped back to [(b, True)]. *)
Lemma single_flip_decoded_to_wrong_word :
  ~ (exists (random_state : Type) (seed : Z -> random_state)
            (choice : random_state -> nat -> nat -> result (list nat * random_state))
            (c : LDPC.SimpleLDPC) (w : list bool),
        LDPC.sampler_contract choice
        /\ LDPC.init random_state seed choice 4 1 = Ok c
        /\ LDPC.encode c [false] = Ok w
        /\ LDPC.decode_hard c (LDPC.flip 1 w) 50 = Ok ([false], true)).
Proof.
  intros (random_state & seed & choice & c & w & Hchoice & Hinit & Henc & Hdec).
  destruct (decode_hard_four_one random_state seed choice c Hchoice Hinit)
    as (Henc' & _ & Hdec').
  rewrite Henc' in Henc. injection Henc as <-.
  rewrite Hdec' in Hdec. discriminate Hdec.
Qed.

#[local] Open Scope Z_scope.

(** ** The pipeline *)

#[local] Open Scope nat_scope.

Lemma chunks_nil {A} (fuel size : nat) : @chunks A fuel size [] = [].
Proof. destruct fuel; reflexivity. Qed.

Lemma chunks_concat {A} (size fuel : nat) (l : list A) :
  0 < size -> length l <= fuel -> concat (chunks fuel size l) = l.
Proof.
  intros Hs. revert l. induction fuel as [|fuel IH]; intros l Hl.
  - destruct l; [reflexivity | cbn in Hl; lia].
  - destruct l as [|x l]; [reflexivity|].
    cbn [chunks concat]. rewrite IH.
    + apply firstn_skipn.
    + rewrite length_skipn. cbn [length] in *. lia.
Qed.

Lemma chunks_length {A} (size fuel : nat) (l : list A) :
  0 < size -> length l <= fuel ->
  length (chunks fuel size l) = (length l + size - 1) / size.
Proof.
  intros Hs. revert l. induction fuel as [|fuel IH]; intros l Hl.
  - destruct l; [|cbn in Hl; lia]. cbn. symmetry. apply Nat.div_small. lia.
  - destruct l as [|x l]; [cbn; symmetry; apply Nat.div_small; lia|].
    cbn [chunks length].
    destruct (Nat.le_gt_cases size (S (length l))) as [Hle|Hgt].
    + rewrite IH by (rewrite length_skipn; cbn [length] in *; lia).
      rewrite length_skipn. cbn [length].
      replace (S (length l) + size - 1) with ((S (length l) - size + size - 1) + 1 * size) by lia.
      rewrite Nat.div_add by lia. lia.
    + rewrite skipn_all2 by (cbn [length]; lia). rewrite chunks_nil. cbn [length].
      apply (Nat.div_unique _ _ 1 (length l)); lia.
Qed.

Lemma chunks_bounded {A} (size fuel : nat) (l : list A) :
  Forall (fun c => length c <= size) (chunks fuel size l).
Proof.
  revert l. induction fuel as [|fuel IH]; intros l; [constructor|].
  destruct l as [|x l]; [constructor|]. cbn [chunks]. constructor; [|apply IH].
  rewrite length_firstn. lia.
Qed.

Lemma length_pad_bits (size : nat) (block : list bool) :
  length block <= size -> length (Pipeline.pad_bits size block) = size.
Proof. intros H. unfold Pipeline.pad_bits. rewrite length_app, repeat_length. lia. Qed.

Lemma collect_total {A B} (f : A -> result B) (P : B -> Prop) (l : list A) :
  Forall (fun x => exists y, f x = Ok y /\ P y) l ->
  exists ys, Pipeline.collect f l = Ok ys /\ Forall P ys /\ length ys = length l.
Proof.
  induction 1 as [|x l (y & Hy & HP) _ (ys & Hys & Hall & Hlen)].
  - exists []. repeat split. constructor.
  - exists (y :: ys). cbn [Pipeline.collect]. rewrite Hy, Hys. cbn [bind].
    repeat split; [constructor; assumption | cbn; lia].
Qed.

Lemma length_concat_uniform {A} (n : nat) (ls : list (list A)) :
  Forall (fun l => length l = n) ls -> length (concat ls) = length ls * n.
Proof.
  induction 1 as [|l ls Hl _ IH]; [reflexivity|].
  cbn [concat length]. rewrite length_app, Hl, IH. lia.
Qed.

Lemma length_unpackbits (b : bytes) : length (Pipeline.unpackbits b) = 8 * length b.
Proof.
  induction b as [|x b IH]; [reflexivity|].
  unfold Pipeline.unpackbits in *. cbn [flat_map]. rewrite length_app, IH.
  cbn [length]. rewrite length_map, length_seqZ. lia.
Qed.

Lemma length_flat_map_uniform {A B} (f : A -> list B) (n : nat) (l : list A) :
  (forall x, length (f x) = n) -> length (flat_map f l) = length l * n.
Proof.
  intros Hf. induction l as [|x l IH]; [reflexivity|].
  cbn [flat_map length]. rewrite length_app, Hf, IH. lia.
Qed.

Lemma pack_example_folder :
  Packer.pack_folder_to_bytes true Pipeline.example_folder = Ok Pipeline.example_packed.
Proof. vm_compute. reflexivity. Qed.

Lemma chunks_single {A} (size fuel : nat) (l : list A) :
  0 < length l <= size -> length l <= fuel -> chunks fuel size l = [l].
Proof.
  intros Hl Hfuel. destruct fuel as [|fuel]; [lia|]. destruct l as [|x l]; [cbn in Hl; lia|].
  cbn [chunks]. rewrite firstn_all2, skipn_all2, chunks_nil by lia. reflexivity.
Qed.

(** One data shard of the default codec gets no parity shard:
    [int(1 * (255 / 223 - 1))] is 0. *)
Lemma parity_shard_count_one :
  ReedSolomon.parity_shard_count ReedSolomon.default 1 = Ok 0%Z.
Proof. vm_compute. reflexivity. Qed.

Lemma create_shards_single (data : bytes) :
  1 <= length data <= 4096 ->
  ReedSolomon.create_shards ReedSolomon.default data 4096
  = Ok [data ++ repeat x00 (4096 - length data)].
Proof.
  intros Hlen. unfold ReedSolomon.create_shards.
  rewrite (chunks_single 4096 (length data) data) by lia.
  assert (Hd : (length data + 4096 - 1) / 4096 = 1)
    by (symmetry; apply (Nat.div_unique _ _ 1 (length data - 1)); lia).
  rewrite Hd. change (Z.of_nat 1) with 1%Z. rewrite parity_shard_count_one.
  cbn [bind Z.to_nat map repeat]. rewrite app_nil_r. reflexivity.
Qed.

Lemma encode_block_length (c : LDPC.SimpleLDPC) (block : list bool) :
  length block = LDPC.k c ->
  exists w, LDPC.encode c block = Ok w /\ length w = LDPC.k c + length (LDPC.H c).
Proof.
  intros Hb. rewrite encode_total by exact Hb. eexists. split; [reflexivity|].
  rewrite length_app, length_map. lia.
Qed.

Lemma encode_shard_length (c : LDPC.SimpleLDPC) (shard : bytes) :
  0 < LDPC.k c ->
  exists bits,
    Pipeline.encode_shard c shard = Ok bits
    /\ length bits
       = (8 * length shard + LDPC.k c - 1) / LDPC.k c * (LDPC.k c + length (LDPC.H c)).
Proof.
  intros Hk. unfold Pipeline.encode_shard.
  set (blocks := map (Pipeline.pad_bits (LDPC.k c))
                     (chunks (length (Pipeline.unpackbits shard)) (LDPC.k c)
                             (Pipeline.unpackbits shard))).
  destruct (collect_total (LDPC.encode c)
              (fun w => length w = LDPC.k c + length (LDPC.H c)) blocks)
    as (ws & Hws & Hall & Hlen).
  { unfold blocks. apply Forall_map. eapply Forall_impl; [apply chunks_bounded|].
    intros block Hblock. cbn beta. apply encode_block_length, length_pad_bits. exact Hblock. }
  rewrite Hws. cbn [bind]. eexists. split; [reflexivity|].
  rewrite (length_concat_uniform _ ws Hall), Hlen. unfold blocks.
  rewrite length_map, chunks_length, length_unpackbits by lia. reflexivity.
Qed.

Lemma length_bits_to_symbols_3 (m : VoxelMap.VoxelMapper) (bits : list bool) :
  VoxelMap.bits_per_voxel m = 3%Z ->
  length (VoxelMap.bits_to_symbols m bits) = (length bits + 2) / 3.
Proof.
  intros Hb. unfold VoxelMap.bits_to_symbols. rewrite Hb.
  change (Z.to_nat 3) with 3.
  rewrite length_map, chunks_length by lia.
  rewrite length_app, repeat_length.
  pose proof (Z.mod_pos_bound (Z.of_nat (length bits)) 3 ltac:(lia)) as Hmod.
  pose proof (Z.div_mod (Z.of_nat (length bits)) 3 ltac:(lia)) as Hdiv.
  set (q := (Z.of_nat (length bits) / 3)%Z) in *.
  set (r := (Z.of_nat (length bits) mod 3)%Z) in *.
  assert (Hr : (r = 0 \/ r = 1 \/ r = 2)%Z) by lia.
  assert (Hq : (0 <= q)%Z) by lia.
  assert (Hlen : length bits = 3 * Z.to_nat q + Z.to_nat r) by lia.
  destruct Hr as [Hr|[Hr|Hr]]; rewrite Hr in *; rewrite Hlen.
  - change (Z.to_nat ((3 - 0) mod 3)) with 0. change (Z.to_nat 0) with 0.
    transitivity (Z.to_nat q); [symmetry|];
      apply (Nat.div_unique _ _ (Z.to_nat q) 2); lia.
  - change (Z.to_nat ((3 - 1) mod 3)) with 2. change (Z.to_nat 1) with 1.
    transitivity (S (Z.to_nat q)); [|symmetry].
    + symmetry; apply (Nat.div_unique _ _ _ 2); lia.
    + symmetry; apply (Nat.div_unique _ _ _ 0); lia.
  - change (Z.to_nat ((3 - 2) mod 3)) with 1. change (Z.to_nat 2) with 2.
    transitivity (S (Z.to_nat q)); [|symmetry].
    + symmetry; apply (Nat.div_unique _ _ _ 2); lia.
    + symmetry; apply (Nat.div_unique _ _ _ 1); lia.
Qed.

Lemma length_symbols_to_bits_3 (m : VoxelMap.VoxelMapper) (symbols : list Z) :
  VoxelMap.bits_per_voxel m = 3%Z ->
  length (VoxelMap.symbols_to_bits m symbols) = length symbols * 3.
Proof.
  intros Hb. unfold VoxelMap.symbols_to_bits. apply length_flat_map_uniform.
  intros s. unfold VoxelMap.symbol_bits. rewrite Hb, length_map, length_seqZ. reflexivity.
Qed.

Lemma map_fst_combine {A B} (l : list A) (k : list B) :
  length l <= length k -> map fst (combine l k) = l.
Proof.
  revert k. induction l as [|a l IH]; intros [|b k] Hlen; cbn in *; try reflexivity; try lia.
  f_equal. apply IH. lia.
Qed.

Lemma flat_map_concat {A B} (f : A -> list B) (ls : list (list A)) :
  flat_map (fun l => flat_map f l) ls = flat_map f (concat ls).
Proof.
  induction ls as [|l ls IH]; [reflexivity|].
  cbn [flat_map concat]. rewrite IH, flat_map_app. reflexivity.
Qed.

(** [sorted] leaves a list alone whose names increase. *)
Lemma sorted_increasing {A} (l : list (string * A)) :
  (forall i x y, l !! i = Some x -> l !! S i = Some y -> String.leb (fst x) (fst y) = true) ->
  Packer.sorted l = l.
Proof.
  induction l as [|x l IH]; intros Hadj; [reflexivity|].
  unfold Packer.sorted. cbn [fold_right].
  change (fold_right Packer.insert_sorted [] l) with (Packer.sorted l). rewrite IH.
  - destruct l as [|y l']; [reflexivity|]. cbn [Packer.insert_sorted].
    rewrite (Hadj 0 x y eq_refl eq_refl). reflexivity.
  - intros i a b Ha Hb. exact (Hadj (S i) a b Ha Hb).
Qed.

(** Up to [bound] entries whose names increase are read in the order they
    were written. *)
Lemma sorted_glob_written {A} (prefix : string) (width : nat) (suffix : string)
    (bound : nat) (entries : list A) :
  forallb (fun idx => String.leb (prefix ++ Pipeline.zero_padded width idx ++ suffix)
                                 (prefix ++ Pipeline.zero_padded width (S idx) ++ suffix))
          (seq 0 (bound - 1)) = true ->
  length entries <= bound ->
  Pipeline.sorted_glob prefix width suffix entries = entries.
Proof.
  intros Hnames Hlen. unfold Pipeline.sorted_glob. rewrite sorted_increasing.
  - apply list_eq. intros i. change (map snd ?l) with (snd <$> l).
    rewrite list_lookup_fmap, list_lookup_imap. destruct (entries !! i); reflexivity.
  - intros i x y Hx Hy. rewrite list_lookup_imap in Hx, Hy.
    destruct (entries !! i) as [a|] eqn:Ea; [|discriminate Hx].
    destruct (entries !! S i) as [b|] eqn:Eb; [|discriminate Hy].
    injection Hx as <-. injection Hy as <-. cbn [fst].
    apply lookup_lt_Some in Eb.
    apply (proj1 (forallb_forall _ _) Hnames i), in_seq. lia.
Qed.

Lemma plane_names_increase :
  forallb (fun idx => String.leb ("plane_" ++ Pipeline.zero_padded 3 idx ++ EmptyString)
                                 ("plane_" ++ Pipeline.zero_padded 3 (S idx) ++ EmptyString))
          (seq 0 (1000 - 1)) = true.
Proof. vm_compute. reflexivity. Qed.

Lemma tile_names_increase :
  forallb (fun idx => String.leb ("tile_" ++ Pipeline.zero_padded 4 idx ++ ".json")
                                 ("tile_" ++ Pipeline.zero_padded 4 (S idx) ++ ".json"))
          (seq 0 (64 - 1)) = true.
Proof. vm_compute. reflexivity. Qed.

(** Fewer than a thousand planes of at most 64 tiles are read in the order
    they were written. *)
Lemma read_tiles_written (planes : list (list Pipeline.tile)) :
  length planes <= 1000 -> Forall (fun plane => length plane <= 64) planes ->
  Pipeline.read_tiles planes = concat planes.
Proof.
  intros Hlen Hall. unfold Pipeline.read_tiles.
  rewrite (sorted_glob_written "plane_" 3 EmptyString 1000 planes plane_names_increase Hlen).
  induction Hall as [|plane planes Hp _ IH]; [reflexivity|].
  cbn [flat_map concat]. rewrite IH by (cbn [length] in Hlen; lia).
  rewrite (sorted_glob_written "tile_" 4 ".json" 64 plane tile_names_increase Hp). reflexivity.
Qed.

(** [encode_folder] writes fewer than a thousand planes for up to 16384000
    symbols. *)
Lemma make_tiles_planes (symbols : list Z) (angles retardances : list Q) :
  length angles = length symbols -> length retardances = length symbols ->
  (Z.of_nat (length symbols) <= 16384000)%Z ->
  length (Pipeline.make_tiles symbols angles retardances) <= 1000
  /\ Forall (fun plane => length plane <= 64) (Pipeline.make_tiles symbols angles retardances).
Proof.
  intros Ha Hr Hn. unfold Pipeline.make_tiles. split; [|apply chunks_bounded].
  rewrite chunks_length, length_map, chunks_length by lia.
  rewrite !length_combine, Ha, Hr, !Nat.min_id.
  apply Nat2Z.inj_le.
  rewrite Nat2Z.inj_div, Nat2Z.inj_sub, Nat2Z.inj_add, Nat2Z.inj_div, Nat2Z.inj_sub,
    Nat2Z.inj_add by lia.
  change (Z.of_nat 1000) with 1000%Z. change (Z.of_nat 256) with 256%Z.
  change (Z.of_nat 64) with 64%Z. change (Z.of_nat 1) with 1%Z.
  assert ((Z.of_nat (length symbols) + 256 - 1) / 256 < 64001)%Z
    by (apply Z.div_lt_upper_bound; lia).
  assert (((Z.of_nat (length symbols) + 256 - 1) / 256 + 64 - 1) / 64 < 1001)%Z
    by (apply Z.div_lt_upper_bound; lia).
  lia.
Qed.

(** The tiles, read plane by plane, give back the symbol stream. *)
Lemma make_tiles_symbols (symbols : list Z) (angles retardances : list Q) :
  length angles = length symbols -> length retardances = length symbols ->
  flat_map (fun plane => flat_map Pipeline.symbols plane)
           (Pipeline.make_tiles symbols angles retardances)
  = symbols.
Proof.
  intros Ha Hr. unfold Pipeline.make_tiles.
  set (voxels := combine symbols (combine angles retardances)).
  rewrite flat_map_concat, chunks_concat by lia.
  rewrite flat_map_concat_map, map_map. cbn [Pipeline.symbols].
  rewrite <- concat_map, chunks_concat by lia.
  unfold voxels. apply map_fst_combine. rewrite length_combine. lia.
Qed.

Lemma symbols_to_voxels_3bit (m : VoxelMap.VoxelMapper) (symbols : list Z) :
  VoxelMap.init "3bit" = Ok m ->
  exists angles retardances,
    VoxelMap.symbols_to_voxels m symbols = Ok (angles, retardances)
    /\ length angles = length symbols /\ length retardances = length symbols.
Proof.
  intros Hm. destruct (voxels_of_total VoxelMap.MODE_3BIT symbols) as (m' & vs & Hm' & Hvs & Hall).
  change (VoxelMap.mode_value VoxelMap.MODE_3BIT) with "3bit"%string in Hm'.
  rewrite Hm in Hm'. injection Hm' as <-.
  unfold VoxelMap.symbols_to_voxels. rewrite Hvs. cbn [bind].
  eexists; eexists. split; [reflexivity|].
  rewrite !length_map. apply Forall2_length in Hall. split; congruence.
Qed.

Lemma set_nested_dict (outer inner : string) (value : json) (d o : gmap string json) :
  d !! outer = Some (JObj o) ->
  ManifestFile.set_nested outer inner value (ManifestFile.mkManifest (JObj d))
  = Ok (ManifestFile.mkManifest (JObj (<[outer := JObj (<[inner := value]> o)]> d))).
Proof. intros Hd. unfold ManifestFile.set_nested. cbn [ManifestFile.data]. rewrite Hd. reflexivity. Qed.

Lemma add_file_dict (path : string) (size : Z) (sha256 : string) (d : gmap string json)
    (fs : list json) :
  d !! "files"%string = Some (JArr fs) ->
  ManifestFile.add_file path size sha256 (ManifestFile.mkManifest (JObj d))
  = Ok (ManifestFile.mkManifest
          (JObj (<["files"%string :=
                     JArr (fs ++ [JObj (list_to_map [("path"%string, JStr path);
                                                     ("size"%string, JInt size);
                                                     ("sha256"%string, JStr sha256)])])]> d))).
Proof. intros Hd. unfold ManifestFile.add_file. cbn [ManifestFile.data]. rewrite Hd. reflexivity. Qed.

Lemma inverse_permutation_fold (n : nat) (l : list (nat * nat)) (inv : list nat) :
  Forall (fun i => i < n) inv -> Forall (fun ip => fst ip < n) l ->
  Forall (fun i => i < n) (foldl (fun inv ip => <[snd ip := fst ip]> inv) inv l)
  /\ length (foldl (fun inv ip => <[snd ip := fst ip]> inv) inv l) = length inv.
Proof.
  intros Hinv Hl. revert inv Hinv. induction Hl as [|ip l Hip _ IH]; intros inv Hinv.
  - split; [exact Hinv | reflexivity].
  - cbn [foldl]. destruct (IH (<[snd ip := fst ip]> inv)) as [Hall Hlen].
    + apply Forall_insert; assumption.
    + split; [exact Hall|]. rewrite Hlen. apply length_insert.
Qed.

Lemma inverse_permutation_in_range (perm : list nat) :
  Forall (fun i => i < length perm) (Interleave.inverse_permutation perm)
  /\ length (Interleave.inverse_permutation perm) = length perm.
Proof.
  unfold Interleave.inverse_permutation.
  destruct (inverse_permutation_fold (length perm)
              (combine (seq 0 (length perm)) perm) (repeat 0 (length perm))) as [Hall Hlen].
  - apply Forall_forall. intros i Hi. apply list_elem_of_In in Hi.
    destruct perm; [destruct Hi|]. apply repeat_spec in Hi. subst i. cbn. lia.
  - apply Forall_forall. intros [i x] Hi. apply list_elem_of_In, in_combine_l, in_seq in Hi.
    cbn [fst]. lia.
  - split; [exact Hall|]. rewrite Hlen. apply repeat_length.
Qed.

Lemma flip_step_total (c : LDPC.SimpleLDPC) (syn word : list bool) :
  0 < LDPC.n c ->
  exists word', LDPC.flip_step c syn word = Ok word' /\ length word' = length word.
Proof.
  intros Hn. unfold LDPC.flip_step.
  destruct (LDPC.n c) as [|n'] eqn:En; [lia|].
  cbn [seq map LDPC.argmax].
  match goal with |- context [if ?b then _ else _] => destruct b end.
  - eexists. split; [reflexivity|]. apply length_flip.
  - eexists. split; reflexivity.
Qed.

Lemma decode_loop_total (c : LDPC.SimpleLDPC) (max_iter : nat) (word : list bool) :
  0 < LDPC.n c -> LDPC.k c <= length word ->
  exists msg ok, LDPC.decode_loop c max_iter word = Ok (msg, ok) /\ length msg = LDPC.k c.
Proof.
  intros Hn. revert word. induction max_iter as [|it IH]; intros word Hk; cbn [LDPC.decode_loop].
  - do 2 eexists. split; [reflexivity|]. rewrite length_take. lia.
  - destruct (Nat.eqb _ 0).
    + do 2 eexists. split; [reflexivity|]. rewrite length_take. lia.
    + destruct (flip_step_total c (LDPC.syndrome (LDPC.H c) word) word Hn) as (w' & Hw' & Hlen).
      rewrite Hw'. cbn [bind]. apply IH. lia.
Qed.

Lemma decode_hard_total (c : LDPC.SimpleLDPC) (block : list bool) :
  0 < LDPC.n c -> LDPC.k c <= LDPC.n c -> length block = LDPC.n c ->
  exists msg ok, LDPC.decode_hard c block 50 = Ok (msg, ok) /\ length msg = LDPC.k c.
Proof.
  intros Hn Hk Hb. unfold LDPC.decode_hard.
  rewrite Hb, Nat.eqb_refl. cbn [negb]. apply decode_loop_total; lia.
Qed.

(** Step 4 of [decode_archive]: every block of [n] bits gives [k] bits, and
    the bits are packed eight to a byte. *)
Lemma ldpc_decode_bytes_length (c : LDPC.SimpleLDPC) (bits_encoded : list bool) :
  0 < LDPC.n c -> LDPC.k c <= LDPC.n c ->
  exists decoded_bytes,
    Pipeline.ldpc_decode_bytes c bits_encoded = Ok decoded_bytes
    /\ length decoded_bytes
       = ((length bits_encoded + LDPC.n c - 1) / LDPC.n c * LDPC.k c + 8 - 1) / 8.
Proof.
  intros Hn Hk. unfold Pipeline.ldpc_decode_bytes.
  set (blocks := map (Pipeline.pad_bits (LDPC.n c))
                     (chunks (length bits_encoded) (LDPC.n c) bits_encoded)).
  destruct (collect_total (fun block => let* r := LDPC.decode_hard c block 50 in Ok (fst r))
              (fun msg => length msg = LDPC.k c) blocks) as (ms & Hms & Hall & Hlen).
  { unfold blocks. apply Forall_map. eapply Forall_impl; [apply chunks_bounded|].
    intros block Hblock. cbn beta.
    destruct (decode_hard_total c (Pipeline.pad_bits (LDPC.n c) block) Hn Hk
                (length_pad_bits _ _ Hblock)) as (msg & ok & Hdec & Hmsg).
    rewrite Hdec. cbn [bind fst]. eexists. split; [reflexivity | exact Hmsg]. }
  rewrite Hms. cbn [bind]. eexists. split; [reflexivity|].
  unfold Pipeline.packbits. rewrite length_map, chunks_length by lia.
  rewrite (length_concat_uniform _ ms Hall), Hlen. unfold blocks.
  rewrite length_map, chunks_length by lia. reflexivity.
Qed.

Lemma chunks_symbols_3 (q fuel : nat) (l : list bool) :
  length l = 3 * q -> length l <= fuel ->
  flat_map (VoxelMap.symbol_bits 3) (map (VoxelMap.chunk_symbol 3) (chunks fuel 3 l)) = l.
Proof.
  revert fuel l. induction q as [|q IH]; intros fuel l Hl Hfuel.
  - destruct l; [|cbn in Hl; lia]. rewrite chunks_nil. reflexivity.
  - destruct l as [|a [|b [|c rest]]]; cbn [length] in Hl; try lia.
    destruct fuel as [|fuel]; [cbn in Hfuel; lia|].
    cbn [chunks firstn skipn map flat_map]. rewrite firstn_O, skipn_O.
    rewrite (IH fuel rest) by (cbn [length] in *; lia).
    destruct a, b, c; reflexivity.
Qed.

(** [symbols_to_bits] after [bits_to_symbols] keeps the padding of the
    3-bit mapper. *)
Lemma symbols_to_bits_to_symbols_3 (m : VoxelMap.VoxelMapper) (bits : list bool) :
  VoxelMap.bits_per_voxel m = 3%Z ->
  VoxelMap.symbols_to_bits m (VoxelMap.bits_to_symbols m bits)
  = bits ++ repeat false (Z.to_nat ((3 - Z.of_nat (length bits) mod 3) mod 3)).
Proof.
  intros Hb. unfold VoxelMap.symbols_to_bits, VoxelMap.bits_to_symbols. rewrite Hb.
  change (Z.to_nat 3) with 3.
  set (padded := bits ++ repeat false (Z.to_nat ((3 - Z.of_nat (length bits) mod 3) mod 3))).
  assert (Hlen : (Z.of_nat (length padded) mod 3 = 0)%Z).
  { unfold padded. rewrite length_app, repeat_length, Nat2Z.inj_add.
    pose proof (Z.mod_pos_bound (Z.of_nat (length bits)) 3 ltac:(lia)) as Hmod.
    pose proof (Z.mod_pos_bound (3 - Z.of_nat (length bits) mod 3) 3 ltac:(lia)) as Hmod'.
    rewrite Z2Nat.id by lia. rewrite Zplus_mod_idemp_r.
    replace (Z.of_nat (length bits) + (3 - Z.of_nat (length bits) mod 3))%Z
      with (Z.of_nat (length bits) - Z.of_nat (length bits) mod 3 + 1 * 3)%Z by lia.
    rewrite Z.mod_add by lia. rewrite Zminus_mod_idemp_r.
    rewrite Z.sub_diag. reflexivity. }
  apply (chunks_symbols_3 (Z.to_nat (Z.of_nat (length padded) / 3))); [|lia].
  pose proof (Z.div_mod (Z.of_nat (length padded)) 3 ltac:(lia)) as Hdiv.
  pose proof (Z.div_pos (Z.of_nat (length padded)) 3 ltac:(lia) ltac:(lia)) as Hpos.
  lia.
Qed.

Lemma subscript_dict (key : string) (d : gmap string json) (v : json) :
  d !! key = Some v -> Pipeline.subscript key (JObj d) = Ok v.
Proof. intros Hd. unfold Pipeline.subscript. rewrite Hd. reflexivity. Qed.

Section Scenario.

Context (lib : Pipeline.libraries)
        (Hchoice : LDPC.sampler_contract (Pipeline.np_random_choice lib))
        (Hperm : forall g n, Permutation (fst (Pipeline.permutation lib g n)) (seq 0 n)).

Lemma draw_columns_total (cols m : nat) :
  3 <= m ->
  forall st, exists cs,
    LDPC.draw_columns (Pipeline.random_state lib) (Pipeline.np_random_choice lib) cols m st
    = Ok cs.
Proof.
  intros Hm. induction cols as [|cols IH]; intros st; cbn [LDPC.draw_columns].
  - eexists; reflexivity.
  - pose proof (Hchoice st m 3) as Hc.
    destruct (Nat.leb_spec 3 m) as [_|?]; [|lia].
    destruct Hc as (idx & st' & Hc & _). rewrite Hc. cbn [bind fst snd].
    destruct (IH st') as [rest Hrest]. rewrite Hrest. eexists; reflexivity.
Qed.

(** [SimpleLDPC(n=1024, k=768)] is built: the dimensions, and the number of
    rows of [H]. *)
Lemma make_ldpc_profile_A :
  exists c,
    Pipeline.make_ldpc lib Pipeline.PROFILE_A = Ok c
    /\ LDPC.init (Pipeline.random_state lib) (Pipeline.np_random_seed lib)
         (Pipeline.np_random_choice lib) 1024 768 = Ok c
    /\ LDPC.n c = 1024 /\ LDPC.k c = 768 /\ length (LDPC.H c) = 256.
Proof.
  unfold Pipeline.make_ldpc.
  change (Z.to_nat (Qfloor (1024 * Pipeline.ldpc_rate Pipeline.PROFILE_A))) with 768.
  unfold LDPC.init, LDPC._generate_parity_matrix.
  change (1024 <? 768) with false. change (1024 - 768) with 256. cbv iota.
  destruct (draw_columns_total 1024 256 ltac:(lia) (Pipeline.np_random_seed lib 42))
    as [cs Hcs].
  rewrite Hcs. cbn [bind]. eexists. split; [reflexivity|]. split; [reflexivity|].
  cbn [LDPC.n LDPC.k LDPC.H]. rewrite length_map, length_seq. auto.
Qed.

Hypothesis Hsize : 1 <= length (Pipeline.example_compressed lib) <= 4096.

Lemma length_example_shard : length (Pipeline.example_shard lib) = 4096.
Proof. unfold Pipeline.example_shard. rewrite length_app, repeat_length. lia. Qed.

(** Steps 1 to 3 on the scenario: one shard, no parity shard. *)
Lemma encode_shards_example :
  Pipeline.encode_shards lib Pipeline.PROFILE_A true Pipeline.example_folder
  = Ok (Packer.meta Pipeline.example_packed, Pipeline.example_codec_info lib,
        [Pipeline.example_shard lib]).
Proof.
  unfold Pipeline.encode_shards. rewrite pack_example_folder. cbn [bind].
  unfold Pipeline.example_codec_info, Pipeline.example_shard, Pipeline.example_compressed.
  change (Pipeline.compression Pipeline.PROFILE_A) with "zstd"%string.
  change (Pipeline.compression_level Pipeline.PROFILE_A) with 6%Z.
  unfold Compression.compress_data. change ("zstd" =? "zstd")%string with true.
  cbv iota beta. cbn [snd].
  rewrite create_shards_single by exact Hsize. reflexivity.
Qed.

(** Step 4 on the scenario: 43 codewords of 1024 bits. *)
Lemma encode_all_bits_example (c : LDPC.SimpleLDPC) :
  LDPC.k c = 768 -> length (LDPC.H c) = 256 ->
  exists all_bits,
    Pipeline.encode_all_bits c [Pipeline.example_shard lib] = Ok all_bits
    /\ Z.of_nat (length all_bits) = 44032%Z.
Proof.
  intros Hk HH. unfold Pipeline.encode_all_bits. cbn [Pipeline.collect].
  destruct (encode_shard_length c (Pipeline.example_shard lib) ltac:(lia))
    as (bits & Hbits & Hlen).
  rewrite Hbits. cbn [bind concat]. rewrite app_nil_r.
  exists bits. split; [reflexivity|].
  rewrite Hlen, length_example_shard, Hk, HH.
  assert (Hq : (8 * 4096 + 768 - 1) / 768 = 43)
    by (symmetry; apply (Nat.div_unique _ _ 43 511); lia).
  rewrite Hq. lia.
Qed.

(** Steps 5 and 6: the interleaver draws its permutation for the length of
    [all_bits], and the 3-bit mapper packs the permuted bits. *)
Lemma encode_symbols_profile_A (seed : Z) (all_bits : list bool) :
  (0 <= seed)%Z ->
  exists m interleaved,
    Pipeline.encode_symbols lib Pipeline.PROFILE_A seed all_bits
    = Ok (m, VoxelMap.bits_to_symbols m interleaved)
    /\ VoxelMap.init "3bit" = Ok m
    /\ VoxelMap.bits_per_voxel m = 3%Z
    /\ Interleave.take_indices all_bits
         (fst (Pipeline.permutation lib (Pipeline.default_rng lib seed) (length all_bits)))
       = Ok interleaved
    /\ length interleaved = length all_bits.
Proof.
  intros Hseed. unfold Pipeline.encode_symbols.
  rewrite interleaver_init_accepts by exact Hseed.
  unfold Interleave.block_interleave. cbn [bind Interleave.rng].
  pose proof (Hperm (Pipeline.default_rng lib seed) (length all_bits)) as Hp.
  destruct (Pipeline.permutation lib (Pipeline.default_rng lib seed) (length all_bits))
    as [perm g'].
  cbn [fst] in *.
  destruct (take_indices_in_range all_bits perm (permutation_in_range _ _ Hp))
    as (xs & Hxs & Hlen).
  rewrite Hxs. cbn [bind fst].
  change (Pipeline.voxel_mode Pipeline.PROFILE_A) with "3bit"%string.
  change (VoxelMap.init "3bit") with
    (Ok (VoxelMap.mkMapper "3bit" 3 4 2 8 (VoxelMap._generate_gray_codes "3bit")
           (VoxelMap._build_symbol_table "3bit"))).
  cbn [bind]. eexists; exists xs. split; [reflexivity|].
  split; [reflexivity|]. split; [reflexivity|]. split; [reflexivity|].
  rewrite Hlen, (Permutation_length Hp), length_seq. reflexivity.
Qed.

(** The manifest of the scenario before it is saved: the entries
    [decode_archive] reads. *)
Lemma fill_manifest_example (seed : Z) (ldpc : LDPC.SimpleLDPC) (m : VoxelMap.VoxelMapper)
    (n_planes : Z) (codec_info : gmap string json) (merkle_root : string) :
  exists d integ enc ecc ldpc_params voxel inter comp,
    Pipeline.fill_manifest lib "A" Pipeline.PROFILE_A seed ldpc m n_planes codec_info
      (Packer.meta Pipeline.example_packed) merkle_root
    = Ok (ManifestFile.mkManifest (JObj d))
    /\ d !! "integrity"%string = Some (JObj integ)
    /\ d !! "encoding"%string = Some (JObj enc)
    /\ enc !! "profile_params"%string = Some (Pipeline.profile_params Pipeline.PROFILE_A)
    /\ enc !! "ecc"%string = Some (JObj ecc)
    /\ ecc !! "ldpc"%string = Some (JObj ldpc_params)
    /\ ldpc_params !! "n"%string = Some (JInt (Z.of_nat (LDPC.n ldpc)))
    /\ ldpc_params !! "k"%string = Some (JInt (Z.of_nat (LDPC.k ldpc)))
    /\ enc !! "voxel"%string = Some (JObj voxel)
    /\ voxel !! "mode"%string = Some (JStr "3bit")
    /\ enc !! "interleaving"%string = Some (JObj inter)
    /\ inter !! "span"%string = Some (JInt 10000)
    /\ inter !! "depth"%string = Some (JInt 16)
    /\ inter !! "seed"%string = Some (JInt seed)
    /\ enc !! "compression"%string = Some (JObj comp)
    /\ comp !! "info"%string = Some (JObj codec_info).
Proof.
  unfold Pipeline.fill_manifest, ManifestFile.init, ManifestFile.set_profile,
    ManifestFile.set_compression, ManifestFile.set_ecc_params, ManifestFile.set_voxel_mapping,
    ManifestFile.set_interleaving, ManifestFile.set_geometry, ManifestFile.set_merkle_root,
    ManifestFile.set_item.
  cbn [ManifestFile.data bind].
  erewrite set_nested_dict by reflexivity. cbn [bind].
  erewrite set_nested_dict by reflexivity. cbn [bind].
  erewrite set_nested_dict by reflexivity. cbn [bind].
  erewrite set_nested_dict by reflexivity. cbn [bind].
  erewrite set_nested_dict by reflexivity. cbn [bind ManifestFile.data].
  change (Packer.files (Packer.meta Pipeline.example_packed)) with
    [Packer.mkFileInfo "a.txt" 11
       "a591a6d40bf420404a011733cfb7b190d62c65bf0bcda32b57b277d9ad9f146e";
     Packer.mkFileInfo "b.txt" 12
       "9d9595c5d94fb65b824f56e9999527dba9542481580d69feb89056aabaa0aa87"].
  cbn [fold_left bind Packer.path Packer.size Packer.sha256].
  erewrite add_file_dict by reflexivity. cbn [bind].
  erewrite add_file_dict by reflexivity. cbn [bind].
  erewrite set_nested_dict by reflexivity.
  do 8 eexists. split; [reflexivity|].
  repeat (split; [reflexivity|]). reflexivity.
Qed.

(** Step 3 of [decode_archive] returns for a seed that is not negative: the
    inverse of the regenerated
    permutation indexes a stream of the same length. *)
Lemma deinterleave_bits_total (seed : Z) (bits_interleaved : list bool) :
  (0 <= seed)%Z ->
  exists bits_encoded,
    Pipeline.deinterleave_bits lib seed bits_interleaved = Ok bits_encoded
    /\ length bits_encoded = length bits_interleaved.
Proof.
  intros Hseed. unfold Pipeline.deinterleave_bits.
  rewrite interleaver_init_accepts by exact Hseed. cbn [bind].
  unfold Interleave.block_deinterleave, Interleave.regenerated_permutation.
  pose proof (Hperm (Pipeline.default_rng lib seed) (length bits_interleaved)) as Hp.
  set (perm := fst (Pipeline.permutation lib (Pipeline.default_rng lib seed)
                      (length bits_interleaved))) in *.
  assert (Hlen : length perm = length bits_interleaved)
    by (rewrite (Permutation_length Hp); apply length_seq).
  destruct (inverse_permutation_in_range perm) as [Hall Hinv].
  rewrite Hlen in Hall.
  destruct (take_indices_in_range bits_interleaved _ Hall) as (xs & Hxs & Hxlen).
  exists xs. split; [exact Hxs|]. congruence.
Qed.

Hypothesis Hjson : forall v, Pipeline.json_load lib (Pipeline.json_dump lib v) = Ok v.

(** The scenario up to the hand-off: what [encode_folder] wrote, and
    [decode_archive] on it once the manifest has been read. *)
Lemma scenario_handoff :
  exists (a : Pipeline.archive (Pipeline.text lib)) (c : LDPC.SimpleLDPC)
         (all_bits interleaved : list bool) (enc comp : gmap string json),
    Pipeline.encode_folder lib true Pipeline.example_folder "A" 42 = Some (Ok a)
    /\ Pipeline.make_ldpc lib Pipeline.PROFILE_A = Ok c
    /\ LDPC.init (Pipeline.random_state lib) (Pipeline.np_random_seed lib)
         (Pipeline.np_random_choice lib) 1024 768 = Ok c
    /\ LDPC.n c = 1024 /\ LDPC.k c = 768
    /\ Pipeline.encode_all_bits c [Pipeline.example_shard lib] = Ok all_bits
    /\ Z.of_nat (length all_bits) = 44032%Z
    /\ Interleave.take_indices all_bits
         (fst (Pipeline.permutation lib (Pipeline.default_rng lib 42) (length all_bits)))
       = Ok interleaved
    /\ length interleaved = length all_bits
    /\ Pipeline.read_bits_interleaved lib (JStr "3bit") a = Ok (interleaved ++ [false; false])
    /\ enc !! "compression"%string = Some (JObj comp)
    /\ comp !! "info"%string = Some (JObj (Pipeline.example_codec_info lib))
    /\ Pipeline.decode_archive lib a
       = (let* bits_encoded :=
            Pipeline.deinterleave_bits lib 42 (interleaved ++ [false; false]) in
          let* decoded_bytes := Pipeline.ldpc_decode_bytes c bits_encoded in
          Pipeline.recover_files lib (JObj enc) decoded_bytes).
Proof.
  destruct make_ldpc_profile_A as (c & Hmake & Hinit & Hn & Hk & HH).
  destruct (encode_all_bits_example c Hk HH) as (all_bits & Hall & Hlen).
  destruct (encode_symbols_profile_A 42 all_bits (Pos2Z.is_nonneg 42))
    as (m & interleaved & Hsym & Hm & Hbpv & Htake & Hilen).
  set (symbols := VoxelMap.bits_to_symbols m interleaved) in *.
  destruct (symbols_to_voxels_3bit m symbols Hm) as (angles & rets & Hvox & Hla & Hlr).
  set (planes := Pipeline.make_tiles symbols angles rets).
  destruct (merkle_init_total 2 [Pipeline.example_shard lib] ltac:(lia) ltac:(discriminate))
    as [t Ht].
  destruct (fill_manifest_example 42 c m (Z.of_nat (length planes))
              (Pipeline.example_codec_info lib) (Hex.hex (Merkle.root t)))
    as (d & integ & enc & ecc & lp & voxel & inter & comp & Hfill & Hinteg & Henc & Hpp
        & Hecc & Hldpc & Hln & Hlk & Hvoxel & Hmode & Hinter & Hspan & Hdepth & Hseed
        & Hcomp & Hinfo).
  set (saved := ManifestFile.with_manifest_hash d integ
                  (ManifestFile.hash_without_integrity (Pipeline.json_dumps_sorted lib) d)).
  set (a := Pipeline.mkArchive planes (Pipeline.json_dump lib (JObj saved))).
  assert (Hpad : VoxelMap.symbols_to_bits m symbols = interleaved ++ [false; false]).
  { unfold symbols. rewrite (symbols_to_bits_to_symbols_3 _ _ Hbpv), Hilen, Hlen.
    reflexivity. }
  assert (Hread : Pipeline.read_bits_interleaved lib (JStr "3bit") a
                  = Ok (interleaved ++ [false; false])).
  { assert (Hcount : (Z.of_nat (length symbols) <= 16384000)%Z).
    { unfold symbols. rewrite (length_bits_to_symbols_3 _ _ Hbpv), Hilen.
      rewrite Nat2Z.inj_div, Nat2Z.inj_add, Hlen. apply Z.div_le_upper_bound; lia. }
    destruct (make_tiles_planes symbols angles rets Hla Hlr Hcount) as [Hplanes Htiles].
    unfold Pipeline.read_bits_interleaved, a. cbn [Pipeline.voxels]. unfold planes.
    rewrite (read_tiles_written _ Hplanes Htiles), <- flat_map_concat.
    rewrite make_tiles_symbols by assumption. rewrite Hm. cbn [bind]. rewrite Hpad.
    reflexivity. }
  exists a, c, all_bits, interleaved, enc, comp.
  split.
  { unfold Pipeline.encode_folder. change ("A" =? "A")%string with true. cbv zeta iota.
    rewrite encode_shards_example, Hmake. cbn [bind]. rewrite Hall. cbn [bind].
    rewrite Hsym. cbn [bind fst snd]. fold symbols. rewrite Hvox. cbn [bind fst snd].
    fold planes. unfold Pipeline.encode_manifest. rewrite Ht, Hfill. cbn [bind].
    rewrite (save_dict _ _ d integ Hinteg). reflexivity. }
  do 9 (split; [assumption|]). split; [exact Hcomp|]. split; [exact Hinfo|].
  assert (Hs : saved !! "encoding"%string = Some (JObj enc)).
  { unfold saved, ManifestFile.with_manifest_hash.
    rewrite lookup_insert_ne by discriminate. exact Henc. }
  unfold Pipeline.decode_archive, a. cbn [Pipeline.manifest_file].
  assert (Hload : ManifestFile.load (Pipeline.text lib) (Pipeline.json_load lib)
                    (Pipeline.json_dumps_sorted lib) (Pipeline.json_dump lib (JObj saved))
                  = Ok (ManifestFile.mkManifest (JObj saved)))
    by (apply (load_saved _ _ d integ), Hjson).
  rewrite Hload. cbn [bind ManifestFile.data]. rewrite (subscript_dict _ _ _ Hs). cbn [bind].
  rewrite (subscript_dict _ _ _ Hpp). cbn [bind].
  rewrite (subscript_dict _ _ _ Hecc). cbn [bind].
  rewrite (subscript_dict _ _ _ Hldpc). cbn [bind].
  rewrite (subscript_dict _ _ _ Hvoxel). cbn [bind].
  rewrite (subscript_dict _ _ _ Hmode). cbn [bind].
  rewrite (subscript_dict _ _ _ Hinter). cbn [bind].
  fold saved a. rewrite Hread. cbn [bind].
  rewrite (subscript_dict _ _ _ Hspan). cbn [bind].
  rewrite (subscript_dict _ _ _ Hdepth). cbn [bind].
  rewrite (subscript_dict _ _ _ Hseed). cbn [bind Pipeline.as_seed].
  unfold Pipeline.decode_bits.
  destruct (Pipeline.deinterleave_bits lib 42 (interleaved ++ [false; false]))
    as [bits_encoded|e]; [|reflexivity].
  cbn [bind].
  rewrite (subscript_dict _ _ _ Hln). cbn [bind].
  rewrite (subscript_dict _ _ _ Hlk). cbn [bind].
  unfold Pipeline.as_nat.
  rewrite (proj2 (Z.ltb_ge _ _) (Nat2Z.is_nonneg (LDPC.n c))). cbn [bind].
  rewrite (proj2 (Z.ltb_ge _ _) (Nat2Z.is_nonneg (LDPC.k c))). cbn [bind].
  rewrite !Nat2Z.id, Hn, Hk, Hinit. reflexivity.
Qed.

(** C1: the end-to-end scenario (folder with [a.txt] and [b.txt], profile A,
    seed 42), for every zstd, numpy, reedsolo and json that behave as
    documented (the sampler draws distinct indices in range, [permutation(n)]
    is a permutation of [0 .. n-1], [json.load] reads back what [json.dump]
    wrote) and a compressed blob that fits one shard.  [encode_folder]
    succeeds; the stream it interleaves has 44032 bits, the 43 LDPC
    codewords of its single shard.  [decode_archive] on the archive reads
    44034 bits back from the symbols (the interleaved stream and the two
    padding bits of the last symbol), regenerates the permutation for that
    length, which is not the permutation of the encoder, and hands 4224
    bytes (44 decoded blocks) to the Reed-Solomon decoder, where the encoder
    had one shard of 4096 bytes that was never Reed-Solomon encoded: what
    [decode_archive] returns is what [recover_files] makes of these bytes. *)
Theorem encode_decode_cycle_is_not_inverted :
  exists (a : Pipeline.archive (Pipeline.text lib)) (ldpc : LDPC.SimpleLDPC)
         (all_bits interleaved bits_interleaved : list bool) (encoding : json)
         (decoded_bytes : bytes),
    Pipeline.encode_folder lib true Pipeline.example_folder "A" 42 = Some (Ok a)
    /\ Pipeline.encode_shards lib Pipeline.PROFILE_A true Pipeline.example_folder
       = Ok (Packer.meta Pipeline.example_packed, Pipeline.example_codec_info lib,
             [Pipeline.example_shard lib])
    /\ length (Pipeline.example_shard lib) = 4096
    /\ Pipeline.make_ldpc lib Pipeline.PROFILE_A = Ok ldpc
    /\ Pipeline.encode_all_bits ldpc [Pipeline.example_shard lib] = Ok all_bits
    /\ Z.of_nat (length all_bits) = 44032%Z
    /\ Interleave.take_indices all_bits
         (fst (Pipeline.permutation lib (Pipeline.default_rng lib 42) (length all_bits)))
       = Ok interleaved
    /\ Pipeline.read_bits_interleaved lib (JStr "3bit") a = Ok bits_interleaved
    /\ bits_interleaved = interleaved ++ [false; false]
    /\ Z.of_nat (length bits_interleaved) = 44034%Z
    /\ Interleave.regenerated_permutation (Pipeline.generator lib) (Pipeline.default_rng lib)
         (Pipeline.permutation lib) 42 (length bits_interleaved)
       <> fst (Pipeline.permutation lib (Pipeline.default_rng lib 42) (length all_bits))
    /\ Z.of_nat (length decoded_bytes) = 4224%Z
    /\ Pipeline.decode_archive lib a = Pipeline.recover_files lib encoding decoded_bytes.
Proof.
  destruct scenario_handoff
    as (a & c & all_bits & interleaved & enc & comp & Henc & Hmake & Hinit & Hn & Hk & Hall
        & Hlen & Htake & Hilen & Hread & _ & _ & Hdecode).
  set (bits := interleaved ++ [false; false]) in *.
  assert (Hbits : Z.of_nat (length bits) = 44034%Z)
    by (unfold bits; rewrite length_app, Nat2Z.inj_add, Hilen, Hlen; reflexivity).
  destruct (deinterleave_bits_total 42 bits (Pos2Z.is_nonneg 42))
    as (bits_encoded & Hde & Hbelen).
  destruct (ldpc_decode_bytes_length c bits_encoded ltac:(lia) ltac:(lia))
    as (decoded_bytes & Hdec & Hdlen).
  exists a, c, all_bits, interleaved, bits, (JObj enc), decoded_bytes.
  split; [exact Henc|].
  split; [exact encode_shards_example|]. split; [exact length_example_shard|].
  split; [exact Hmake|]. split; [exact Hall|]. split; [exact Hlen|].
  split; [exact Htake|]. split; [exact Hread|]. split; [reflexivity|]. split; [exact Hbits|].
  split.
  { intros Heq. apply (f_equal (@length nat)) in Heq.
    unfold Interleave.regenerated_permutation in Heq.
    rewrite (Permutation_length (Hperm _ _)), (Permutation_length (Hperm _ _)) in Heq.
    rewrite !length_seq in Heq. lia. }
  split.
  { rewrite Hdlen, Hbelen, Hn, Hk.
    assert (Hl : length bits = 43 * 1024 + 2) by lia. rewrite Hl.
    assert (Hq : (43 * 1024 + 2 + 1024 - 1) / 1024 = 44)
      by (symmetry; apply (Nat.div_unique _ _ 44 1); lia).
    rewrite Hq.
    assert (Hb : (44 * 768 + 8 - 1) / 8 = 4224)
      by (symmetry; apply (Nat.div_unique _ _ 4224 7); lia).
    rewrite Hb. lia. }
  rewrite Hdecode, Hde. cbn [bind]. rewrite Hdec. reflexivity.
Qed.

End Scenario.

(** *** The reversal as permutation *)

Lemma take_indices_Forall2 {A} (data : list A) (index : list nat) (xs : list A) :
  Forall2 (fun i x => data !! i = Some x) index xs ->
  Interleave.take_indices data index = Ok xs.
Proof.
  induction 1 as [|i x index xs Hi _ IH]; [reflexivity|].
  cbn [Interleave.take_indices]. rewrite Hi, IH. reflexivity.
Qed.

Lemma take_indices_reverse {A} (data : list A) :
  Interleave.take_indices data (reverse (seq 0 (length data))) = Ok (reverse data).
Proof.
  apply take_indices_Forall2, Forall2_reverse, Forall2_same_length_lookup_2.
  - apply Forall2_same_length. apply Forall2_true; [done|]. apply length_seq.
  - intros i j x Hj Hx. apply lookup_seq in Hj. destruct Hj as [-> _]. exact Hx.
Qed.

Lemma inverse_fold_other (l : list (nat * nat)) (inv : list nat) (p : nat) :
  Forall (fun ip => snd ip <> p) l ->
  foldl (fun inv ip => <[snd ip := fst ip]> inv) inv l !! p = inv !! p.
Proof.
  intros Hl. revert inv. induction Hl as [|ip l Hip _ IH]; intros inv; [reflexivity|].
  cbn [foldl]. rewrite IH. apply list_lookup_insert_ne. exact Hip.
Qed.

Lemma inverse_fold_lookup (perm : list nat) :
  NoDup perm ->
  forall (s : nat) (inv : list nat) (j p : nat),
    perm !! j = Some p -> p < length inv ->
    foldl (fun inv ip => <[snd ip := fst ip]> inv) inv (combine (seq s (length perm)) perm) !! p
    = Some (s + j).
Proof.
  induction 1 as [|p0 perm Hp0 _ IH]; intros s inv j p Hj Hp; [discriminate Hj|].
  cbn [length seq combine foldl fst snd]. destruct j as [|j].
  - injection Hj as ->. rewrite inverse_fold_other.
    + rewrite list_lookup_insert_eq by exact Hp. f_equal. lia.
    + apply Forall_forall. intros [i q] Hin. cbn [snd]. intros ->.
      apply list_elem_of_In, in_combine_r, list_elem_of_In in Hin. exact (Hp0 Hin).
  - cbn [lookup] in Hj. rewrite (IH (S s) _ j p Hj) by (rewrite length_insert; exact Hp).
    f_equal. lia.
Qed.

Lemma inverse_permutation_reverse (n : nat) :
  Interleave.inverse_permutation (reverse (seq 0 n)) = reverse (seq 0 n).
Proof.
  assert (Hlen : length (reverse (seq 0 n)) = n) by (rewrite length_reverse; apply length_seq).
  assert (Hnd : NoDup (reverse (seq 0 n))) by (rewrite reverse_Permutation; apply NoDup_seq).
  apply list_eq. intros p. destruct (Nat.lt_ge_cases p n) as [Hp|Hp].
  - rewrite (reverse_lookup (seq 0 n) p) by (rewrite length_seq; exact Hp).
    rewrite length_seq, lookup_seq_lt by lia. cbn [Nat.add].
    unfold Interleave.inverse_permutation.
    rewrite (inverse_fold_lookup _ Hnd 0 _ (n - S p) p).
    + reflexivity.
    + rewrite (reverse_lookup (seq 0 n)) by (rewrite length_seq; lia).
      rewrite length_seq, lookup_seq_lt by lia. f_equal. lia.
    + rewrite repeat_length, Hlen. exact Hp.
  - transitivity (@None nat); [|symmetry]; apply lookup_ge_None.
    + rewrite (proj2 (inverse_permutation_in_range _)), Hlen. exact Hp.
    + rewrite Hlen. exact Hp.
Qed.

Lemma first_choice_contract : LDPC.sampler_contract LDPC.first_choice.
Proof.
  intros st m size. unfold LDPC.first_choice.
  destruct (Nat.leb_spec size m) as [Hle|Hgt].
  - destruct (Nat.ltb_spec m size) as [?|_]; [lia|].
    exists (seq 0 size), st. split; [reflexivity|]. split; [apply NoDup_seq|].
    split; [apply length_seq|]. apply Forall_forall. intros r Hr.
    apply list_elem_of_In, in_seq in Hr. lia.
  - destruct (Nat.ltb_spec m size) as [_|?]; [|lia]. eexists; reflexivity.
Qed.

Lemma example_libraries_permutation (g : Pipeline.generator Pipeline.example_libraries)
    (n : nat) :
  Permutation (fst (Pipeline.permutation Pipeline.example_libraries g n)) (seq 0 n).
Proof. cbn [Pipeline.permutation Pipeline.example_libraries fst]. apply reverse_Permutation. Qed.

Lemma example_libraries_one_shard :
  1 <= length (Pipeline.example_compressed Pipeline.example_libraries) <= 4096.
Proof.
  assert (H : length (Pipeline.example_compressed Pipeline.example_libraries) = 69)
    by (vm_compute; reflexivity).
  rewrite H. lia.
Qed.

Lemma encode_decode_cycle_witness :
  exists a decoded_bytes encoding,
    Pipeline.encode_folder Pipeline.example_libraries true Pipeline.example_folder "A" 42
    = Some (Ok a)
    /\ Z.of_nat (length decoded_bytes) = 4224%Z
    /\ Pipeline.decode_archive Pipeline.example_libraries a
       = Pipeline.recover_files Pipeline.example_libraries encoding decoded_bytes.
Proof.
  destruct (encode_decode_cycle_is_not_inverted Pipeline.example_libraries
              first_choice_contract example_libraries_permutation
              example_libraries_one_shard (fun v => eq_refl))
    as (a & _ & _ & _ & _ & encoding & decoded_bytes & Henc & _ & _ & _ & _ & _ & _ & _
        & _ & _ & _ & Hlen & Hdec).
  exists a, decoded_bytes, encoding. split; [exact Henc|]. split; [exact Hlen | exact Hdec].
Defined.

(** *** The sampler of the first indices: every column of [H] is the same,
    and the decoder only ever flips bit 0 *)

Lemma nth_map_repeat {A B} (f : A -> B) (x : A) (n i : nat) (d : B) :
  i < n -> nth i (map f (repeat x n)) d = f x.
Proof.
  revert i. induction n as [|n IH]; intros [|i] Hi; cbn [repeat map nth]; try lia.
  - reflexivity.
  - apply IH. lia.
Qed.

Lemma draw_columns_first (cols m : nat) :
  3 <= m ->
  LDPC.draw_columns unit LDPC.first_choice cols m tt = Ok (repeat (seq 0 3) cols).
Proof.
  intros Hm. induction cols as [|cols IH]; [reflexivity|].
  cbn [LDPC.draw_columns repeat]. unfold LDPC.first_choice at 1.
  destruct (Nat.ltb_spec m 3) as [?|_]; [lia|]. cbn [bind fst snd]. rewrite IH. reflexivity.
Qed.

Lemma init_first_columns (n k : nat) (c : LDPC.SimpleLDPC) :
  3 <= n - k ->
  LDPC.init unit (fun _ => tt) LDPC.first_choice n k = Ok c ->
  LDPC.n c = n /\ LDPC.k c = k
  /\ forall i, i < n ->
       LDPC.column (LDPC.H c) i = map (fun r => bool_decide (r ∈ seq 0 3)) (seq 0 (n - k)).
Proof.
  intros Hm. unfold LDPC.init. rewrite generate_parity_matrix_pos by lia.
  destruct (Nat.ltb_spec n k) as [?|_]; [lia|].
  rewrite draw_columns_first by exact Hm. cbn [bind]. intros Hc. injection Hc as <-.
  cbn [LDPC.n LDPC.k LDPC.H]. split; [reflexivity|]. split; [reflexivity|].
  intros i Hi. unfold LDPC.column. rewrite map_map. apply map_ext. intros r.
  apply (nth_map_repeat (fun indices => bool_decide (r ∈ indices))). exact Hi.
Qed.

Lemma flip_step_constant (c : LDPC.SimpleLDPC) (col syn word : list bool) :
  0 < LDPC.n c -> (forall i, i < LDPC.n c -> LDPC.column (LDPC.H c) i = col) ->
  LDPC.flip_step c syn word = Ok word \/ LDPC.flip_step c syn word = Ok (LDPC.flip 0 word).
Proof.
  intros Hn Hcol. unfold LDPC.flip_step.
  assert (Hu : map (fun i => LDPC.dot (LDPC.column (LDPC.H c) i) syn) (seq 0 (LDPC.n c))
               = map (fun _ => LDPC.dot col syn) (seq 0 (LDPC.n c))).
  { apply map_ext_in. intros i Hi. apply in_seq in Hi. rewrite Hcol by lia. reflexivity. }
  rewrite Hu. destruct (LDPC.n c) as [|n']; [lia|]. cbn [seq map LDPC.argmax].
  rewrite argmax_from_keep.
  - cbn [nth]. destruct (0 <? LDPC.dot col syn); auto.
  - apply Forall_forall. intros x Hx. apply list_elem_of_In, in_map_iff in Hx.
    destruct Hx as (? & <- & _). lia.
Qed.

Lemma decode_loop_constant (c : LDPC.SimpleLDPC) (max_iter : nat) :
  (forall syn word,
     LDPC.flip_step c syn word = Ok word \/ LDPC.flip_step c syn word = Ok (LDPC.flip 0 word)) ->
  forall (x : bool) (rest : list bool),
  exists x' ok, LDPC.decode_loop c max_iter (x :: rest) = Ok (take (LDPC.k c) (x' :: rest), ok).
Proof.
  intros Hflip. induction max_iter as [|it IH]; intros x rest; cbn [LDPC.decode_loop].
  - exists x, false. reflexivity.
  - destruct (Nat.eqb _ 0); [exists x, true; reflexivity|].
    destruct (Hflip (LDPC.syndrome (LDPC.H c) (x :: rest)) (x :: rest)) as [E|E];
      rewrite E; cbn [bind]; [apply IH|].
    change (LDPC.flip 0 (x :: rest)) with (negb x :: rest). apply IH.
Qed.

(** With such a codec the message bits after the first are those received. *)
Lemma decode_hard_constant (c : LDPC.SimpleLDPC) (col : list bool) (x : bool)
    (rest : list bool) :
  0 < LDPC.n c -> (forall i, i < LDPC.n c -> LDPC.column (LDPC.H c) i = col) ->
  length (x :: rest) = LDPC.n c ->
  exists x' ok, LDPC.decode_hard c (x :: rest) 50 = Ok (take (LDPC.k c) (x' :: rest), ok).
Proof.
  intros Hn Hcol Hlen. unfold LDPC.decode_hard. rewrite Hlen, Nat.eqb_refl. cbn [negb].
  apply decode_loop_constant. intros syn word. apply (flip_step_constant c col); assumption.
Qed.

Lemma chunks_cons {A} (fuel size : nat) (x : A) (l : list A) :
  chunks (S fuel) size (x :: l) = take size (x :: l) :: chunks fuel size (drop size (x :: l)).
Proof. reflexivity. Qed.

(** A byte packed from eight bits of which the second is 0 is not "C". *)
Lemma packed_byte_not_C (b0 b2 b3 b4 b5 b6 b7 : bool) :
  byte_of_Z (fold_left (fun acc b => (2 * acc + VoxelMap.bit b)%Z)
                       (Pipeline.pad_bits 8 [b0; false; b2; b3; b4; b5; b6; b7]) 0%Z)
  <> "C"%byte.
Proof. destruct b0, b2, b3, b4, b5, b6, b7; vm_compute; discriminate. Qed.

(** Step 4 on a stream that begins with two zero bits: the first byte. *)
Lemma ldpc_decode_first_byte (c : LDPC.SimpleLDPC) (col : list bool) (rest : list bool) :
  LDPC.n c = 1024 -> LDPC.k c = 768 ->
  (forall i, i < LDPC.n c -> LDPC.column (LDPC.H c) i = col) ->
  1022 <= length rest ->
  exists first others,
    Pipeline.ldpc_decode_bytes c (false :: false :: rest) = Ok (first :: others)
    /\ first <> "C"%byte.
Proof.
  intros Hn Hk Hcol Hrest. unfold Pipeline.ldpc_decode_bytes. rewrite Hn.
  cbn [length]. rewrite chunks_cons. cbn [map Pipeline.collect].
  assert (Hblock : exists t,
             Pipeline.pad_bits 1024 (take 1024 (false :: false :: rest)) = false :: false :: t
             /\ length t = 1022).
  { exists (take 1022 rest ++ repeat false (1024 - length (take 1024 (false :: false :: rest)))).
    split; [reflexivity|]. rewrite length_app, repeat_length, !length_take. cbn [length]. lia. }
  destruct Hblock as (t & -> & Ht).
  destruct (decode_hard_constant c col false (false :: t)) as (x' & ok & Hdec);
    [lia | exact Hcol | cbn [length]; lia |].
  rewrite Hdec. cbn [bind fst]. rewrite Hk.
  destruct t as [|b2 [|b3 [|b4 [|b5 [|b6 [|b7 t]]]]]]; cbn [length] in Ht; try lia.
  set (tail_blocks := map (Pipeline.pad_bits 1024) _).
  destruct (collect_total (fun block => let* r := LDPC.decode_hard c block 50 in Ok (fst r))
              (fun msg => length msg = LDPC.k c) tail_blocks) as (ms & Hms & _).
  { unfold tail_blocks. apply Forall_map. eapply Forall_impl; [apply chunks_bounded|].
    intros block Hblock. cbn beta.
    destruct (decode_hard_total c (Pipeline.pad_bits 1024 block)) as (msg & ok' & Hd & Hmsg);
      [lia | lia | rewrite Hn; apply length_pad_bits; exact Hblock |].
    rewrite Hd. cbn [bind fst]. eexists. split; [reflexivity | exact Hmsg]. }
  rewrite Hms. cbn [bind concat].
  change (take 768 (x' :: false :: b2 :: b3 :: b4 :: b5 :: b6 :: b7 :: t))
    with (x' :: false :: b2 :: b3 :: b4 :: b5 :: b6 :: b7 :: take 760 t).
  unfold Pipeline.packbits. cbn [app length]. rewrite chunks_cons. cbn [map firstn].
  eexists; eexists. split; [reflexivity|]. apply packed_byte_not_C.
Qed.

Lemma decode_chunks_drop (nsym : nat) (cs : list bytes) :
  ReedSolomon.decode_chunks (Pipeline.rs_decode Pipeline.example_libraries) nsym cs
  = Some (flat_map (fun chunk => take (length chunk - nsym) chunk) cs).
Proof.
  induction cs as [|chunk cs IH]; [reflexivity|].
  cbn [ReedSolomon.decode_chunks flat_map]. rewrite IH. reflexivity.
Qed.

(** The parity-dropping decoder keeps the first byte of a long stream. *)
Lemma rs_decode_first_byte (first : byte) (others : bytes) :
  254 <= length others ->
  exists recovered,
    ReedSolomon.decode (Pipeline.rs_decode Pipeline.example_libraries) ReedSolomon.default
      (first :: others)
    = Some (first :: recovered).
Proof.
  intros Hlen. unfold ReedSolomon.decode. rewrite decode_chunks_drop.
  change (ReedSolomon.n ReedSolomon.default) with 255.
  change (ReedSolomon.nsym ReedSolomon.default) with 32.
  cbn [length]. rewrite chunks_cons. cbn [flat_map].
  assert (Hc : length (take 255 (first :: others)) = 255)
    by (rewrite length_take; cbn [length]; lia).
  rewrite Hc. change (255 - 32) with 223.
  change (take 255 (first :: others)) with (first :: take 254 others).
  change (take 223 (first :: take 254 others)) with (first :: take 222 (take 254 others)).
  cbn [app]. eexists. reflexivity.
Qed.

Lemma example_codec_is_zstd (data : bytes) :
  Compression.decompress_data (Pipeline.zstd_decompress Pipeline.example_libraries)
    (Pipeline.lzma_decompress Pipeline.example_libraries) data
    (Pipeline.example_codec_info Pipeline.example_libraries)
  = Ok data.
Proof.
  unfold Compression.decompress_data.
  assert (H : Pipeline.example_codec_info Pipeline.example_libraries !! "codec"%string
              = Some (JStr "zstd")) by (vm_compute; reflexivity).
  rewrite H. reflexivity.
Qed.

(** C1 on an instance: with libraries that honour these contracts in the
    simplest way (no compression, the reversal as permutation, a sampler
    that draws the first indices, a Reed-Solomon decoder that returns the
    message bytes of every chunk), [decode_archive] on what [encode_folder]
    wrote does not return the two files.  The decoder reverses the 44034
    bits it read, so its stream starts with the two padding bits; the first
    byte it recovers is not the first byte of the header, and
    [unpack_bytes_to_folder] raises [ValueError]. *)
Lemma encode_decode_cycle_raises :
  Pipeline.encode_then_decode Pipeline.example_libraries true Pipeline.example_folder "A" 42
  = Some (Raise (ValueError "Invalid archive format")).
Proof.
  destruct (scenario_handoff Pipeline.example_libraries first_choice_contract
              example_libraries_permutation example_libraries_one_shard (fun v => eq_refl))
    as (a & c & all_bits & interleaved & enc & comp & Henc & _ & Hinit & _ & _ & _ & Hlen
        & _ & Hilen & _ & Hcomp & Hinfo & Hdecode).
  unfold Pipeline.encode_then_decode. rewrite Henc. f_equal. rewrite Hdecode.
  destruct (init_first_columns 1024 768 c ltac:(lia) Hinit) as (Hn & Hk & Hcol).
  change (1024 - 768) with 256 in Hcol. rewrite <- Hn in Hcol.
  assert (Hde : Pipeline.deinterleave_bits Pipeline.example_libraries 42
                  (interleaved ++ [false; false])
                = Ok (false :: false :: reverse interleaved)).
  { unfold Pipeline.deinterleave_bits, Interleave.block_deinterleave,
      Interleave.regenerated_permutation.
    cbn [Pipeline.permutation Pipeline.default_rng Pipeline.example_libraries fst].
    rewrite inverse_permutation_reverse, take_indices_reverse, reverse_app. reflexivity. }
  rewrite Hde. cbn [bind].
  assert (Hrev : length (reverse interleaved) = 43 * 1024)
    by (rewrite length_reverse, Hilen; lia).
  destruct (ldpc_decode_first_byte c _ (reverse interleaved) Hn Hk Hcol ltac:(lia))
    as (first & others & Hfirst & Hne).
  destruct (ldpc_decode_bytes_length c (false :: false :: reverse interleaved)
              ltac:(lia) ltac:(lia)) as (decoded_bytes & Hdec & Hdlen).
  rewrite Hfirst in Hdec. injection Hdec as <-. rewrite Hfirst. cbn [bind].
  assert (Hothers : 254 <= length others).
  { cbn [length] in Hdlen. rewrite Hrev, Hn, Hk in Hdlen.
    assert (Hq : (S (S (43 * 1024)) + 1024 - 1) / 1024 = 44)
      by (symmetry; apply (Nat.div_unique _ _ 44 1); lia).
    rewrite Hq in Hdlen.
    assert (Hb : (44 * 768 + 8 - 1) / 8 = 4224)
      by (symmetry; apply (Nat.div_unique _ _ 4224 7); lia).
    rewrite Hb in Hdlen. lia. }
  destruct (rs_decode_first_byte first others Hothers) as (recovered & Hrs).
  unfold Pipeline.recover_files. rewrite Hrs.
  rewrite (subscript_dict _ _ _ Hcomp). cbn [bind].
  rewrite (subscript_dict _ _ _ Hinfo). cbn [bind].
  rewrite example_codec_is_zstd. cbn [bind].
  unfold Packer.unpack_bytes_to_folder.
  rewrite bool_decide_false; [reflexivity|].
  intros Hmagic. apply Hne. injection Hmagic as Hhead _. exact Hhead.
Qed.

(** * Part III: further properties of the code *)

(** ** [packer.py]: unpacking what was packed *)

Lemma Z_of_byte_of_Z (z : Z) : Z_of_byte (byte_of_Z z) = (z mod 256)%Z.
Proof.
  unfold Z_of_byte, byte_of_Z.
  pose proof (Z.mod_pos_bound z 256 ltac:(lia)) as Hz.
  destruct (Byte.of_N (Z.to_N (z mod 256))) as [b|] eqn:Eb.
  - apply Byte.to_of_N in Eb. rewrite Eb. lia.
  - apply Byte.of_N_None_iff in Eb. lia.
Qed.

Lemma from_bytes_big_be_bytes (z : Z) :
  (0 <= z < 2 ^ 64)%Z -> Packer.from_bytes_big (SHA256.be_bytes 8 z) = z.
Proof.
  intros Hz. unfold Packer.from_bytes_big, SHA256.be_bytes.
  cbn [seq map fold_left Nat.sub Z.of_nat Z.mul Pos.mul Pos.of_succ_nat Pos.succ].
  rewrite !Z_of_byte_of_Z, !Z.shiftr_div_pow2 by lia.
  change (2 ^ (8 * Z.of_nat 7))%Z with (256 * 256 * 256 * 256 * 256 * 256 * 256)%Z.
  change (2 ^ (8 * Z.of_nat 6))%Z with (256 * 256 * 256 * 256 * 256 * 256)%Z.
  change (2 ^ (8 * Z.of_nat 5))%Z with (256 * 256 * 256 * 256 * 256)%Z.
  change (2 ^ (8 * Z.of_nat 4))%Z with (256 * 256 * 256 * 256)%Z.
  change (2 ^ (8 * Z.of_nat 3))%Z with (256 * 256 * 256)%Z.
  change (2 ^ (8 * Z.of_nat 2))%Z with (256 * 256)%Z.
  change (2 ^ (8 * Z.of_nat 1))%Z with 256%Z.
  change (2 ^ (8 * Z.of_nat 0))%Z with 1%Z. rewrite Z.div_1_r.
  rewrite <- !Z.div_div by lia.
  pose proof (Z.div_mod z 256 ltac:(lia)).
  pose proof (Z.div_mod (z / 256) 256 ltac:(lia)).
  pose proof (Z.div_mod (z / 256 / 256) 256 ltac:(lia)).
  pose proof (Z.div_mod (z / 256 / 256 / 256) 256 ltac:(lia)).
  pose proof (Z.div_mod (z / 256 / 256 / 256 / 256) 256 ltac:(lia)).
  pose proof (Z.div_mod (z / 256 / 256 / 256 / 256 / 256) 256 ltac:(lia)).
  pose proof (Z.div_mod (z / 256 / 256 / 256 / 256 / 256 / 256) 256 ltac:(lia)).
  pose proof (Z.div_mod (z / 256 / 256 / 256 / 256 / 256 / 256 / 256) 256 ltac:(lia)).
  assert (z / 256 / 256 / 256 / 256 / 256 / 256 / 256 / 256 = 0)%Z.
  { rewrite !Z.div_div by lia. apply Z.div_small. lia. }
  lia.
Qed.

Lemma find_zero_terminator (name rest : bytes) :
  (x00 ∉ name) -> Packer.find_zero (name ++ x00 :: rest) = Some (length name).
Proof.
  induction name as [|b name IH]; intros Hn; [reflexivity|].
  cbn [app Packer.find_zero length]. destruct (Byte.eqb b x00) eqn:Eb.
  - apply Byte.byte_dec_bl in Eb. subst b. exfalso. apply Hn. left.
  - rewrite IH; [reflexivity|]. intros Hin. apply Hn. right. exact Hin.
Qed.

Lemma drop_after_terminator {A} (l : list A) (x : A) (rest : list A) :
  drop (S (length l)) (l ++ x :: rest) = rest.
Proof. induction l as [|y l IH]; [reflexivity | exact IH]. Qed.

Lemma unpack_records_packed (fs : list (string * bytes)) :
  Forall (fun f => valid_utf8 (encode_utf8 (fst f)) = true
                   /\ (x00 ∉ encode_utf8 (fst f)) /\ (Z.of_nat (length (snd f)) < 2 ^ 64)%Z) fs ->
  forall (fuel : nat) (rest : bytes),
    length fs <= fuel ->
    Packer.unpack_records fuel
      (flat_map (fun f => Packer.record (fst f) (snd f)) fs ++ rest)
    = (let* written := Packer.unpack_records (fuel - length fs) rest in Ok (fs ++ written)).
Proof.
  induction 1 as [|[p d] fs (Hv & Hp & Hd) _ IH]; intros fuel rest Hfuel.
  - cbn [flat_map app length]. rewrite Nat.sub_0_r.
    destruct (Packer.unpack_records fuel rest); reflexivity.
  - destruct fuel as [|fuel]; [cbn [length] in Hfuel; lia|].
    cbn [flat_map fst snd length Nat.sub] in *. rewrite <- app_assoc.
    set (R := flat_map (fun f => Packer.record (fst f) (snd f)) fs ++ rest).
    set (be := SHA256.be_bytes 8 (Z.of_nat (length d))).
    assert (Hbe : length be = 8) by reflexivity.
    replace (Packer.record p d ++ R)
      with (Packer.file_marker ++ (encode_utf8 p ++ x00 :: (be ++ (d ++ R))))
      by (unfold Packer.record, Packer.packed_record; fold be; rewrite <- !app_assoc;
          reflexivity).
    cbn [Packer.unpack_records].
    rewrite take_app_length', drop_app_length' by reflexivity.
    rewrite bool_decide_true by reflexivity. cbn [negb].
    rewrite (find_zero_terminator _ _ Hp).
    rewrite take_app_length.
    rewrite drop_after_terminator.
    unfold bytes_decode. rewrite Hv. cbn [bind].
    destruct (Nat.ltb_spec (length (be ++ d ++ R)) 8) as [Hlt|_];
      [rewrite length_app in Hlt; lia|].
    rewrite take_app_length', drop_app_length' by (symmetry; exact Hbe).
    assert (Hsize : Packer.from_bytes_big be = Z.of_nat (length d))
      by (apply from_bytes_big_be_bytes; lia).
    rewrite !Hsize.
    destruct (Z.ltb_spec (Z.of_nat (length (d ++ R))) (Z.of_nat (length d))) as [Hlt|_];
      [rewrite length_app in Hlt; lia|].
    rewrite Nat2Z.id, take_app_length, drop_app_length.
    unfold decode_utf8, encode_utf8. rewrite string_of_list_byte_of_string.
    unfold R. rewrite IH by lia.
    destruct (Packer.unpack_records (fuel - length fs) rest); reflexivity.
Qed.

Lemma unpack_records_nil (fuel : nat) : Packer.unpack_records fuel [] = Ok [].
Proof. destruct fuel; reflexivity. Qed.

Lemma length_record_pos (p : string) (d : bytes) : 1 <= length (Packer.record p d).
Proof.
  unfold Packer.record, Packer.packed_record. rewrite length_app.
  cbn [length Packer.file_marker]. cbn. lia.
Qed.

Lemma length_records (fs : list (string * bytes)) :
  length fs <= length (flat_map (fun f => Packer.record (fst f) (snd f)) fs).
Proof.
  induction fs as [|f fs IH]; [reflexivity|].
  cbn [flat_map length]. rewrite length_app.
  pose proof (length_record_pos (fst f) (snd f)). lia.
Qed.

Lemma unpackable_files (fs : list (string * result bytes)) :
  Forall (fun f => valid_utf8 (encode_utf8 (fst f)) = true) fs ->
  Forall (fun f => (x00 ∉ encode_utf8 (fst f)) /\ (Z.of_nat (length (snd f)) < 2 ^ 64)%Z)
         (Packer.readable fs) ->
  Forall (fun f => valid_utf8 (encode_utf8 (fst f)) = true
                   /\ (x00 ∉ encode_utf8 (fst f)) /\ (Z.of_nat (length (snd f)) < 2 ^ 64)%Z)
         (Packer.readable fs).
Proof.
  intros Hnames Hfiles. apply Forall_and. split; [|exact Hfiles].
  apply (readable_names _ (fun p => valid_utf8 (encode_utf8 p) = true)), Hnames.
Qed.

(** X1: [unpack_bytes_to_folder] inverts [pack_folder_to_bytes].  For an
    existing folder whose file names are UTF-8, in which no relative path
    of a readable file holds a NUL byte and every readable file is shorter
    than 2^64 bytes, packing returns a blob, and unpacking that blob writes
    exactly the readable files, each under its relative path and with its
    bytes, in the order they were packed. *)
Theorem unpack_inverts_pack (walk : Packer.listing) :
  Forall (fun f => valid_utf8 (encode_utf8 (fst f)) = true) (Packer.visited walk) ->
  Forall (fun f => (x00 ∉ encode_utf8 (fst f)) /\ (Z.of_nat (length (snd f)) < 2 ^ 64)%Z)
         (Packer.readable (Packer.visited walk)) ->
  exists packed,
    Packer.pack_folder_to_bytes true walk = Ok packed
    /\ Packer.unpack_bytes_to_folder (Packer.parts packed)
       = Ok (Packer.readable (Packer.visited walk)).
Proof.
  intros Hnames Hfiles. pose proof (unpackable_files _ Hnames Hfiles) as Hall.
  unfold Packer.pack_folder_to_bytes. rewrite pack_file_fold
    by (apply (readable_names _ (fun p => valid_utf8 (encode_utf8 p) = true)), Hnames).
  eexists. split; [reflexivity|]. cbn [Packer.parts].
  set (fs := Packer.readable (Packer.visited walk)) in *.
  unfold Packer.unpack_bytes_to_folder.
  rewrite take_app_length', drop_app_length' by reflexivity.
  rewrite bool_decide_true by reflexivity. cbn [negb].
  replace (flat_map (fun f => Packer.record (fst f) (snd f)) fs)
    with (flat_map (fun f => Packer.record (fst f) (snd f)) fs ++ []) by apply app_nil_r.
  rewrite (unpack_records_packed fs Hall).
  - rewrite unpack_records_nil. cbn [bind]. rewrite app_nil_r. reflexivity.
  - rewrite !length_app. pose proof (length_records fs). lia.
Qed.

Lemma unpack_inverts_pack_witness :
  exists packed,
    Packer.pack_folder_to_bytes true Pipeline.example_folder = Ok packed
    /\ Packer.unpack_bytes_to_folder (Packer.parts packed)
       = Ok [("a.txt"%string, encode_utf8 "Hello World");
             ("b.txt"%string, encode_utf8 "Test content")].
Proof.
  apply (unpack_inverts_pack Pipeline.example_folder).
  - repeat constructor.
  - repeat constructor; cbn; try lia; intros Hin; repeat (apply elem_of_cons in Hin as [Hin|Hin]; [discriminate Hin|]); inversion Hin.
Defined.

(** ** [codecs/compression.py]: decompressing what was compressed *)

(** X2: [decompress_data] inverts [compress_data] for every codec name.
    With a zstd and an lzma whose decompressors return what their
    compressors were given, the [codec_info] that [compress_data] returns
    makes [decompress_data] give the data back: under its own codec for
    "zstd" and "xz", and unchanged for every other name, which is recorded
    as "none". *)
Theorem decompress_inverts_compress
    (zstd_compress lzma_compress : bytes -> Z -> bytes)
    (zstd_decompress lzma_decompress : bytes -> result bytes) (ZSTD_VERSION : json)
    (data : bytes) (codec : string) (level : Z) :
  (forall d l, zstd_decompress (zstd_compress d l) = Ok d) ->
  (forall d l, lzma_decompress (lzma_compress d l) = Ok d) ->
  Compression.decompress_data zstd_decompress lzma_decompress
    (fst (Compression.compress_data zstd_compress lzma_compress ZSTD_VERSION data codec level))
    (snd (Compression.compress_data zstd_compress lzma_compress ZSTD_VERSION data codec level))
  = Ok data.
Proof.
  intros Hz Hl. unfold Compression.compress_data, Compression.decompress_data.
  destruct (String.eqb codec "zstd"); [|destruct (String.eqb codec "xz")]; cbn [fst snd];
    rewrite !lookup_insert_ne by discriminate;
    match goal with
    | |- context [list_to_map ?l !! ?k] =>
        change (list_to_map l !! k) with (Some (JStr "zstd"))
        || change (list_to_map l !! k) with (Some (JStr "xz"))
        || change (list_to_map l !! k) with (Some (JStr "none"))
    end; cbv iota beta; auto.
Qed.

Lemma decompress_inverts_compress_witness :
  Compression.decompress_data Ok Ok
    (fst (Compression.compress_data (fun d _ => d) (fun d _ => d) JNull
            (encode_utf8 "abc") "xz" 6))
    (snd (Compression.compress_data (fun d _ => d) (fun d _ => d) JNull
            (encode_utf8 "abc") "xz" 6))
  = Ok (encode_utf8 "abc").
Proof.
  apply (decompress_inverts_compress (fun d _ => d) (fun d _ => d) Ok Ok); reflexivity.
Defined.

(** ** [codecs/interleave.py]: the block interleaver *)

Lemma take_indices_spec {A} (data : list A) (index : list nat) (xs : list A) :
  Interleave.take_indices data index = Ok xs ->
  Forall2 (fun i x => data !! i = Some x) index xs.
Proof.
  revert xs. induction index as [|i index IH]; intros xs Hx; cbn [Interleave.take_indices] in Hx.
  - injection Hx as <-. constructor.
  - destruct (data !! i) as [x|] eqn:Ei; [|discriminate Hx].
    destruct (Interleave.take_indices data index) as [ys|e]; [|discriminate Hx].
    cbn [bind] in Hx. injection Hx as <-. constructor; [exact Ei | apply IH; reflexivity].
Qed.

Lemma inverse_permutation_lookup (perm : list nat) (j p : nat) :
  NoDup perm -> Forall (fun i => i < length perm) perm ->
  perm !! j = Some p -> Interleave.inverse_permutation perm !! p = Some j.
Proof.
  intros Hnd Hall Hj. unfold Interleave.inverse_permutation.
  rewrite (inverse_fold_lookup perm Hnd 0 _ j p Hj); [reflexivity|].
  rewrite repeat_length. eapply Forall_lookup_1 in Hall; [exact Hall | exact Hj].
Qed.

Lemma block_deinterleave_take_indices {A} (data xs : list A) (perm : list nat) :
  Permutation perm (seq 0 (length data)) ->
  Interleave.take_indices data perm = Ok xs ->
  Interleave.take_indices xs (Interleave.inverse_permutation perm) = Ok data.
Proof.
  intros Hp Hxs. apply take_indices_spec in Hxs.
  assert (Hnd : NoDup perm) by (rewrite Hp; apply NoDup_seq).
  assert (Hlen : length perm = length data)
    by (rewrite (Permutation_length Hp); apply length_seq).
  assert (Hall : Forall (fun i => i < length perm) perm)
    by (rewrite Hlen; apply (permutation_in_range _ _ Hp)).
  apply take_indices_Forall2, Forall2_same_length_lookup_2.
  - apply Forall2_same_length. apply Forall2_true; [done|].
    rewrite (proj2 (inverse_permutation_in_range perm)). exact Hlen.
  - intros p j x Hinv Hx.
    assert (Hin : p ∈ perm).
    { rewrite Hp. apply elem_of_seq. apply lookup_lt_Some in Hx. lia. }
    apply list_elem_of_lookup in Hin. destruct Hin as [j' Hj'].
    rewrite (inverse_permutation_lookup perm j' p Hnd Hall Hj') in Hinv.
    injection Hinv as <-.
    destruct (Forall2_lookup_l _ _ _ _ _ Hxs Hj') as (y & Hy & Hdata).
    rewrite Hy. congruence.
Qed.

(** X3: [block_deinterleave] inverts [block_interleave].  For a generator
    whose [permutation(n)] is a permutation of [0 .. n-1], interleaving
    never fails, and deinterleaving its output with the permutation it
    returned gives the data back, on any interleaver instance. *)
Theorem block_deinterleave_inverts_interleave (generator : Type)
    (permutation : generator -> nat -> list nat * generator)
    (il il' : Interleave.Interleaver generator) {A} (data : list A) :
  (forall g n, Permutation (fst (permutation g n)) (seq 0 n)) ->
  exists interleaved perm,
    fst (Interleave.block_interleave generator permutation il data) = Ok (interleaved, perm)
    /\ length interleaved = length data
    /\ Interleave.block_deinterleave generator il' interleaved perm = Ok data.
Proof.
  intros Hperm. unfold Interleave.block_interleave, Interleave.block_deinterleave.
  pose proof (Hperm (Interleave.rng generator il) (length data)) as Hp.
  destruct (permutation (Interleave.rng generator il) (length data)) as [perm g'].
  cbn [fst] in *.
  destruct (take_indices_in_range data perm (permutation_in_range _ _ Hp)) as (xs & Hxs & Hlen).
  rewrite Hxs. cbn [bind]. exists xs, perm. split; [reflexivity|]. split.
  - rewrite Hlen, (Permutation_length Hp). apply length_seq.
  - apply block_deinterleave_take_indices; assumption.
Qed.

Lemma block_deinterleave_inverts_interleave_witness :
  exists interleaved perm,
    fst (Interleave.block_interleave nat (fun g n => (reverse (seq 0 n), S g))
           (Interleave.mkInterleaver nat 10000 16 42 42%nat) [true; false; false])
    = Ok (interleaved, perm)
    /\ length interleaved = 3
    /\ Interleave.block_deinterleave nat (Interleave.mkInterleaver nat 10000 16 42 42%nat)
         interleaved perm
       = Ok [true; false; false].
Proof.
  apply (block_deinterleave_inverts_interleave nat (fun g n => (reverse (seq 0 n), S g))).
  intros g n. apply reverse_Permutation.
Defined.

(** X26: only the first [block_interleave] of an instance draws the
    permutation that [decode_archive] regenerates.  With a generator whose
    draw number [g] is [range(n)] rotated by [g], a fresh interleaver with
    seed 42 permutes three elements by [0, 1, 2], and the same instance
    then permutes them by [1, 2, 0]: the generator has advanced, while the
    permutation regenerated from the seed is still the first. *)
Theorem second_block_interleave_draws_again :
  exists il il',
    Interleave.init nat (fun _ => 0%nat) 10000 16 42 = Ok il
    /\ Interleave.block_interleave nat (fun g n => (rotate g (seq 0 n), S g)) il
         [x61; x62; x63]
       = (Ok ([x61; x62; x63], [0; 1; 2]), il')
    /\ fst (Interleave.block_interleave nat (fun g n => (rotate g (seq 0 n), S g)) il'
              [x61; x62; x63])
       = Ok ([x62; x63; x61], [1; 2; 0])
    /\ Interleave.regenerated_permutation nat (fun _ => 0%nat)
         (fun g n => (rotate g (seq 0 n), S g)) 42 3
       = [0; 1; 2].
Proof. do 2 eexists. repeat split. Qed.

(** ** [mapping/voxel_map.py]: bits and symbols *)

Lemma init_modes (mode : string) (m : VoxelMap.VoxelMapper) :
  VoxelMap.init mode = Ok m ->
  VoxelMap.bits_per_voxel m = 3%Z \/ VoxelMap.bits_per_voxel m = 5%Z.
Proof.
  unfold VoxelMap.init. destruct (String.eqb mode "3bit"); [|destruct (String.eqb mode "5bit")];
    intros Hm; [injection Hm as <-; left; reflexivity
               | injection Hm as <-; right; reflexivity | discriminate Hm].
Qed.

Lemma chunk_bits_3 (chunk : list bool) :
  length chunk = 3 -> VoxelMap.symbol_bits 3 (VoxelMap.chunk_symbol 3 chunk) = chunk.
Proof.
  destruct chunk as [|a [|b [|c [|? ?]]]]; try discriminate. intros _.
  destruct a, b, c; reflexivity.
Qed.

Lemma chunk_bits_5 (chunk : list bool) :
  length chunk = 5 -> VoxelMap.symbol_bits 5 (VoxelMap.chunk_symbol 5 chunk) = chunk.
Proof.
  destruct chunk as [|a [|b [|c [|d [|e [|? ?]]]]]]; try discriminate. intros _.
  destruct a, b, c, d, e; reflexivity.
Qed.

Lemma chunks_symbols (w : nat) (q fuel : nat) (l : list bool) :
  0 < w ->
  (forall chunk, length chunk = w ->
     VoxelMap.symbol_bits (Z.of_nat w) (VoxelMap.chunk_symbol (Z.of_nat w) chunk) = chunk) ->
  length l = w * q -> length l <= fuel ->
  flat_map (VoxelMap.symbol_bits (Z.of_nat w))
           (map (VoxelMap.chunk_symbol (Z.of_nat w)) (chunks fuel w l)) = l.
Proof.
  intros Hw Hrt. revert fuel l. induction q as [|q IH]; intros fuel l Hl Hfuel.
  - destruct l; [|cbn [length] in Hl; lia]. rewrite chunks_nil. reflexivity.
  - destruct l as [|x l]; [cbn [length] in Hl; lia|].
    destruct fuel as [|fuel]; [cbn [length] in Hfuel; lia|].
    rewrite chunks_cons. cbn [map flat_map].
    rewrite Hrt by (rewrite length_take; lia).
    rewrite (IH fuel (drop w (x :: l))).
    + apply take_drop.
    + rewrite length_drop. lia.
    + rewrite length_drop. cbn [length] in *. lia.
Qed.

Lemma padded_length_multiple (w len : Z) :
  (0 < w)%Z -> ((len + (w - len mod w) mod w) mod w = 0)%Z.
Proof.
  intros Hw. rewrite Zplus_mod_idemp_r.
  replace (len + (w - len mod w))%Z with (len - len mod w + 1 * w)%Z by lia.
  rewrite Z.mod_add by lia. rewrite Zminus_mod_idemp_r, Z.sub_diag. apply Z.mod_0_l. lia.
Qed.

Lemma symbols_to_bits_to_symbols_width (w : nat) (m : VoxelMap.VoxelMapper)
    (bits : list bool) :
  0 < w -> VoxelMap.bits_per_voxel m = Z.of_nat w ->
  (forall chunk, length chunk = w ->
     VoxelMap.symbol_bits (Z.of_nat w) (VoxelMap.chunk_symbol (Z.of_nat w) chunk) = chunk) ->
  VoxelMap.symbols_to_bits m (VoxelMap.bits_to_symbols m bits)
  = bits ++ repeat false
      (Z.to_nat ((VoxelMap.bits_per_voxel m
                  - Z.of_nat (length bits) mod VoxelMap.bits_per_voxel m)
                 mod VoxelMap.bits_per_voxel m)).
Proof.
  intros Hw Hb Hrt. unfold VoxelMap.symbols_to_bits, VoxelMap.bits_to_symbols. rewrite Hb.
  rewrite Nat2Z.id.
  set (pad := Z.to_nat ((Z.of_nat w - Z.of_nat (length bits) mod Z.of_nat w) mod Z.of_nat w)).
  set (padded := bits ++ repeat false pad).
  assert (Hlen : (Z.of_nat (length padded) mod Z.of_nat w = 0)%Z).
  { unfold padded, pad. rewrite length_app, repeat_length, Nat2Z.inj_add.
    pose proof (Z.mod_pos_bound (Z.of_nat w - Z.of_nat (length bits) mod Z.of_nat w)
                  (Z.of_nat w) ltac:(lia)).
    rewrite Z2Nat.id by lia. apply padded_length_multiple. lia. }
  apply Z.mod_divide in Hlen; [|lia]. destruct Hlen as [q Hq].
  apply (chunks_symbols w (Z.to_nat q)); [exact Hw | exact Hrt | nia | lia].
Qed.

(** X4: [symbols_to_bits] after [bits_to_symbols] returns the bits followed
    by the zero padding that [bits_to_symbols] added to reach a multiple of
    [bits_per_voxel], for both modes.  The padding is not removed; the bits
    come back exactly when their number is a multiple of [bits_per_voxel]. *)
Theorem symbols_to_bits_keeps_padding (mode : string) (m : VoxelMap.VoxelMapper)
    (bits : list bool) :
  VoxelMap.init mode = Ok m ->
  VoxelMap.symbols_to_bits m (VoxelMap.bits_to_symbols m bits)
  = bits ++ repeat false
      (Z.to_nat ((VoxelMap.bits_per_voxel m
                  - Z.of_nat (length bits) mod VoxelMap.bits_per_voxel m)
                 mod VoxelMap.bits_per_voxel m)).
Proof.
  intros Hm. destruct (init_modes mode m Hm) as [Hb|Hb].
  - apply (symbols_to_bits_to_symbols_width 3); [lia | exact Hb | exact chunk_bits_3].
  - apply (symbols_to_bits_to_symbols_width 5); [lia | exact Hb | exact chunk_bits_5].
Qed.

Lemma symbols_to_bits_keeps_padding_witness :
  exists m,
    VoxelMap.init "5bit" = Ok m
    /\ VoxelMap.symbols_to_bits m (VoxelMap.bits_to_symbols m [true; false; true])
       = [true; false; true; false; false].
Proof.
  eexists. split; [reflexivity|].
  apply (symbols_to_bits_keeps_padding "5bit"). reflexivity.
Defined.

Lemma symbol_chunk_3 (s : Z) :
  (0 <= s)%Z -> VoxelMap.chunk_symbol 3 (VoxelMap.symbol_bits 3 s) = (s mod 2 ^ 3)%Z.
Proof.
  intros Hs.
  assert (Hlow : VoxelMap.symbol_bits 3 s = VoxelMap.symbol_bits 3 (s mod 2 ^ 3)).
  { unfold VoxelMap.symbol_bits. apply map_ext_in. intros i Hi.
    apply list_elem_of_In, elem_of_seqZ in Hi.
    symmetry. apply Z.mod_pow2_bits_low. lia. }
  rewrite Hlow. pose proof (Z.mod_pos_bound s (2 ^ 3) ltac:(lia)) as Hr.
  set (r := (s mod 2 ^ 3)%Z) in *.
  assert (H : (r = 0 \/ r = 1 \/ r = 2 \/ r = 3 \/ r = 4 \/ r = 5 \/ r = 6 \/ r = 7)%Z) by lia.
  repeat (destruct H as [->|H]; [reflexivity|]). subst r. rewrite H. reflexivity.
Qed.

Lemma symbol_chunk_5 (s : Z) :
  (0 <= s)%Z -> VoxelMap.chunk_symbol 5 (VoxelMap.symbol_bits 5 s) = (s mod 2 ^ 5)%Z.
Proof.
  intros Hs.
  assert (Hlow : VoxelMap.symbol_bits 5 s = VoxelMap.symbol_bits 5 (s mod 2 ^ 5)).
  { unfold VoxelMap.symbol_bits. apply map_ext_in. intros i Hi.
    apply list_elem_of_In, elem_of_seqZ in Hi.
    symmetry. apply Z.mod_pow2_bits_low. lia. }
  rewrite Hlow. pose proof (Z.mod_pos_bound s (2 ^ 5) ltac:(lia)) as Hr.
  set (r := (s mod 2 ^ 5)%Z) in *.
  assert (H : (r = 0 \/ r = 1 \/ r = 2 \/ r = 3 \/ r = 4 \/ r = 5 \/ r = 6 \/ r = 7 \/ r = 8 \/ r = 9 \/ r = 10 \/ r = 11 \/ r = 12 \/ r = 13 \/ r = 14 \/ r = 15 \/ r = 16 \/ r = 17 \/ r = 18 \/ r = 19 \/ r = 20 \/ r = 21 \/ r = 22 \/ r = 23 \/ r = 24 \/ r = 25 \/ r = 26 \/ r = 27 \/ r = 28 \/ r = 29 \/ r = 30 \/ r = 31)%Z) by lia.
  repeat (destruct H as [->|H]; [reflexivity|]). subst r. rewrite H. reflexivity.
Qed.

Lemma chunks_flat_map_uniform {A B} (f : A -> list B) (w : nat) (l : list A) (fuel : nat) :
  0 < w -> (forall x, length (f x) = w) -> length l <= fuel ->
  chunks fuel w (flat_map f l) = map f l.
Proof.
  intros Hw Hf. revert fuel. induction l as [|x l IH]; intros fuel Hfuel.
  - apply chunks_nil.
  - destruct fuel as [|fuel]; [cbn [length] in Hfuel; lia|].
    cbn [flat_map map]. pose proof (Hf x) as Hx.
    destruct (f x) as [|y ys] eqn:Efx; [cbn [length] in Hx; lia|].
    cbn [app]. rewrite chunks_cons. rewrite <- Efx in Hx.
    change (y :: ys ++ flat_map f l) with ((y :: ys) ++ flat_map f l). rewrite <- Efx.
    rewrite take_app_length', drop_app_length' by (symmetry; exact Hx).
    rewrite IH by (cbn [length] in Hfuel; lia). reflexivity.
Qed.

Lemma bits_to_symbols_to_bits_width (w : nat) (m : VoxelMap.VoxelMapper) (symbols : list Z) :
  0 < w -> VoxelMap.bits_per_voxel m = Z.of_nat w ->
  (forall s, (0 <= s)%Z ->
     VoxelMap.chunk_symbol (Z.of_nat w) (VoxelMap.symbol_bits (Z.of_nat w) s)
     = (s mod 2 ^ Z.of_nat w)%Z) ->
  Forall (fun s => (0 <= s)%Z) symbols ->
  VoxelMap.bits_to_symbols m (VoxelMap.symbols_to_bits m symbols)
  = map (fun s => (s mod 2 ^ VoxelMap.bits_per_voxel m)%Z) symbols.
Proof.
  intros Hw Hb Hrt Hpos. unfold VoxelMap.bits_to_symbols, VoxelMap.symbols_to_bits.
  rewrite Hb, Nat2Z.id.
  assert (Hbits : forall s, length (VoxelMap.symbol_bits (Z.of_nat w) s) = w).
  { intros s. unfold VoxelMap.symbol_bits. rewrite length_map, length_seqZ. lia. }
  rewrite (length_flat_map_uniform _ w _ Hbits).
  assert (Hpad : ((Z.of_nat w - Z.of_nat (length symbols * w) mod Z.of_nat w)
                  mod Z.of_nat w = 0)%Z).
  { rewrite Nat2Z.inj_mul, Z.mod_mul by lia. rewrite Z.sub_0_r. apply Z.mod_same. lia. }
  rewrite Hpad. cbn [Z.to_nat repeat]. rewrite app_nil_r.
  rewrite (length_flat_map_uniform _ w _ Hbits).
  rewrite chunks_flat_map_uniform; [|exact Hw | exact Hbits | nia].
  rewrite map_map. apply map_ext_in. intros s Hs. apply Hrt.
  apply (proj1 (Forall_forall _ _) Hpos), list_elem_of_In. exact Hs.
Qed.

(** X5: [bits_to_symbols] after [symbols_to_bits] keeps the low
    [bits_per_voxel] bits of every symbol, for both modes: symbols below
    [2^bits_per_voxel] come back unchanged, larger ones are reduced modulo
    [2^bits_per_voxel], and no padding is added. *)
Theorem bits_to_symbols_keeps_low_bits (mode : string) (m : VoxelMap.VoxelMapper)
    (symbols : list Z) :
  VoxelMap.init mode = Ok m ->
  Forall (fun s => (0 <= s)%Z) symbols ->
  VoxelMap.bits_to_symbols m (VoxelMap.symbols_to_bits m symbols)
  = map (fun s => (s mod 2 ^ VoxelMap.bits_per_voxel m)%Z) symbols.
Proof.
  intros Hm Hpos. destruct (init_modes mode m Hm) as [Hb|Hb].
  - apply (bits_to_symbols_to_bits_width 3); [lia | exact Hb | exact symbol_chunk_3 | exact Hpos].
  - apply (bits_to_symbols_to_bits_width 5); [lia | exact Hb | exact symbol_chunk_5 | exact Hpos].
Qed.

Lemma bits_to_symbols_keeps_low_bits_witness :
  exists m,
    VoxelMap.init "3bit" = Ok m
    /\ VoxelMap.bits_to_symbols m (VoxelMap.symbols_to_bits m [5; 9; 0]%Z) = [5; 1; 0]%Z.
Proof.
  eexists. split; [reflexivity|].
  apply (bits_to_symbols_keeps_low_bits "3bit"); [reflexivity|].
  repeat constructor; discriminate.
Defined.

(** ** [mapping/voxel_map.py]: reading voxels back *)

Lemma closest_3bit (mode : string) (e : Z) (v : Q * Q) :
  String.eqb mode "3bit" = true ->
  let m := VoxelMap.mkMapper mode 3 4 2 8 (VoxelMap._generate_gray_codes mode)
             (VoxelMap._build_symbol_table mode) in
  (0 <= e < 8)%Z -> VoxelMap.symbol_table m !! e = Some v ->
  VoxelMap.closest m (fst v) (snd v) = (e, Some (0 # 1)).
Proof.
  intros Hmode m He Hv. apply String.eqb_eq in Hmode. subst mode.
  assert (H : (e = 0 \/ e = 1 \/ e = 2 \/ e = 3 \/ e = 4 \/ e = 5 \/ e = 6 \/ e = 7)%Z) by lia.
  repeat (destruct H as [->|H];
          [vm_compute in Hv; injection Hv as <-; vm_compute; reflexivity|]).
  subst e. vm_compute in Hv. injection Hv as <-. vm_compute. reflexivity.
Qed.

Lemma closest_5bit (mode : string) (e : Z) (v : Q * Q) :
  String.eqb mode "3bit" = false -> String.eqb mode "5bit" = true ->
  let m := VoxelMap.mkMapper mode 5 8 4 32 (VoxelMap._generate_gray_codes mode)
             (VoxelMap._build_symbol_table mode) in
  (0 <= e < 32)%Z -> VoxelMap.symbol_table m !! e = Some v ->
  VoxelMap.closest m (fst v) (snd v) = (e, Some (0 # 1)).
Proof.
  intros _ Hmode m He Hv. apply String.eqb_eq in Hmode. subst mode.
  assert (H : (e = 0 \/ e = 1 \/ e = 2 \/ e = 3 \/ e = 4 \/ e = 5 \/ e = 6 \/ e = 7 \/ e = 8 \/ e = 9 \/ e = 10 \/ e = 11 \/ e = 12 \/ e = 13 \/ e = 14 \/ e = 15 \/ e = 16 \/ e = 17 \/ e = 18 \/ e = 19 \/ e = 20 \/ e = 21 \/ e = 22 \/ e = 23 \/ e = 24 \/ e = 25 \/ e = 26 \/ e = 27 \/ e = 28 \/ e = 29 \/ e = 30 \/ e = 31)%Z) by lia.
  repeat (destruct H as [->|H];
          [vm_compute in Hv; injection Hv as <-; vm_compute; reflexivity|]).
  subst e. vm_compute in Hv. injection Hv as <-. vm_compute. reflexivity.
Qed.

Lemma closest_of_table (mode : string) (m : VoxelMap.VoxelMapper) (s : Z) (v : Q * Q) :
  VoxelMap.init mode = Ok m ->
  VoxelMap.symbol_table m !! VoxelMap.emitted_symbol m s = Some v ->
  VoxelMap.closest m (fst v) (snd v) = (VoxelMap.emitted_symbol m s, Some (0 # 1)).
Proof.
  unfold VoxelMap.init. destruct (String.eqb mode "3bit") eqn:E3;
    [|destruct (String.eqb mode "5bit") eqn:E5]; intros Hm Hv; [| |discriminate Hm];
    injection Hm as <-.
  - apply (closest_3bit mode _ v E3); [|exact Hv].
    unfold VoxelMap.emitted_symbol. cbn [VoxelMap.bits_per_voxel].
    destruct (Z.leb_spec 0 s), (Z.ltb_spec s (2 ^ 3)); cbn [andb]; lia.
  - apply (closest_5bit mode _ v E3 E5); [|exact Hv].
    unfold VoxelMap.emitted_symbol. cbn [VoxelMap.bits_per_voxel].
    destruct (Z.leb_spec 0 s), (Z.ltb_spec s (2 ^ 5)); cbn [andb]; lia.
Qed.

Lemma init_mode_value (mode : string) (m : VoxelMap.VoxelMapper) :
  VoxelMap.init mode = Ok m -> exists vm, mode = VoxelMap.mode_value vm.
Proof.
  unfold VoxelMap.init. destruct (String.eqb_spec mode "3bit") as [->|_];
    [exists VoxelMap.MODE_3BIT; reflexivity|].
  destruct (String.eqb_spec mode "5bit") as [->|_];
    [exists VoxelMap.MODE_5BIT; reflexivity | discriminate].
Qed.

Lemma reliability_exact (soft_output : bool) :
  VoxelMap.reliability soft_output (Some (0 # 1)) = 1 # 1.
Proof. destruct soft_output; reflexivity. Qed.

(** X6: [voxels_to_symbols] inverts [symbols_to_voxels] on noise-free
    voxels, for both modes.  The angles and retardances that
    [symbols_to_voxels] emits are read back as the symbols themselves (as
    symbol 0 for a symbol outside the table, which was emitted as the voxel
    of symbol 0), each with reliability 1.0, with or without
    [soft_output]. *)
Theorem voxels_to_symbols_inverts_symbols_to_voxels (mode : string)
    (m : VoxelMap.VoxelMapper) (symbols : list Z) (angles retardances : list Q)
    (soft_output : bool) :
  VoxelMap.init mode = Ok m ->
  VoxelMap.symbols_to_voxels m symbols = Ok (angles, retardances) ->
  VoxelMap.voxels_to_symbols m angles retardances soft_output
  = map (fun s => (VoxelMap.emitted_symbol m s, 1 # 1)) symbols.
Proof.
  intros Hm Hvox. destruct (init_mode_value mode m Hm) as [vm ->].
  destruct (voxels_of_total vm symbols) as (m' & vs & Hm' & Hvs & Hall).
  rewrite Hm in Hm'. injection Hm' as <-.
  unfold VoxelMap.symbols_to_voxels in Hvox. rewrite Hvs in Hvox. cbn [bind] in Hvox.
  injection Hvox as <- <-. clear Hvs.
  induction Hall as [|s v symbols vs Hv _ IH]; [reflexivity|].
  cbn [map VoxelMap.voxels_to_symbols].
  rewrite (closest_of_table _ m s v Hm Hv). cbn [fst snd].
  rewrite reliability_exact, IH. reflexivity.
Qed.

Lemma voxels_to_symbols_inverts_symbols_to_voxels_witness :
  exists m angles retardances,
    VoxelMap.init "5bit" = Ok m
    /\ VoxelMap.symbols_to_voxels m [17; 40; 3]%Z = Ok (angles, retardances)
    /\ VoxelMap.voxels_to_symbols m angles retardances true
       = [(17%Z, 1 # 1); (0%Z, 1 # 1); (3%Z, 1 # 1)].
Proof.
  set (m := VoxelMap.mkMapper "5bit" 5 8 4 32 (VoxelMap._generate_gray_codes "5bit")
              (VoxelMap._build_symbol_table "5bit")).
  destruct (VoxelMap.symbols_to_voxels m [17; 40; 3]%Z) as [[angles retardances]|e] eqn:E;
    [|vm_compute in E; discriminate E].
  exists m, angles, retardances. split; [reflexivity|]. split; [exact E|].
  exact (voxels_to_symbols_inverts_symbols_to_voxels "5bit" m [17; 40; 3]%Z angles
           retardances true eq_refl E).
Defined.

(** ** [codecs/ecc_rs.py]: shards and chunks *)

Lemma concat_padded_chunks {A} (x : A) (size fuel : nat) (l : list A) :
  0 < size -> length l <= fuel ->
  concat (map (fun chunk => chunk ++ repeat x (size - length chunk)) (chunks fuel size l))
  = l ++ repeat x ((size - length l mod size) mod size).
Proof.
  intros Hs. revert l. induction fuel as [|fuel IH]; intros l Hl.
  - destruct l; [|cbn [length] in Hl; lia]. cbn [chunks map concat length app].
    rewrite Nat.Div0.mod_0_l, Nat.sub_0_r, Nat.Div0.mod_same. reflexivity.
  - destruct l as [|y l].
    + cbn [chunks map concat length app].
      rewrite Nat.Div0.mod_0_l, Nat.sub_0_r, Nat.Div0.mod_same. reflexivity.
    + rewrite chunks_cons. cbn [map concat]. set (l' := y :: l) in *.
      destruct (Nat.le_gt_cases size (length l')) as [Hle|Hgt].
      * rewrite IH by (rewrite length_drop; cbn [length] in Hl; lia).
        rewrite length_take, length_drop.
        replace (size - size `min` length l') with 0 by lia. cbn [repeat].
        rewrite app_nil_r, app_assoc, take_drop.
        replace (length l') with (length l' - size + 1 * size) at 2 by lia.
        rewrite Nat.Div0.mod_add. reflexivity.
      * rewrite take_ge, drop_ge, chunks_nil by lia. cbn [map concat].
        rewrite app_nil_r, (Nat.mod_small (length l')) by lia.
        assert (0 < length l') by (unfold l'; cbn [length]; lia).
        rewrite Nat.mod_small by lia. reflexivity.
Qed.





(** X23: the parity count is a float product.  With the default codec,
    223 data shards get 31 parity shards, where the exact product
    [223 * (255 / 223 - 1)] is 32, and one data shard gets none; a codec
    with [k = 0] divides by zero. *)
Theorem parity_shard_count_rounds :
  ReedSolomon.parity_shard_count ReedSolomon.default 223 = Ok 31%Z
  /\ ReedSolomon.parity_shard_count ReedSolomon.default 1 = Ok 0%Z
  /\ ReedSolomon.create_shards (ReedSolomon.init 255 0) [x61] 4096 = Raise ZeroDivisionError
  /\ ReedSolomon.create_shards ReedSolomon.default [x61] 0 = Raise ZeroDivisionError.
Proof. repeat split; vm_compute; reflexivity. Qed.

Lemma chunks_concat_uniform {A} (size : nat) (ls : list (list A)) (fuel : nat) :
  0 < size -> Forall (fun l => length l = size) ls -> length ls <= fuel ->
  chunks fuel size (concat ls) = ls.
Proof.
  intros Hs Hall. revert fuel. induction Hall as [|l ls Hl _ IH]; intros fuel Hfuel.
  - apply chunks_nil.
  - destruct fuel as [|fuel]; [cbn [length] in Hfuel; lia|].
    cbn [concat]. destruct l as [|y l]; [cbn [length] in Hl; lia|].
    cbn [app]. rewrite chunks_cons.
    change (y :: l ++ concat ls) with ((y :: l) ++ concat ls).
    rewrite take_app_length', drop_app_length' by (symmetry; exact Hl).
    rewrite IH by (cbn [length] in Hfuel; lia). reflexivity.
Qed.

Lemma decode_chunks_encoded (rs_encode : nat -> bytes -> bytes)
    (rs_decode : nat -> bytes -> option bytes) (nsym k : nat) (msgs : list bytes) :
  (forall msg, length msg = k -> rs_decode nsym (rs_encode nsym msg) = Some msg) ->
  Forall (fun msg => length msg = k) msgs ->
  ReedSolomon.decode_chunks rs_decode nsym (map (rs_encode nsym) msgs) = Some (concat msgs).
Proof.
  intros Hrt. induction 1 as [|msg msgs Hm _ IH]; [reflexivity|].
  cbn [map ReedSolomon.decode_chunks concat]. rewrite (Hrt msg Hm), IH. reflexivity.
Qed.

(** X8: [decode] after [encode] returns the data followed by the zero
    padding of the last chunk.  For a codec with [0 < k <= n] and a reedsolo
    whose [encode] turns [k] bytes into [n] and whose [decode] returns the
    message of an encoded chunk, [encode] succeeds and [decode] gives back
    the data padded with zeros to a multiple of [k] bytes: the padding is
    not removed. *)
Theorem rs_decode_inverts_encode (rs_encode : nat -> bytes -> bytes)
    (rs_decode : nat -> bytes -> option bytes) (n k : nat) (data : bytes) :
  0 < k <= n ->
  (forall msg, length msg = k -> length (rs_encode (n - k) msg) = n) ->
  (forall msg, length msg = k -> rs_decode (n - k) (rs_encode (n - k) msg) = Some msg) ->
  exists encoded,
    ReedSolomon.encode rs_encode (ReedSolomon.init n k) data = Ok encoded
    /\ length encoded = (length data + k - 1) / k * n
    /\ ReedSolomon.decode rs_decode (ReedSolomon.init n k) encoded
       = Some (data ++ repeat x00 ((k - length data mod k) mod k)).
Proof.
  intros Hk Hlen Hrt. unfold ReedSolomon.encode, ReedSolomon.decode, ReedSolomon.init.
  cbn [ReedSolomon.k ReedSolomon.n ReedSolomon.nsym].
  destruct k as [|k']; [lia|]. set (k := S k') in *.
  set (msgs := map (fun chunk => chunk ++ repeat x00 (k - length chunk))
                   (chunks (length data) k data)).
  assert (Hmsgs : Forall (fun msg => length msg = k) msgs).
  { unfold msgs. apply Forall_map. eapply Forall_impl; [apply chunks_bounded|].
    intros chunk Hc. cbn beta in *. rewrite length_app, repeat_length. lia. }
  assert (Hcount : length msgs = (length data + k - 1) / k)
    by (unfold msgs; rewrite length_map; apply chunks_length; lia).
  assert (Henc : Forall (fun l => length l = n) (map (rs_encode (n - k)) msgs)).
  { apply Forall_map. eapply Forall_impl; [exact Hmsgs|]. intros msg Hm. apply Hlen, Hm. }
  eexists. split.
  { rewrite <- (map_map (fun chunk => chunk ++ repeat x00 (k - length chunk))
                        (rs_encode (n - k))). fold msgs. reflexivity. }
  split.
  { rewrite (length_concat_uniform n _ Henc), length_map, Hcount. reflexivity. }
  rewrite chunks_concat_uniform; [|lia | exact Henc|].
  - rewrite (decode_chunks_encoded rs_encode rs_decode (n - k) k msgs Hrt Hmsgs).
    unfold msgs. rewrite concat_padded_chunks by lia. reflexivity.
  - rewrite (length_concat_uniform n _ Henc), length_map.
    assert (1 <= n) by (unfold k in Hk; lia). nia.
Qed.

Lemma rs_decode_inverts_encode_witness :
  exists encoded,
    ReedSolomon.encode (fun nsym msg => msg ++ repeat x00 nsym) (ReedSolomon.init 5 3)
      (encode_utf8 "abcd")
    = Ok encoded
    /\ length encoded = (4 + 3 - 1) / 3 * 5
    /\ ReedSolomon.decode (fun nsym chunk => Some (take (length chunk - nsym) chunk))
         (ReedSolomon.init 5 3) encoded
       = Some (encode_utf8 "abcd" ++ repeat x00 ((3 - 4 mod 3) mod 3)).
Proof.
  apply (rs_decode_inverts_encode (fun nsym msg => msg ++ repeat x00 nsym)
           (fun nsym chunk => Some (take (length chunk - nsym) chunk)) 5 3 (encode_utf8 "abcd")).
  - lia.
  - intros msg Hm. rewrite length_app, repeat_length. lia.
  - intros msg Hm. rewrite length_app, repeat_length.
    replace (length msg + (5 - 3) - (5 - 3)) with (length msg) by lia.
    rewrite take_app_length. reflexivity.
Defined.

(** ** [codecs/ecc_ldpc.py]: what the decoder's outcome means *)

Lemma flip_step_outcome (c : LDPC.SimpleLDPC) (syn word word' : list bool) :
  LDPC.flip_step c syn word = Ok word' ->
  word' = word \/ exists j, word' = LDPC.flip j word.
Proof.
  unfold LDPC.flip_step. destruct (LDPC.argmax _) as [flip_idx|]; [|discriminate].
  destruct (0 <? _); intros Hw; injection Hw as <-; [right; eauto | left; reflexivity].
Qed.

Lemma decode_loop_outcome (c : LDPC.SimpleLDPC) (max_iter : nat) :
  forall (word msg : list bool) (ok : bool),
    LDPC.decode_loop c max_iter word = Ok (msg, ok) ->
    exists flips,
      length flips <= max_iter
      /\ msg = take (LDPC.k c) (foldl (fun w j => LDPC.flip j w) word flips)
      /\ (ok = true ->
          LDPC.weight (LDPC.syndrome (LDPC.H c) (foldl (fun w j => LDPC.flip j w) word flips))
          = 0).
Proof.
  induction max_iter as [|it IH]; intros word msg ok Hd; cbn [LDPC.decode_loop] in Hd.
  - injection Hd as <- <-. exists []. cbn [length foldl]. repeat split; [lia | discriminate].
  - destruct (Nat.eqb (LDPC.weight (LDPC.syndrome (LDPC.H c) word)) 0) eqn:Es.
    + injection Hd as <- <-. exists []. cbn [length foldl].
      repeat split; [lia | intros _; apply Nat.eqb_eq, Es].
    + destruct (LDPC.flip_step c _ word) as [word'|e] eqn:Ef; [|discriminate Hd].
      cbn [bind] in Hd. destruct (IH word' msg ok Hd) as (flips & Hlen & Hmsg & Hok).
      destruct (flip_step_outcome c _ word word' Ef) as [->|[j ->]].
      * exists flips. repeat split; [lia | exact Hmsg | exact Hok].
      * exists (j :: flips). cbn [length foldl]. repeat split; [lia | exact Hmsg | exact Hok].
Qed.

(** X9: what [decode_hard] reports.  Whatever the parity-check matrix, the
    bits it returns are the first [k] bits of the received word after at
    most [max_iter] single-bit flips; and when it reports success, the
    flipped word passes every parity check of [H].  Success says nothing
    more: the word need not be the codeword that was sent. *)
Theorem decode_hard_success_means_checked (c : LDPC.SimpleLDPC) (received msg : list bool)
    (max_iter : nat) (ok : bool) :
  LDPC.decode_hard c received max_iter = Ok (msg, ok) ->
  exists flips,
    length flips <= max_iter
    /\ msg = take (LDPC.k c) (foldl (fun w j => LDPC.flip j w) received flips)
    /\ (ok = true ->
        LDPC.weight (LDPC.syndrome (LDPC.H c) (foldl (fun w j => LDPC.flip j w) received flips))
        = 0).
Proof.
  unfold LDPC.decode_hard. destruct max_iter as [|it].
  - intros Hd. injection Hd as <- <-. exists []. cbn [length foldl].
    repeat split; [lia | discriminate].
  - destruct (negb (length received =? LDPC.n c)); [discriminate|]. intros Hd.
    destruct (decode_loop_outcome c (S it) received msg ok Hd) as (flips & Hlen & Hmsg & Hok).
    exists flips. repeat split; assumption.
Qed.

Lemma decode_hard_success_means_checked_witness :
  exists flips,
    length flips <= 50
    /\ [true; true; false]
       = take (LDPC.k LDPC.example_codec)
              (foldl (fun w j => LDPC.flip j w)
                     [true; true; false; false; true; true; false] flips)
    /\ (true = true ->
        LDPC.weight (LDPC.syndrome (LDPC.H LDPC.example_codec)
                       (foldl (fun w j => LDPC.flip j w)
                              [true; true; false; false; true; true; false] flips))
        = 0).
Proof.
  apply (decode_hard_success_means_checked LDPC.example_codec
           [true; true; false; false; true; true; false] [true; true; false] 50 true).
  vm_compute. reflexivity.
Defined.

(** X10: [encode] is systematic.  For a codec built by [__init__] with a
    sampler that honours the contract of [np.random.choice], a message of
    [k] bits is encoded into [n] bits that start with the message itself;
    any other length is refused with [ValueError]. *)
Theorem encode_is_systematic (random_state : Type) (seed : Z -> random_state)
    (choice : random_state -> nat -> nat -> result (list nat * random_state))
    (n k : nat) (c : LDPC.SimpleLDPC) (data_bits : list bool) :
  LDPC.sampler_contract choice ->
  LDPC.init random_state seed choice n k = Ok c ->
  if length data_bits =? k
  then exists codeword,
         LDPC.encode c data_bits = Ok codeword
         /\ length codeword = n
         /\ take k codeword = data_bits
  else LDPC.encode c data_bits = Raise (ValueError "Expected k bits").
Proof.
  intros Hchoice Hinit.
  destruct (init_spec seed choice Hchoice n k c Hinit)
    as (Hkn & cs & -> & Hcs & _).
  unfold LDPC.encode. cbn [LDPC.k LDPC.H].
  destruct (Nat.eqb_spec (length data_bits) k) as [Hlen|Hlen]; cbn [negb]; [|reflexivity].
  eexists. split; [reflexivity|]. split.
  - rewrite length_app, !length_map, length_seq. lia.
  - rewrite <- Hlen. apply take_app_length.
Qed.

Lemma encode_is_systematic_witness :
  exists codeword,
    LDPC.encode LDPC.example_codec [true; true; false] = Ok codeword
    /\ length codeword = 7
    /\ take 3 codeword = [true; true; false].
Proof.
  apply (encode_is_systematic nat Z.to_nat LDPC.rotating_choice 7 3 LDPC.example_codec
           [true; true; false] rotating_choice_contract).
  reflexivity.
Defined.

(** ** [archive/manifest.py]: what the manifest hash covers *)

(** X11: the manifest hash does not cover the [integrity] block.  After
    [save], the Merkle root can be replaced by any other string and a
    signature block added ([set_merkle_root], [set_signature]); the file
    written from the result still passes the check of [load], which returns
    it without an error.  [compute_hash] drops the whole [integrity] entry,
    so [load] detects changes outside it only. *)
Theorem load_accepts_changed_integrity_block {text : Type} (json_dump : json -> text)
    (json_load : text -> result json) (json_dumps_sorted : json -> string)
    (d integrity : gmap string json) (root public_key signature : string) :
  (forall v, json_load (json_dump v) = Ok v) ->
  d !! "integrity"%string = Some (JObj integrity) ->
  exists saved changed,
    ManifestFile.save text json_dump json_dumps_sorted (ManifestFile.mkManifest (JObj d))
    = Ok (saved, json_dump (ManifestFile.data saved))
    /\ (let* m := ManifestFile.set_merkle_root root saved in
        ManifestFile.set_signature public_key signature m) = Ok changed
    /\ ManifestFile.load text json_load json_dumps_sorted
         (json_dump (ManifestFile.data changed))
       = Ok changed
    /\ ManifestFile.data changed
       = JObj (<["integrity"%string :=
                  JObj (<["signature"%string :=
                            JObj (list_to_map [("algorithm"%string, JStr "Ed25519");
                                               ("public_key"%string, JStr public_key);
                                               ("signature"%string, JStr signature)])]>
                          (<["merkle_root"%string := JStr root]>
                             (<["manifest_hash"%string :=
                                  JStr (ManifestFile.hash_without_integrity
                                          json_dumps_sorted d)]> integrity)))]> d).
Proof.
  intros Hjson Hinteg. rewrite (save_dict json_dump json_dumps_sorted d integrity Hinteg).
  cbv zeta. set (h := ManifestFile.hash_without_integrity json_dumps_sorted d).
  exists (ManifestFile.mkManifest (JObj (ManifestFile.with_manifest_hash d integrity h))).
  eexists. split; [reflexivity|].
  unfold ManifestFile.set_merkle_root, ManifestFile.set_signature,
    ManifestFile.with_manifest_hash.
  erewrite set_nested_dict by apply lookup_insert_eq. cbn [bind].
  erewrite set_nested_dict by apply lookup_insert_eq.
  rewrite !insert_insert_eq.
  set (sig := JObj (list_to_map [("algorithm"%string, JStr "Ed25519");
                                 ("public_key"%string, JStr public_key);
                                 ("signature"%string, JStr signature)])).
  split; [reflexivity|]. cbn [ManifestFile.data]. split; [|reflexivity].
  rewrite (insert_insert_ne _ "signature"%string "merkle_root"%string) by discriminate.
  rewrite (insert_insert_ne _ "signature"%string "manifest_hash"%string) by discriminate.
  rewrite (insert_insert_ne _ "merkle_root"%string "manifest_hash"%string) by discriminate.
  apply (load_saved json_load json_dumps_sorted d
           (<["merkle_root"%string := JStr root]> (<["signature"%string := sig]> integrity))).
  apply Hjson.
Qed.

Lemma load_accepts_changed_integrity_block_witness :
  exists saved changed,
    ManifestFile.save json (fun v => v) ManifestFile.example_dumps_sorted
      (ManifestFile.mkManifest (JObj ManifestFile.example_data))
    = Ok (saved, ManifestFile.data saved)
    /\ (let* m := ManifestFile.set_merkle_root "00" saved in
        ManifestFile.set_signature "key" "forged" m) = Ok changed
    /\ ManifestFile.load json Ok ManifestFile.example_dumps_sorted (ManifestFile.data changed)
       = Ok changed
    /\ ManifestFile.data changed
       = JObj (<["integrity"%string :=
                  JObj (<["signature"%string :=
                            JObj (list_to_map [("algorithm"%string, JStr "Ed25519");
                                               ("public_key"%string, JStr "key");
                                               ("signature"%string, JStr "forged")])]>
                          (<["merkle_root"%string := JStr "00"]>
                             (<["manifest_hash"%string :=
                                  JStr (ManifestFile.hash_without_integrity
                                          ManifestFile.example_dumps_sorted
                                          ManifestFile.example_data)]> ∅)))]>
                 ManifestFile.example_data).
Proof.
  apply (load_accepts_changed_integrity_block (fun v => v) Ok
           ManifestFile.example_dumps_sorted ManifestFile.example_data ∅ "00" "key" "forged").
  - reflexivity.
  - reflexivity.
Defined.

(** ** [codecs/hashing.py]: degenerate trees and over-long proofs *)

Lemma build_levels_fanout_one (fuel : nat) :
  forall level, 2 <= length level -> Merkle.build_levels fuel 1 level = None.
Proof.
  induction fuel as [|fuel IH]; intros level Hl; cbn [Merkle.build_levels];
    destruct (Nat.leb_spec (length level) 1) as [?|_]; try lia; [reflexivity|].
  cbn [Merkle.next_level]. rewrite IH; [reflexivity|].
  rewrite length_map, chunks_length by lia.
  replace (length level + 1 - 1) with (length level) by lia. rewrite Nat.div_1_r. exact Hl.
Qed.

(** X12: the fanouts 1 and 0.  On two or more leaves, the [while] loop of
    [_build_tree] with [fanout = 1] never ends (every level has as many
    nodes as the one below, so no number of rounds builds the tree), and
    with [fanout = 0] the constructor raises the [ValueError] of [range]. *)
Theorem merkle_degenerate_fanouts (leaves : list bytes) (fuel : nat) :
  2 <= length leaves ->
  Merkle.init fuel leaves 1 = None
  /\ Merkle.init (S fuel) leaves 0
     = Some (Raise (ValueError "range() arg 3 must not be zero")).
Proof.
  intros Hl. unfold Merkle.init, Merkle._build_tree.
  destruct leaves as [|x leaves]; [cbn [length] in Hl; lia|]. split.
  - rewrite build_levels_fanout_one by (rewrite length_map; exact Hl). reflexivity.
  - cbn [Merkle.build_levels]. rewrite length_map.
    destruct (Nat.leb_spec (length (x :: leaves)) 1) as [?|_]; [lia|]. reflexivity.
Qed.

Lemma merkle_degenerate_fanouts_witness :
  Merkle.init 1000 Merkle.example_leaves 1 = None
  /\ Merkle.init (S 1000) Merkle.example_leaves 0
     = Some (Raise (ValueError "range() arg 3 must not be zero")).
Proof. apply (merkle_degenerate_fanouts Merkle.example_leaves 1000). cbn. lia. Defined.

(** X13: a tree over one leaf.  Whatever the fanout, its root is the hash
    of the leaf and the proof of leaf 0 is empty; [verify_proof] then reads
    neither the index nor the proof: it accepts the leaf, and any data with
    the same hash, for every index and every proof it is given. *)
Theorem merkle_single_leaf (fuel : nat) (leaf : bytes) (fanout : nat) :
  exists t,
    Merkle.init fuel [leaf] fanout = Some (Ok t)
    /\ Merkle.root t = Merkle._hash leaf
    /\ Merkle.get_proof t 0 = Ok []
    /\ forall (other : bytes) (index : nat) (proof : list string),
         Merkle.verify_proof t other index proof
         = Ok (bool_decide (Merkle._hash other = Merkle._hash leaf)).
Proof.
  exists (Merkle.mkTree [leaf] fanout [[Merkle._hash leaf]] (Merkle._hash leaf)).
  split; [destruct fuel; reflexivity|]. split; [reflexivity|].
  split; [destruct fanout; reflexivity|].
  intros other index proof. destruct fanout; reflexivity.
Qed.

Lemma digest_nonempty (x : bytes) : Merkle._hash x <> [].
Proof.
  intros H. apply (sha256_hex_nonempty x). unfold sha256_hex.
  unfold Merkle._hash in H. rewrite H. reflexivity.
Qed.

(** X14: the tree over no leaf.  [MerkleTree([])] is built without an
    error, with an empty tree and the empty root, so that [get_root] is the
    empty string; [get_proof] raises [ValueError] for every index from 0
    on and returns the empty proof for every negative index, which passes
    its guard; [verify_proof] rejects every leaf, index and proof. *)
Theorem merkle_empty_tree (fuel fanout : nat) :
  exists t,
    Merkle.init fuel [] fanout = Some (Ok t)
    /\ Merkle.tree t = [] /\ Hex.hex (Merkle.root t) = EmptyString
    /\ (forall index : Z,
          Merkle.get_proof t index
          = if (0 <=? index)%Z then Raise (ValueError "Index out of range") else Ok [])
    /\ forall (leaf : bytes) (index : nat) (proof : list string),
         Merkle.verify_proof t leaf index proof = Ok false.
Proof.
  exists (Merkle.mkTree [] fanout [] []).
  split; [reflexivity|]. split; [reflexivity|]. split; [reflexivity|].
  split.
  { intros index. unfold Merkle.get_proof.
    cbn [Merkle.leaves length Merkle.fanout Merkle.tree removelast Merkle.path_proof].
    change (Z.of_nat 0) with 0%Z.
    destruct (0 <=? index)%Z; [reflexivity|]. destruct fanout; reflexivity. }
  intros leaf index proof. unfold Merkle.verify_proof.
  cbn [Merkle.fanout Merkle.tree removelast Merkle.verify_levels Merkle.root].
  rewrite bool_decide_false by apply digest_nonempty. destruct fanout; reflexivity.
Qed.

(** X24: a negative index passes the guard of [get_proof].  On every tree
    over three leaves [a], [b], [c] with fanout 2, [get_proof(-1)] returns
    the hash of [b] and the hash of the first pair, where the proof of the
    last leaf (index 2) is the hash of the first pair alone; an index below
    [-len] raises [IndexError], and index 3 the [ValueError] of the
    guard. *)
Theorem get_proof_negative_index (a b c : bytes) :
  exists t,
    Merkle.init 3 [a; b; c] 2 = Some (Ok t)
    /\ Merkle.get_proof t (-1)
       = Ok [Hex.hex (Merkle._hash b);
             Hex.hex (Merkle._hash (Merkle._hash a ++ Merkle._hash b))]
    /\ Merkle.get_proof t 2
       = Ok [Hex.hex (Merkle._hash (Merkle._hash a ++ Merkle._hash b))]
    /\ Merkle.get_proof t (-5) = Raise IndexError
    /\ Merkle.get_proof t 3 = Raise (ValueError "Index out of range").
Proof.
  exists (Merkle.mkTree [a; b; c] 2
            [[Merkle._hash a; Merkle._hash b; Merkle._hash c];
             [Merkle._hash (Merkle._hash a ++ Merkle._hash b);
              Merkle._hash (Merkle._hash c)];
             [Merkle._hash (Merkle._hash (Merkle._hash a ++ Merkle._hash b)
                              ++ Merkle._hash (Merkle._hash c))]]
            (Merkle._hash (Merkle._hash (Merkle._hash a ++ Merkle._hash b)
                             ++ Merkle._hash (Merkle._hash c)))).
  split.
  { unfold Merkle.init, Merkle._build_tree. cbn [map Merkle.build_levels length Nat.leb].
    unfold Merkle.next_level. cbn [chunks length firstn skipn map concat app last].
    rewrite !app_nil_r. reflexivity. }
  repeat split.
Qed.

Lemma rebuild_group_extra (positions : list nat) (extra : list string) :
  forall group_start level_len position_in_group current_hash group_hashes proof group rest,
    Merkle.rebuild_group positions group_start level_len position_in_group current_hash
      group_hashes proof
    = Merkle.Group group rest ->
    Merkle.rebuild_group positions group_start level_len position_in_group current_hash
      group_hashes (proof ++ extra)
    = Merkle.Group group (rest ++ extra).
Proof.
  induction positions as [|i later IH]; intros gs ll pig ch gh proof group rest Hg;
    cbn [Merkle.rebuild_group] in *.
  - injection Hg as <- <-. reflexivity.
  - destruct (ll <=? gs + i); [injection Hg as <- <-; reflexivity|].
    destruct (i =? pig); [apply IH; exact Hg|].
    destruct proof as [|p proof']; [discriminate Hg|]. cbn [app].
    destruct (Hex.fromhex p); [apply IH; exact Hg | discriminate Hg].
Qed.

Lemma verify_levels_extra (fanout : nat) (levels : list (list bytes)) (extra : list string) :
  forall current_hash current_index proof h,
    Merkle.verify_levels fanout levels current_hash current_index proof = Ok (Some h) ->
    Merkle.verify_levels fanout levels current_hash current_index (proof ++ extra)
    = Ok (Some h).
Proof.
  induction levels as [|level rest IH]; intros ch ci proof h Hv; cbn [Merkle.verify_levels] in *.
  - exact Hv.
  - destruct (Merkle.rebuild_group _ _ _ _ _ _ proof) as [group proof'| |e] eqn:Eg;
      [|discriminate Hv|discriminate Hv].
    rewrite (rebuild_group_extra _ extra _ _ _ _ _ _ _ _ Eg). apply IH. exact Hv.
Qed.

(** X15: [verify_proof] never checks that it used the whole proof.  A proof
    that verifies still verifies with any strings appended to it, whether
    they are hexadecimal or not: the entries past the ones the tree needs
    are never read. *)
Theorem verify_proof_accepts_longer_proofs (t : Merkle.MerkleTree) (leaf : bytes)
    (index : nat) (proof extra : list string) :
  Merkle.verify_proof t leaf index proof = Ok true ->
  Merkle.verify_proof t leaf index (proof ++ extra) = Ok true.
Proof.
  unfold Merkle.verify_proof.
  destruct (Merkle.fanout t) as [|f] eqn:Ef, (removelast (Merkle.tree t)) as [|l ls] eqn:El;
    try discriminate;
    (destruct (Merkle.verify_levels _ _ _ _ proof) as [[h|]|e] eqn:Ev; try discriminate;
     rewrite (verify_levels_extra _ _ extra _ _ _ _ Ev); auto).
Qed.

Lemma verify_proof_accepts_longer_proofs_witness :
  Merkle.verify_proof Merkle.example_tree (encode_utf8 "b") 1
    (Merkle.example_proof ++ ["not hex"%string; "00"%string])
  = Ok true.
Proof.
  apply (verify_proof_accepts_longer_proofs Merkle.example_tree (encode_utf8 "b") 1
           Merkle.example_proof).
  vm_compute. reflexivity.
Defined.

(** ** [packer.py]: bytes after the last record *)

(** X16: [unpack_bytes_to_folder] ignores what follows the last record.
    When the packed blob of a folder (file names in UTF-8, no NUL byte in
    the relative path of a readable file, files shorter than 2^64 bytes) is
    followed by bytes that do not start with the marker of a file, such as
    the zero padding of a shard, the same files are written and nothing is
    reported. *)
Theorem unpack_ignores_trailing_bytes (walk : Packer.listing) (trailing : bytes) :
  Forall (fun f => valid_utf8 (encode_utf8 (fst f)) = true) (Packer.visited walk) ->
  Forall (fun f => (x00 ∉ encode_utf8 (fst f)) /\ (Z.of_nat (length (snd f)) < 2 ^ 64)%Z)
         (Packer.readable (Packer.visited walk)) ->
  take 5 trailing <> Packer.file_marker ->
  exists packed,
    Packer.pack_folder_to_bytes true walk = Ok packed
    /\ Packer.unpack_bytes_to_folder (Packer.parts packed ++ trailing)
       = Ok (Packer.readable (Packer.visited walk)).
Proof.
  intros Hnames Hfiles Htrail. pose proof (unpackable_files _ Hnames Hfiles) as Hall.
  unfold Packer.pack_folder_to_bytes. rewrite pack_file_fold
    by (apply (readable_names _ (fun p => valid_utf8 (encode_utf8 p) = true)), Hnames).
  eexists. split; [reflexivity|]. cbn [Packer.parts].
  set (fs := Packer.readable (Packer.visited walk)) in *.
  unfold Packer.unpack_bytes_to_folder. rewrite <- app_assoc.
  rewrite take_app_length', drop_app_length' by reflexivity.
  rewrite bool_decide_true by reflexivity. cbn [negb].
  rewrite (unpack_records_packed fs Hall).
  - assert (Hstop : forall fuel, Packer.unpack_records fuel trailing = Ok []).
    { intros [|fuel]; [reflexivity|]. cbn [Packer.unpack_records].
      rewrite bool_decide_false by exact Htrail. reflexivity. }
    rewrite Hstop. cbn [bind]. rewrite app_nil_r. reflexivity.
  - rewrite !length_app. pose proof (length_records fs). lia.
Qed.

Lemma unpack_ignores_trailing_bytes_witness :
  exists packed,
    Packer.pack_folder_to_bytes true Pipeline.example_folder = Ok packed
    /\ Packer.unpack_bytes_to_folder (Packer.parts packed ++ repeat x00 100)
       = Ok [("a.txt"%string, encode_utf8 "Hello World");
             ("b.txt"%string, encode_utf8 "Test content")].
Proof.
  apply (unpack_ignores_trailing_bytes Pipeline.example_folder (repeat x00 100)).
  - repeat constructor.
  - repeat constructor; cbn; try lia; intros Hin;
      repeat (apply elem_of_cons in Hin as [Hin|Hin]; [discriminate Hin|]); inversion Hin.
  - discriminate.
Defined.

(** X22: file names that are not UTF-8.  A readable file whose name holds
    the byte [ff] ends [pack_folder_to_bytes] with the [UnicodeEncodeError]
    of line 55, which is outside the [try]; and [unpack_bytes_to_folder]
    ends with the [UnicodeDecodeError] of line 89 on a record whose name
    holds that byte. *)
Theorem packer_refuses_names_not_utf8 :
  Packer.pack_folder_to_bytes true
    [(EmptyString, [(String (ascii_of_byte xff) ".txt", Ok (encode_utf8 "Hello World"))])]
  = Raise UnicodeEncodeError
  /\ Packer.unpack_bytes_to_folder
       (Packer.magic ++ Packer.packed_record [xff] (encode_utf8 "Hello World"))
     = Raise UnicodeDecodeError.
Proof. split; [reflexivity | vm_compute; reflexivity]. Qed.

(** ** [archive/pipeline.py]: the tiles *)

Lemma map_snd_combine {A B} (l : list A) (k : list B) :
  length k <= length l -> map snd (combine l k) = k.
Proof.
  revert k. induction l as [|a l IH]; intros [|b k] Hlen; cbn in *; try reflexivity; try lia.
  f_equal. apply IH. lia.
Qed.

Lemma chunks_Forall {A} (P : A -> Prop) (size fuel : nat) (l : list A) :
  Forall P l -> Forall (Forall P) (chunks fuel size l).
Proof.
  revert l. induction fuel as [|fuel IH]; intros l Hl; [constructor|].
  destruct l as [|x l]; [constructor|]. rewrite chunks_cons. constructor.
  - apply Forall_take. exact Hl.
  - apply IH, Forall_drop. exact Hl.
Qed.

Lemma tiles_field {B} (f : Pipeline.tile -> list B) (g : Z * (Q * Q) -> B)
    (voxels : list (Z * (Q * Q))) :
  (forall group, f (Pipeline.mkTile (map fst group) (map (fun v => fst (snd v)) group)
                      (map (fun v => snd (snd v)) group)) = map g group) ->
  let tiles :=
    map (fun group => Pipeline.mkTile (map fst group) (map (fun v => fst (snd v)) group)
                        (map (fun v => snd (snd v)) group))
        (chunks (length voxels) 256 voxels) in
  flat_map (fun plane => flat_map f plane) (chunks (length tiles) 64 tiles) = map g voxels.
Proof.
  intros Hf tiles. rewrite flat_map_concat, chunks_concat by lia. unfold tiles.
  rewrite flat_map_concat_map, map_map.
  rewrite (map_ext _ (map g)) by exact Hf.
  rewrite <- concat_map, chunks_concat by lia. reflexivity.
Qed.

(** X17: the tiles of step 7 hold the three arrays and nothing else.  For
    arrays of one length and of at most 16384000 voxels (a thousand planes),
    reading the tile files in the sorted order of their names, plane by
    plane, as [decode_archive] does, gives back the symbols, the angles and
    the retardances; a tile holds at most 256 voxels and a plane at most 64
    tiles. *)
Theorem make_tiles_layout (symbols : list Z) (angles retardances : list Q) :
  length angles = length symbols -> length retardances = length symbols ->
  (Z.of_nat (length symbols) <= 16384000)%Z ->
  flat_map Pipeline.symbols
           (Pipeline.read_tiles (Pipeline.make_tiles symbols angles retardances)) = symbols
  /\ flat_map Pipeline.angles
              (Pipeline.read_tiles (Pipeline.make_tiles symbols angles retardances)) = angles
  /\ flat_map Pipeline.retardances
              (Pipeline.read_tiles (Pipeline.make_tiles symbols angles retardances))
     = retardances
  /\ Forall (fun plane => length plane <= 64
                          /\ Forall (fun t => length (Pipeline.symbols t) <= 256) plane)
            (Pipeline.make_tiles symbols angles retardances).
Proof.
  intros Ha Hr Hn.
  destruct (make_tiles_planes symbols angles retardances Ha Hr Hn) as [Hplanes Htiles].
  rewrite (read_tiles_written _ Hplanes Htiles), <- !flat_map_concat.
  clear Hplanes Htiles. unfold Pipeline.make_tiles.
  set (voxels := combine symbols (combine angles retardances)).
  assert (H1 : map fst voxels = symbols)
    by (apply map_fst_combine; rewrite length_combine; lia).
  assert (H2 : map snd voxels = combine angles retardances)
    by (apply map_snd_combine; rewrite length_combine; lia).
  split; [|split; [|split]].
  - rewrite (tiles_field Pipeline.symbols fst voxels) by reflexivity. exact H1.
  - rewrite (tiles_field Pipeline.angles (fun v => fst (snd v)) voxels) by reflexivity.
    rewrite <- (map_map snd fst), H2. apply map_fst_combine. lia.
  - rewrite (tiles_field Pipeline.retardances (fun v => snd (snd v)) voxels) by reflexivity.
    rewrite <- (map_map snd snd), H2. apply map_snd_combine. lia.
  - set (tiles := map (fun group => Pipeline.mkTile (map fst group)
                                      (map (fun v => fst (snd v)) group)
                                      (map (fun v => snd (snd v)) group))
                      (chunks (length voxels) 256 voxels)).
    assert (Hall : Forall (fun t => length (Pipeline.symbols t) <= 256) tiles).
    { unfold tiles. apply Forall_map. eapply Forall_impl; [apply chunks_bounded|].
      intros group Hg. cbn [Pipeline.symbols]. rewrite length_map. exact Hg. }
    pose proof (chunks_bounded 64 (length tiles) tiles) as Hb.
    pose proof (chunks_Forall _ 64 (length tiles) tiles Hall) as Hf.
    apply Forall_forall. intros plane Hin. split.
    + exact (proj1 (Forall_forall _ _) Hb plane Hin).
    + exact (proj1 (Forall_forall _ _) Hf plane Hin).
Qed.

Lemma make_tiles_layout_witness :
  flat_map Pipeline.symbols
           (Pipeline.read_tiles (Pipeline.make_tiles [1; 2]%Z [45 # 1; 90 # 1] [1 # 4; 1 # 4]))
  = [1; 2]%Z
  /\ flat_map Pipeline.angles
              (Pipeline.read_tiles (Pipeline.make_tiles [1; 2]%Z [45 # 1; 90 # 1] [1 # 4; 1 # 4]))
     = [45 # 1; 90 # 1]
  /\ flat_map Pipeline.retardances
              (Pipeline.read_tiles (Pipeline.make_tiles [1; 2]%Z [45 # 1; 90 # 1] [1 # 4; 1 # 4]))
     = [1 # 4; 1 # 4]
  /\ Forall (fun plane => length plane <= 64
                          /\ Forall (fun t => length (Pipeline.symbols t) <= 256) plane)
            (Pipeline.make_tiles [1; 2]%Z [45 # 1; 90 # 1] [1 # 4; 1 # 4]).
Proof.
  apply (make_tiles_layout [1; 2]%Z [45 # 1; 90 # 1] [1 # 4; 1 # 4]);
    [reflexivity | reflexivity | cbn; lia].
Defined.

(** X25: from a thousand planes on the tiles are read out of order.  With
    1001 planes of one tile each, tile [p] holding the symbol [p], the
    directory [plane_1000] sorts between [plane_100] and [plane_101]:
    [decode_archive] reads the symbol 1000 after the symbol 100 and before
    the symbol 101. *)
Theorem read_tiles_misorders_plane_1000 :
  take 3 (drop 100
            (flat_map Pipeline.symbols
               (Pipeline.read_tiles
                  (map (fun plane => [Pipeline.mkTile [Z.of_nat plane] [] []]) (seq 0 1001)))))
  = [100; 1000; 101]%Z.
Proof. vm_compute. reflexivity. Qed.

(** ** Python floats: the parity count of the default codec never raises *)

#[local] Open Scope Z_scope.

Lemma digits2_pos_bound (p : positive) :
  forall k, Z.pos p < 2 ^ k -> 0 <= k -> Z.pos (digits2_pos p) <= k.
Proof.
  induction p as [p IH|p IH|]; intros k Hp Hk; cbn [digits2_pos].
  - assert (Hk1 : 1 <= k).
    { destruct (Z.eq_dec k 0) as [->|]; [cbn in Hp; lia | lia]. }
    replace k with (Z.succ (k - 1)) in Hp by lia. rewrite Z.pow_succ_r in Hp by lia.
    rewrite Pos2Z.inj_succ. specialize (IH (k - 1)). lia.
  - assert (Hk1 : 1 <= k).
    { destruct (Z.eq_dec k 0) as [->|]; [cbn in Hp; lia | lia]. }
    replace k with (Z.succ (k - 1)) in Hp by lia. rewrite Z.pow_succ_r in Hp by lia.
    rewrite Pos2Z.inj_succ. specialize (IH (k - 1)). lia.
  - destruct (Z.eq_dec k 0) as [->|]; [cbn in Hp; lia | lia].
Qed.

Lemma Zdigits2_bound (m k : Z) : 0 <= m < 2 ^ k -> 0 <= k -> 0 <= Zdigits2 m <= k.
Proof.
  intros Hm Hk. destruct m as [|p|p]; cbn [Zdigits2]; [lia| |lia].
  split; [lia|]. apply digits2_pos_bound; lia.
Qed.

Lemma shr_1_bound (mrs : shr_record) :
  0 <= shr_m mrs -> 0 <= shr_m (shr_1 mrs) <= shr_m mrs.
Proof.
  destruct mrs as [m r s]. cbn [shr_m]. intros Hm.
  destruct m as [|[p|p|]|p]; cbn [shr_1 shr_m]; lia.
Qed.

Lemma iter_shr_1_bound (p : positive) :
  forall mrs, 0 <= shr_m mrs -> 0 <= shr_m (SpecFloat.iter_pos shr_1 p mrs) <= shr_m mrs.
Proof.
  induction p as [p IH|p IH|]; intros mrs Hm; cbn [SpecFloat.iter_pos].
  - pose proof (shr_1_bound mrs Hm) as H1.
    pose proof (IH (shr_1 mrs) ltac:(lia)) as H2.
    pose proof (IH (SpecFloat.iter_pos shr_1 p (shr_1 mrs)) ltac:(lia)) as H3. lia.
  - pose proof (IH mrs Hm) as H2.
    pose proof (IH (SpecFloat.iter_pos shr_1 p mrs) ltac:(lia)) as H3. lia.
  - apply shr_1_bound. exact Hm.
Qed.

Lemma shr_fexp_bound (m e : Z) (l : location) (mrs : shr_record) (e' : Z) :
  shr_fexp 53 1024 m e l = (mrs, e') -> 0 <= m ->
  0 <= shr_m mrs <= m /\ e' = Z.max e (fexp 53 1024 (Zdigits2 m + e)).
Proof.
  unfold shr_fexp, shr. intros Hs Hm.
  assert (H0 : shr_m (shr_record_of_loc m l) = m) by (destruct l as [|[]]; reflexivity).
  destruct (fexp 53 1024 (Zdigits2 m + e) - e) as [|p|p] eqn:En; injection Hs as <- <-.
  - rewrite H0. lia.
  - pose proof (iter_shr_1_bound p (shr_record_of_loc m l) ltac:(lia)). lia.
  - rewrite H0. lia.
Qed.

Lemma round_nearest_even_bound (m : Z) (l : location) :
  m <= round_nearest_even m l <= m + 1.
Proof. destruct l as [|[]]; cbn [round_nearest_even]; try destruct (Z.even m); lia. Qed.

Lemma fexp_bound (x : Z) : fexp 53 1024 x = Z.max (x - 53) (-1074).
Proof. reflexivity. Qed.

(** Rounding a mantissa below [2^k] does not overflow while the exponent is
    small. *)
Lemma binary_round_aux_bound (s : bool) (m e : Z) (l : location) (k : Z) :
  0 <= m < 2 ^ k -> 0 <= k -> Z.max (e + k) (-1074) + k + 1 <= 971 ->
  binary_round_aux 53 1024 s m e l = S754_zero s
  \/ exists m' e', binary_round_aux 53 1024 s m e l = S754_finite s m' e'
                   /\ Z.pos m' <= 2 ^ k /\ e' <= Z.max (e + k) (-1074) + k + 1.
Proof.
  intros Hm Hk He. unfold binary_round_aux.
  destruct (shr_fexp 53 1024 m e l) as [mrs1 e1] eqn:E1.
  destruct (shr_fexp_bound m e l mrs1 e1 E1 ltac:(lia)) as [Hm1 He1].
  pose proof (round_nearest_even_bound (shr_m mrs1) (loc_of_shr_record mrs1)) as Hr.
  set (m1 := round_nearest_even (shr_m mrs1) (loc_of_shr_record mrs1)) in *.
  destruct (shr_fexp 53 1024 m1 e1 loc_Exact) as [mrs2 e2] eqn:E2.
  destruct (shr_fexp_bound m1 e1 loc_Exact mrs2 e2 E2 ltac:(lia)) as [Hm2 He2].
  pose proof (Zdigits2_bound m k Hm Hk) as Hd.
  assert (Hpow : 2 ^ (k + 1) = 2 * 2 ^ k) by (rewrite Z.pow_add_r by lia; lia).
  pose proof (Zdigits2_bound m1 (k + 1) ltac:(lia) ltac:(lia)) as Hd1.
  rewrite fexp_bound in He1, He2.
  destruct (shr_m mrs2) as [|p|p] eqn:Ep; [left; reflexivity | right | lia].
  assert (Hle : e2 <= Z.max (e + k) (-1074) + k + 1) by lia.
  destruct (Z.leb_spec e2 (1024 - 53)) as [_|Hgt]; [|lia].
  exists p, e2. split; [reflexivity|]. split; lia.
Qed.

Lemma iter_xO (d p : positive) : Z.pos (Pos.iter xO p d) = Z.pos p * 2 ^ Z.pos d.
Proof.
  induction d as [|d IH] using Pos.peano_ind.
  - cbn. lia.
  - rewrite Pos.iter_succ, Pos2Z.inj_xO, IH, Pos2Z.inj_succ, Z.pow_succ_r by lia. lia.
Qed.

Lemma digits2_pos_pos (p : positive) : 1 <= Z.pos (digits2_pos p).
Proof. lia. Qed.

Lemma shl_align_spec (mx : positive) (ex ex' : Z) (mz : positive) (ez : Z) :
  shl_align mx ex ex' = (mz, ez) ->
  (ex' < ex /\ ez = ex' /\ Z.pos mz = Z.pos mx * 2 ^ (ex - ex'))
  \/ (ex <= ex' /\ ez = ex /\ mz = mx).
Proof.
  unfold shl_align. destruct (ex' - ex) as [|d|d] eqn:Ed; intros Ha; injection Ha as <- <-.
  - right. repeat split; lia.
  - right. repeat split; lia.
  - left. rewrite iter_xO. replace (ex - ex') with (Z.pos d) by lia. repeat split; lia.
Qed.

(** [float(D)] for [0 <= D < 2^63] is zero or a float with a small
    exponent. *)
Lemma float_of_int_bound (D : Z) :
  0 <= D < 2 ^ 63 ->
  binary_normalize 53 1024 D 0 false = S754_zero false
  \/ exists m e, binary_normalize 53 1024 D 0 false = S754_finite false m e
                 /\ Z.pos m <= 2 ^ 115 /\ e <= 231.
Proof.
  intros HD. destruct D as [|p|p]; [left; reflexivity | | lia].
  cbn [binary_normalize]. unfold binary_round.
  pose proof (digits2_pos_pos p) as Hd.
  remember (fexp 53 1024 (Z.pos (digits2_pos p) + 0)) as t eqn:Et. rewrite fexp_bound in Et.
  destruct (shl_align p 0 t) as [mz ez] eqn:Ea.
  assert (Hmz : Z.pos mz < 2 ^ 115 /\ -52 <= ez <= 0).
  { assert (H63 : 2 ^ 63 < 2 ^ 115) by (apply Z.pow_lt_mono_r; lia).
    destruct (shl_align_spec p 0 t mz ez Ea) as [(Hlt & -> & Hm)|(Hle & -> & ->)]; [|lia].
    rewrite Hm.
    assert (H1 : 2 ^ (0 - t) <= 2 ^ 52) by (apply Z.pow_le_mono_r; lia).
    assert (H3 : 2 ^ 63 * 2 ^ 52 = 2 ^ 115) by reflexivity.
    assert (H4 : Z.pos p * 2 ^ (0 - t) <= Z.pos p * 2 ^ 52)
      by (apply Z.mul_le_mono_nonneg_l; lia).
    assert (H5 : Z.pos p * 2 ^ 52 < 2 ^ 63 * 2 ^ 52)
      by (apply Z.mul_lt_mono_pos_r; [reflexivity | lia]).
    split; lia. }
  destruct (binary_round_aux_bound false (Z.pos mz) ez loc_Exact 115)
    as [Hz|(m & e & Hf & Hm & He)]; [lia | lia | lia | left; exact Hz | right].
  exists m, e. split; [exact Hf|]. split; lia.
Qed.

Lemma parity_shard_count_default (D : Z) :
  0 <= D < 2 ^ 63 ->
  exists count, ReedSolomon.parity_shard_count ReedSolomon.default D = Ok count.
Proof.
  intros HD. unfold ReedSolomon.parity_shard_count.
  change (int_true_divide (Z.of_nat (ReedSolomon.n ReedSolomon.default))
            (Z.of_nat (ReedSolomon.k ReedSolomon.default)))
    with (Ok (S754_finite false 5149856076141150 (-52))).
  change (float_of_int 1) with (Ok (S754_finite false 4503599627370496 (-52))).
  cbn [bind].
  change (SFsub 53 1024 (S754_finite false 5149856076141150 (-52))
            (S754_finite false 4503599627370496 (-52)))
    with (S754_finite false 5170051590165232 (-55)).
  unfold float_of_int.
  destruct (float_of_int_bound D HD) as [Hz|(m & e & Hf & Hm & He)].
  - rewrite Hz. cbn. eexists. reflexivity.
  - rewrite Hf. cbn [bind SFmul xorb].
    assert (Hp : 0 <= Z.pos (m * 5170051590165232) < 2 ^ 169).
    { rewrite Pos2Z.inj_mul.
      assert (H1 : Z.pos m * 5170051590165232 <= 2 ^ 115 * 5170051590165232)
        by (apply Z.mul_le_mono_nonneg_r; lia).
      assert (H2 : 2 ^ 115 * 5170051590165232 < 2 ^ 169) by reflexivity.
      lia. }
    destruct (binary_round_aux_bound false (Z.pos (m * 5170051590165232)) (e + -55) loc_Exact 169)
      as [Hz|(m' & e' & Hf' & _)]; [exact Hp | lia | lia | |].
    + rewrite Hz. eexists. reflexivity.
    + rewrite Hf'. eexists. reflexivity.
Qed.

(** [create_shards] of the default codec with shards of 4096 bytes returns
    for every data a [bytes] object can hold. *)
Lemma create_shards_default_total (data : bytes) :
  Z.of_nat (length data) < 2 ^ 63 ->
  exists shards, ReedSolomon.create_shards ReedSolomon.default data 4096 = Ok shards.
Proof.
  intros Hlen. unfold ReedSolomon.create_shards.
  destruct (parity_shard_count_default (Z.of_nat ((length data + 4096 - 1) / 4096)))
    as [count Hcount].
  { split; [lia|]. rewrite Nat2Z.inj_div, Nat2Z.inj_sub, Nat2Z.inj_add by lia.
    apply Z.div_lt_upper_bound; [reflexivity|].
    change (Z.of_nat 4096) with 4096. change (Z.of_nat 1) with 1.
    assert (H : 2 ^ 63 + 4096 <= 4096 * 2 ^ 63) by (vm_compute; discriminate). lia. }
  rewrite Hcount. eexists. reflexivity.
Qed.

#[local] Open Scope nat_scope.

(** ** [archive/pipeline.py]: when [encode_folder] returns *)

Section EncodeFolder.

Context (lib : Pipeline.libraries)
        (Hchoice : LDPC.sampler_contract (Pipeline.np_random_choice lib))
        (Hperm : forall g n, Permutation (fst (Pipeline.permutation lib g n)) (seq 0 n)).

Lemma make_ldpc_profiles (profile_name : string) :
  exists c,
    Pipeline.make_ldpc lib
      (if String.eqb profile_name "A" then Pipeline.PROFILE_A else Pipeline.PROFILE_B) = Ok c
    /\ 0 < LDPC.k c.
Proof.
  destruct (String.eqb profile_name "A").
  - destruct (make_ldpc_profile_A lib Hchoice) as (c & Hc & _ & _ & Hk & _).
    exists c. split; [exact Hc | lia].
  - unfold Pipeline.make_ldpc.
    change (Z.to_nat (Qfloor (1024 * Pipeline.ldpc_rate Pipeline.PROFILE_B))) with 849.
    unfold LDPC.init. rewrite generate_parity_matrix_pos by (cbn; lia).
    change (1024 <? 849) with false. change (1024 - 849) with 175. cbv iota.
    destruct (draw_columns_total lib Hchoice 1024 175 ltac:(lia) (Pipeline.np_random_seed lib 42))
      as [cs Hcs].
    rewrite Hcs. cbn [bind]. eexists. split; [reflexivity|]. cbn [LDPC.k]. lia.
Qed.

Lemma encode_all_bits_total (c : LDPC.SimpleLDPC) (shards : list bytes) :
  0 < LDPC.k c -> exists all_bits, Pipeline.encode_all_bits c shards = Ok all_bits.
Proof.
  intros Hk. unfold Pipeline.encode_all_bits.
  destruct (collect_total (Pipeline.encode_shard c) (fun _ => True) shards) as (bs & Hbs & _).
  { apply Forall_forall. intros shard _.
    destruct (encode_shard_length c shard Hk) as (bits & Hbits & _). eauto. }
  rewrite Hbs. eexists. reflexivity.
Qed.

Lemma encode_symbols_total (profile_name : string) (seed : Z) (all_bits : list bool) :
  (0 <= seed)%Z ->
  exists m symbols vm,
    Pipeline.encode_symbols lib
      (if String.eqb profile_name "A" then Pipeline.PROFILE_A else Pipeline.PROFILE_B)
      seed all_bits
    = Ok (m, symbols)
    /\ VoxelMap.init (VoxelMap.mode_value vm) = Ok m.
Proof.
  intros Hseed. unfold Pipeline.encode_symbols.
  rewrite interleaver_init_accepts by exact Hseed.
  unfold Interleave.block_interleave. cbn [bind Interleave.rng].
  pose proof (Hperm (Pipeline.default_rng lib seed) (length all_bits)) as Hp.
  destruct (Pipeline.permutation lib (Pipeline.default_rng lib seed) (length all_bits))
    as [perm g'].
  cbn [fst] in *.
  destruct (take_indices_in_range all_bits perm (permutation_in_range _ _ Hp))
    as (xs & Hxs & _).
  rewrite Hxs. cbn [bind fst].
  destruct (String.eqb profile_name "A").
  - eexists; eexists; exists VoxelMap.MODE_3BIT. split; reflexivity.
  - eexists; eexists; exists VoxelMap.MODE_5BIT. split; reflexivity.
Qed.

Lemma add_files_fold (files : list Packer.file_info) :
  forall (d : gmap string json) (fs : list json) (integ : json),
    d !! "files"%string = Some (JArr fs) -> d !! "integrity"%string = Some integ ->
    exists d' fs',
      fold_left (fun acc file_info =>
                   let* manifest := acc in
                   ManifestFile.add_file (Packer.path file_info) (Packer.size file_info)
                                         (Packer.sha256 file_info) manifest)
                files (Ok (ManifestFile.mkManifest (JObj d)))
      = Ok (ManifestFile.mkManifest (JObj d'))
      /\ d' !! "files"%string = Some (JArr fs')
      /\ d' !! "integrity"%string = Some integ.
Proof.
  induction files as [|f files IH]; intros d fs integ Hf Hi; cbn [fold_left].
  - exists d, fs. auto.
  - cbn [bind]. rewrite (add_file_dict _ _ _ d fs Hf).
    apply (IH _ (fs ++ [JObj (list_to_map [("path"%string, JStr (Packer.path f));
                                           ("size"%string, JInt (Packer.size f));
                                           ("sha256"%string, JStr (Packer.sha256 f))])])).
    + apply lookup_insert_eq.
    + rewrite lookup_insert_ne by discriminate. exact Hi.
Qed.

Lemma fill_manifest_total (profile_name : string) (p : Pipeline.profile) (seed : Z)
    (ldpc : LDPC.SimpleLDPC) (m : VoxelMap.VoxelMapper) (n_planes : Z)
    (codec_info : gmap string json) (file_metadata : Packer.metadata) (merkle_root : string) :
  exists d integ,
    Pipeline.fill_manifest lib profile_name p seed ldpc m n_planes codec_info file_metadata
      merkle_root
    = Ok (ManifestFile.mkManifest (JObj d))
    /\ d !! "integrity"%string = Some (JObj integ).
Proof.
  unfold Pipeline.fill_manifest, ManifestFile.init, ManifestFile.set_profile,
    ManifestFile.set_compression, ManifestFile.set_ecc_params, ManifestFile.set_voxel_mapping,
    ManifestFile.set_interleaving, ManifestFile.set_geometry, ManifestFile.set_merkle_root,
    ManifestFile.set_item.
  cbn [ManifestFile.data bind].
  erewrite set_nested_dict by reflexivity. cbn [bind].
  erewrite set_nested_dict by reflexivity. cbn [bind].
  erewrite set_nested_dict by reflexivity. cbn [bind].
  erewrite set_nested_dict by reflexivity. cbn [bind].
  erewrite set_nested_dict by reflexivity. cbn [bind ManifestFile.data].
  match goal with
  | |- context [fold_left _ _ (Ok (ManifestFile.mkManifest (JObj ?d0)))] =>
      destruct (add_files_fold (Packer.files file_metadata) d0 [] (JObj ∅)
                  ltac:(reflexivity) ltac:(reflexivity)) as (d' & fs' & Hfold & _ & Hinteg)
  end.
  rewrite Hfold. cbn [bind]. rewrite (set_nested_dict _ _ _ d' ∅ Hinteg).
  eexists; eexists. split; [reflexivity|]. apply lookup_insert_eq.
Qed.

(** X18: when [encode_folder] returns.  With a sampler and a permutation
    generator that honour their contracts, encoding an existing folder
    returns an archive whenever the file names are UTF-8, the seed is not
    negative and the compressed blob is shorter than 2^63 bytes (as every
    [bytes] object is): for every content of the folder (unreadable files,
    no file at all) and every profile name (any name other than "A" selects
    profile B) no step of the pipeline raises and the Merkle construction
    ends.  A folder that does not exist is refused with [ValueError]. *)
Theorem encode_folder_total (walk : Packer.listing) (profile_name : string) (seed : Z) :
  Forall (fun f => valid_utf8 (encode_utf8 (fst f)) = true) (Packer.visited walk) ->
  (forall level,
     (Z.of_nat (length (Pipeline.zstd_compress lib
                          (Packer.magic
                             ++ flat_map (fun f => Packer.record (fst f) (snd f))
                                         (Packer.readable (Packer.visited walk)))
                          level)) < 2 ^ 63)%Z) ->
  (0 <= seed)%Z ->
  (exists a, Pipeline.encode_folder lib true walk profile_name seed = Some (Ok a))
  /\ Pipeline.encode_folder lib false walk profile_name seed
     = Some (Raise (ValueError "Folder does not exist")).
Proof.
  intros Hnames Hsize Hseed. split; [|reflexivity].
  unfold Pipeline.encode_folder. cbv zeta.
  set (p := if String.eqb profile_name "A" then Pipeline.PROFILE_A else Pipeline.PROFILE_B).
  unfold Pipeline.encode_shards, Packer.pack_folder_to_bytes.
  rewrite pack_file_fold
    by (apply (readable_names _ (fun name => valid_utf8 (encode_utf8 name) = true)), Hnames).
  cbn [bind Packer.parts Packer.meta].
  assert (Hcodec : Pipeline.compression p = "zstd"%string)
    by (unfold p; destruct (String.eqb profile_name "A"); reflexivity).
  unfold Compression.compress_data. rewrite Hcodec.
  change ("zstd" =? "zstd")%string with true. cbv iota beta.
  destruct (create_shards_default_total _ (Hsize (Pipeline.compression_level p)))
    as [shards Hshards].
  rewrite Hshards. cbn [bind].
  destruct (make_ldpc_profiles profile_name) as (c & Hc & Hk). fold p in Hc. rewrite Hc.
  cbn [bind].
  destruct (encode_all_bits_total c shards Hk) as (all_bits & Hbits). rewrite Hbits. cbn [bind].
  destruct (encode_symbols_total profile_name seed all_bits Hseed)
    as (m & symbols & vm & Hsym & Hm).
  fold p in Hsym. rewrite Hsym. cbn [bind fst snd].
  destruct (voxels_of_total vm symbols) as (m' & vs & Hm' & Hvs & _).
  rewrite Hm in Hm'. injection Hm' as <-.
  unfold VoxelMap.symbols_to_voxels. rewrite Hvs. cbn [bind fst snd].
  unfold Pipeline.encode_manifest.
  assert (Htree : exists t, Merkle.init (length shards) shards 2 = Some (Ok t)).
  { destruct shards as [|s shards'] eqn:Es; [eexists; reflexivity|].
    apply merkle_init_total; [lia | discriminate]. }
  destruct Htree as [t Ht]. rewrite Ht.
  match goal with
  | |- context [Pipeline.fill_manifest lib ?a1 ?a2 ?a3 ?a4 ?a5 ?a6 ?a7 ?a8 ?a9] =>
      destruct (fill_manifest_total a1 a2 a3 a4 a5 a6 a7 a8 a9) as (d & integ & Hfill & Hinteg)
  end.
  rewrite Hfill. cbn [bind]. rewrite (save_dict _ _ d integ Hinteg). cbv zeta.
  eexists. reflexivity.
Qed.

End EncodeFolder.

Lemma encode_folder_total_witness :
  (exists a,
     Pipeline.encode_folder Pipeline.example_libraries true Pipeline.example_folder "B" 7
     = Some (Ok a))
  /\ Pipeline.encode_folder Pipeline.example_libraries false Pipeline.example_folder "B" 7
     = Some (Raise (ValueError "Folder does not exist")).
Proof.
  apply (encode_folder_total Pipeline.example_libraries first_choice_contract
           example_libraries_permutation).
  - repeat constructor.
  - intros level. vm_compute. reflexivity.
  - lia.
Defined.


(** ** [codecs/interleave.py]: the convolutional interleaver *)

Lemma roll_length {A} (shift : Z) (row : list A) :
  length (Interleave.roll shift row) = length row.
Proof.
  unfold Interleave.roll. destruct (length row) as [|n] eqn:En; [exact En|].
  rewrite length_app, length_drop, length_take, En. lia.
Qed.

Lemma roll_zero {A} (row : list A) : Interleave.roll 0 row = row.
Proof.
  unfold Interleave.roll. destruct (length row) as [|n] eqn:En; [reflexivity|].
  rewrite Z.mod_0_l by lia. cbn [Z.to_nat]. rewrite Nat.sub_0_r, <- En.
  rewrite drop_all, take_ge by lia. reflexivity.
Qed.

Lemma take_plus {A} (a b : nat) (l : list A) :
  take (a + b) l = take a l ++ take b (drop a l).
Proof.
  revert l. induction a as [|a IH]; intros l; [reflexivity|].
  destruct l as [|x l]; [cbn; rewrite take_nil; reflexivity|].
  cbn [Nat.add take drop app]. rewrite IH. reflexivity.
Qed.

Lemma slices_concat {A} (cols count : nat) (l : list A) :
  forall start,
    concat (map (fun i => take cols (drop (i * cols) l)) (seq start count))
    = take (count * cols) (drop (start * cols) l).
Proof.
  induction count as [|count IH]; intros start; [reflexivity|].
  cbn [seq map concat]. rewrite IH.
  replace (S count * cols) with (cols + count * cols) by lia.
  rewrite take_plus, drop_drop. do 3 f_equal. lia.
Qed.

Lemma padded_length (rows n : nat) :
  0 < rows -> n + (rows * ((n + rows - 1) / rows) - n) = rows * ((n + rows - 1) / rows).
Proof.
  intros Hr. pose proof (Nat.div_mod_eq (n + rows - 1) rows) as Hd.
  pose proof (Nat.mod_upper_bound (n + rows - 1) rows ltac:(lia)) as Hm. lia.
Qed.

Lemma nth_map_seq {B} (g : nat -> B) (count j : nat) (d : B) :
  j < count -> nth j (map g (seq 0 count)) d = g j.
Proof.
  intros Hj. apply nth_lookup_Some. change (map g (seq 0 count)) with (g <$> seq 0 count).
  rewrite list_lookup_fmap, lookup_seq_lt by exact Hj. reflexivity.
Qed.

Lemma slice_by_index {A} (offset count : nat) (l : list A) (d : A) :
  offset + count <= length l ->
  map (fun i => nth (offset + i) l d) (seq 0 count) = take count (drop offset l).
Proof.
  intros Hl. apply list_eq. intros i. change (map ?f ?x) with (f <$> x).
  rewrite list_lookup_fmap. destruct (Nat.lt_ge_cases i count) as [Hi|Hi].
  - rewrite lookup_seq_lt by exact Hi. cbn [fmap option_fmap option_map Nat.add].
    rewrite lookup_take_lt by exact Hi. rewrite lookup_drop.
    destruct (nth_lookup_or_length l (offset + i) d) as [H|H]; [symmetry; exact H | lia].
  - rewrite lookup_seq_ge by exact Hi. cbn [fmap option_fmap option_map].
    symmetry. apply lookup_ge_None. rewrite length_take. lia.
Qed.

Lemma columns_concat {A} (rows count : nat) (l : list A) (d : A) :
  forall start,
    (start + count) * rows <= length l ->
    flat_map (fun j => map (fun i => nth (j * rows + i) l d) (seq 0 rows)) (seq start count)
    = take (count * rows) (drop (start * rows) l).
Proof.
  induction count as [|count IH]; intros start Hl; [reflexivity|].
  cbn [seq flat_map]. rewrite IH by lia. rewrite slice_by_index by lia.
  replace (S count * rows) with (rows + count * rows) by lia.
  rewrite take_plus, drop_drop. do 3 f_equal. lia.
Qed.

Lemma flat_map_ext_on {A B} (f g : A -> list B) (l : list A) :
  (forall x, In x l -> f x = g x) -> flat_map f l = flat_map g l.
Proof.
  induction l as [|x l IH]; intros Hfg; [reflexivity|].
  cbn [flat_map]. rewrite (Hfg x (or_introl eq_refl)), IH; [reflexivity|].
  intros y Hy. apply Hfg. right. exact Hy.
Qed.

Lemma convolutional_interleave_pos {A} (rows : nat) (zero : A) (data : list A) :
  0 < rows ->
  Interleave.convolutional_interleave rows zero data
  = let n := length data in
    let cols := (n + rows - 1) / rows in
    let padded := data ++ repeat zero (rows * cols - n) in
    Ok (take n (concat (map (fun i => Interleave.roll (Z.of_nat i * Z.of_nat (cols / rows))
                                        (take cols (drop (i * cols) padded)))
                            (seq 0 rows)))).
Proof. intros Hr. destruct rows; [lia | reflexivity]. Qed.

Lemma convolutional_deinterleave_pos {A} (rows : nat) (zero : A) (data : list A) :
  0 < rows ->
  Interleave.convolutional_deinterleave rows zero data
  = let n := length data in
    let cols := (n + rows - 1) / rows in
    let padded := data ++ repeat zero (rows * cols - n) in
    Ok (take n (flat_map
                  (fun j => map (fun row => nth j row zero)
                              (map (fun i => Interleave.roll
                                               (- (Z.of_nat i * Z.of_nat (cols / rows)))
                                               (map (fun j => nth (j * rows + i) padded zero)
                                                    (seq 0 cols)))
                                   (seq 0 rows)))
                  (seq 0 cols))).
Proof. intros Hr. destruct rows; [lia | reflexivity]. Qed.

(** X19: the convolutional interleaver on short data.  For a positive
    depth, [convolutional_interleave] and [convolutional_deinterleave]
    return an array of the length of the data; and when the data has fewer
    than [depth] columns ([ceil(len / depth) < depth]: up to 240 elements
    for the default depth 16), the delay unit [cols // rows] is zero and
    both return the data unchanged: nothing is interleaved. *)
Theorem convolutional_interleave_short_data {A} (rows : nat) (zero : A) (data : list A) :
  0 < rows ->
  exists interleaved deinterleaved,
    Interleave.convolutional_interleave rows zero data = Ok interleaved
    /\ Interleave.convolutional_deinterleave rows zero data = Ok deinterleaved
    /\ length interleaved = length data /\ length deinterleaved = length data
    /\ ((length data + rows - 1) / rows < rows -> interleaved = data /\ deinterleaved = data).
Proof.
  intros Hr. rewrite convolutional_interleave_pos, convolutional_deinterleave_pos by exact Hr.
  cbv zeta.
  set (n := length data). set (cols := (n + rows - 1) / rows).
  set (padded := data ++ repeat zero (rows * cols - n)).
  assert (Hpad : length padded = rows * cols).
  { unfold padded. rewrite length_app, repeat_length. apply padded_length. lia. }
  assert (Hn : n <= rows * cols) by (unfold padded in Hpad; rewrite length_app in Hpad; fold n in Hpad; lia).
  eexists. eexists. split; [reflexivity|]. split; [reflexivity|]. split; [|split].
  - rewrite length_take, (length_concat_uniform cols).
    + rewrite length_map, length_seq. lia.
    + apply Forall_map, Forall_forall. intros i Hi. apply elem_of_seq in Hi.
      rewrite roll_length, length_take, length_drop, Hpad. nia.
  - rewrite length_take, (length_flat_map_uniform _ rows).
    + rewrite length_seq. lia.
    + intros j. rewrite !length_map, length_seq. reflexivity.
  - intros Hshort. fold n cols in Hshort.
    assert (Hunit : cols / rows = 0) by (apply Nat.div_small; exact Hshort).
    rewrite Hunit. split.
    + rewrite (map_ext_in _ (fun i => take cols (drop (i * cols) padded))).
      * rewrite (slices_concat cols rows padded 0). cbn [Nat.mul]. rewrite drop_0.
        rewrite (take_ge padded) by lia. apply take_app_length.
      * intros i _. cbn [Z.of_nat]. rewrite Z.mul_0_r. apply roll_zero.
    + rewrite (flat_map_ext_on _
                 (fun j => map (fun i => nth (j * rows + i) padded zero) (seq 0 rows))).
      * rewrite (columns_concat rows cols padded zero 0) by lia. cbn [Nat.mul]. rewrite drop_0.
        rewrite (take_ge padded) by lia. apply take_app_length.
      * intros j Hj. apply in_seq in Hj. rewrite map_map. apply map_ext. intros i.
        cbn [Z.of_nat]. rewrite Z.mul_0_r. cbn [Z.opp]. rewrite roll_zero.
        apply (nth_map_seq (fun j => nth (j * rows + i) padded zero)). lia.
Qed.

Lemma convolutional_interleave_short_data_witness :
  exists interleaved deinterleaved,
    Interleave.convolutional_interleave 16 false [true; false; true] = Ok interleaved
    /\ Interleave.convolutional_deinterleave 16 false [true; false; true] = Ok deinterleaved
    /\ length interleaved = 3 /\ length deinterleaved = 3
    /\ ((3 + 16 - 1) / 16 < 16 ->
        interleaved = [true; false; true] /\ deinterleaved = [true; false; true]).
Proof.
  apply (convolutional_interleave_short_data 16 false [true; false; true]). lia.
Defined.

(** X20: [convolutional_deinterleave] does not invert
    [convolutional_interleave].  With depth 2, interleaving four elements
    [a, b, c, d] gives [a, b, d, c], and deinterleaving that gives
    [a, c, d, b]: the two functions lay the matrix out differently (by rows,
    by columns), so the round trip permutes the data. *)
Theorem convolutional_round_trip_permutes {A} (zero a b c d : A) :
  Interleave.convolutional_interleave 2 zero [a; b; c; d] = Ok [a; b; d; c]
  /\ Interleave.convolutional_deinterleave 2 zero [a; b; d; c] = Ok [a; c; d; b].
Proof. split; reflexivity. Qed.

(** ** [mapping/voxel_map.py]: the Gray code tables *)

(** X21: [_generate_gray_codes] builds a Gray code, for both modes: the
    table has a code for every symbol, and the codes of two consecutive
    symbols differ in exactly one of their [bits_per_voxel] bits. *)
Theorem gray_codes_consecutive_symbols (mode : string) (m : VoxelMap.VoxelMapper) (s : Z) :
  VoxelMap.init mode = Ok m ->
  (0 <= s < VoxelMap.num_symbols m - 1)%Z ->
  exists g g',
    VoxelMap.gray_codes m !! s = Some g
    /\ VoxelMap.gray_codes m !! (s + 1)%Z = Some g'
    /\ VoxelMap.hamming (VoxelMap.symbol_bits (VoxelMap.bits_per_voxel m) g)
                        (VoxelMap.symbol_bits (VoxelMap.bits_per_voxel m) g') = 1.
Proof.
  unfold VoxelMap.init. destruct (String.eqb_spec mode "3bit") as [->|_];
    [|destruct (String.eqb_spec mode "5bit") as [->|_]]; intros Hm Hs; [| |discriminate Hm];
    injection Hm as <-; cbn [VoxelMap.num_symbols VoxelMap.gray_codes VoxelMap.bits_per_voxel] in *.
  - assert (H : (s = 0 \/ s = 1 \/ s = 2 \/ s = 3 \/ s = 4 \/ s = 5 \/ s = 6)%Z) by lia.
    repeat (destruct H as [->|H]; [eexists; eexists; vm_compute; auto|]).
    subst s. eexists; eexists; vm_compute; auto.
  - assert (H : (s = 0 \/ s = 1 \/ s = 2 \/ s = 3 \/ s = 4 \/ s = 5 \/ s = 6 \/ s = 7 \/ s = 8 \/ s = 9 \/ s = 10 \/ s = 11 \/ s = 12 \/ s = 13 \/ s = 14 \/ s = 15 \/ s = 16 \/ s = 17 \/ s = 18 \/ s = 19 \/ s = 20 \/ s = 21 \/ s = 22 \/ s = 23 \/ s = 24 \/ s = 25 \/ s = 26 \/ s = 27 \/ s = 28 \/ s = 29 \/ s = 30)%Z) by lia.
    repeat (destruct H as [->|H]; [eexists; eexists; vm_compute; auto|]).
    subst s. eexists; eexists; vm_compute; auto.
Qed.

Lemma gray_codes_consecutive_symbols_witness :
  exists g g',
    VoxelMap._generate_gray_codes "5bit" !! 15%Z = Some g
    /\ VoxelMap._generate_gray_codes "5bit" !! 16%Z = Some g'
    /\ VoxelMap.hamming (VoxelMap.symbol_bits 5 g) (VoxelMap.symbol_bits 5 g') = 1.
Proof.
  apply (gray_codes_consecutive_symbols "5bit"
           (VoxelMap.mkMapper "5bit" 5 8 4 32 (VoxelMap._generate_gray_codes "5bit")
              (VoxelMap._build_symbol_table "5bit")) 15%Z).
  - reflexivity.
  - cbn. lia.
Defined.
